(** * Slide-translate add-in: rich-text reconciliation and batch orchestration

    A shallow embedding of the text utilities ([utils/text.ts]), the
    run extraction and recomposition code ([services/formatting.ts]) and the
    translation orchestrator ([services/ppt.ts], [services/openai.ts]),
    followed by the properties the design document states about them.

    JavaScript strings are sequences of UTF-16 code units; [length], [slice],
    indexing and the regular expressions used here (none has the [u] flag)
    all work on code units, so a string is a [list N]. *)

From Stdlib Require Import Strings.String Strings.Ascii.
From Stdlib Require Import ZArith NArith List Lia Bool.
From Stdlib Require Import Floats.PrimFloat.
From stdpp Require Import base list gmap pretty.
From Equations Require Import Equations.
Import ListNotations.

Set Default Proof Using "Type".

(* ===================================================================== *)
(** * Part I. Definitions                                                 *)
(* ===================================================================== *)

(** ** JavaScript strings *)

Abbreviation jsstring := (list N).

(** Literal helper: the code units of an ASCII literal. *)
Fixpoint js (s : String.string) : jsstring :=
  match s with
  | String.EmptyString => []
  | String.String a s' => Ascii.N_of_ascii a :: js s'
  end.

(** [String.prototype.slice(a, b)] for non-negative [a], [b]. *)
Definition slice (a b : nat) (s : jsstring) : jsstring := take (b - a) (drop a s).

(** [Array.prototype.join] on an array of strings. *)
Fixpoint join (sep : jsstring) (l : list jsstring) : jsstring :=
  match l with
  | [] => []
  | [x] => x
  | x :: rest => x ++ sep ++ join sep rest
  end.

(** ** utils/text.ts *)

(** The class [\s] (WhiteSpace and LineTerminator of ECMAScript), which is
    also the set of code units [String.prototype.trim] strips. *)
Definition isWhiteSpace (c : N) : bool :=
  ((9 <=? c) && (c <=? 13) || (c =? 32) || (c =? 160) || (c =? 5760)
   || (8192 <=? c) && (c <=? 8202) || (c =? 8232) || (c =? 8233)
   || (c =? 8239) || (c =? 8287) || (c =? 12288) || (c =? 65279))%N.

(** The class [\d]. *)
Definition isDigit (c : N) : bool := ((48 <=? c) && (c <=? 57))%N.

(** The literal members of the class in [isNonTranslatable], in the order
    of the source: full stop, comma, percent, plus, hyphen, en dash (U+2013),
    em dash (U+2014), the brackets, the ASCII punctuation and operators, the
    single and double quotes, euro (U+20AC), dollar, pound (U+00A3) and yen
    (U+00A5). *)
Definition protectedSymbols : list N :=
  js ".,%+-" ++ [8211; 8212]%N ++ js "()[]{}<>:;!?/\|@#^&*=~`'" ++ [34; 8364]%N
     ++ js "$" ++ [163; 165]%N.

Definition isProtectedChar (c : N) : bool :=
  isWhiteSpace c || isDigit c || bool_decide (c ∈ protectedSymbols).

(** Every code unit of [s] is in the class; the scan stops at the first one
    that is not. *)
Fixpoint allIn (cls : N -> bool) (s : jsstring) : bool :=
  match s with
  | [] => true
  | c :: s' => if cls c then allIn cls s' else false
  end.

(** [/^C+$/.test(s)] for a character class [C]. *)
Definition testAllPlus (cls : N -> bool) (s : jsstring) : bool :=
  match s with
  | [] => false
  | _ :: _ => allIn cls s
  end.

(** [s.match(/^C+/)]: the greedy match at the start, [None] for [null]. *)
Fixpoint longestPrefix (cls : N -> bool) (s : jsstring) : jsstring :=
  match s with
  | [] => []
  | c :: s' => if cls c then c :: longestPrefix cls s' else []
  end.

Definition matchLeadingPlus (cls : N -> bool) (s : jsstring) : option jsstring :=
  match longestPrefix cls s with
  | [] => None
  | m => Some m
  end.

(** [s.match(/C+$/)]: the search tries each start position from the left;
    at a position the greedy [C+] followed by [$] succeeds exactly when the
    rest of the string is non-empty and wholly in the class. *)
Fixpoint matchTrailingPlus (cls : N -> bool) (s : jsstring) : option jsstring :=
  match s with
  | [] => None
  | _ :: s' => if allIn cls s then Some s else matchTrailingPlus cls s'
  end.

Fixpoint trimStart (s : jsstring) : jsstring :=
  match s with
  | [] => []
  | c :: s' => if isWhiteSpace c then trimStart s' else s
  end.

Fixpoint trimEnd (s : jsstring) : jsstring :=
  match s with
  | [] => []
  | c :: s' =>
      match trimEnd s' with
      | [] => if isWhiteSpace c then [] else [c]
      | t => c :: t
      end
  end.

Definition trim (s : jsstring) : jsstring := trimEnd (trimStart s).

Definition preserveWhitespace (original translated : jsstring) : jsstring :=
  let pre := default [] (matchLeadingPlus isWhiteSpace original) in
  let suf := default [] (matchTrailingPlus isWhiteSpace original) in
  pre ++ trim translated ++ suf.

Definition isNonTranslatable (text : jsstring) : bool :=
  if bool_decide (text = []) then true
  else if testAllPlus isWhiteSpace text then true
  else if testAllPlus isProtectedChar text then true
  else false.

(** ** utils/types.ts *)

(** A JavaScript [number] is a binary64 float. *)
Definition number := float.

Record FontSnapshot := {
  allCaps : bool;
  bold : bool;
  color : jsstring;
  doubleStrikethrough : bool;
  italic : bool;
  name : jsstring;
  size : number;
  smallCaps : bool;
  strikethrough : bool;
  subscript : bool;
  superscript : bool;
  underline : jsstring
}.

Record Run := { text : jsstring; font : FontSnapshot }.

Record ParagraphFormatSnapshot := {
  horizontalAlignment : option jsstring;
  indentLevel : option number;
  bulletVisible : option bool;
  bulletType : option (option jsstring);
  bulletStyle : option (option jsstring)
}.

Record Paragraph := {
  id : jsstring;
  originalCharCount : Z;
  runs : list Run;
  paragraphFormat : option ParagraphFormatSnapshot
}.

(** An element of [translatedRuns]: [{ index, text }]. *)
Record IndexedText := { index : Z; itext : jsstring }.

Record TranslationResult := {
  paragraphId : jsstring;
  translatedRuns : list IndexedText
}.

(** ** services/formatting.ts: applying translations to runs *)

(** [new Map(entries)]: entries are set in order, so a later entry with the
    same key replaces an earlier one. *)
Definition mapOfEntries `{Countable K} {V} (entries : list (K * V)) : gmap K V :=
  foldl (fun m kv => <[kv.1 := kv.2]> m) ∅ entries.

(** [arr.map((r, idx) => f(r, idx))]. *)
Definition mapi {A B} (f : A -> nat -> B) (l : list A) : list B :=
  imap (fun idx r => f r idx) l.

Definition applyRunTranslations (paragraph : Paragraph)
    (translatedRuns : list IndexedText) : Paragraph :=
  let map := mapOfEntries ((fun r => (index r, itext r)) <$> translatedRuns) in
  let nextRuns :=
    mapi (fun r idx =>
            if isNonTranslatable (text r) then r
            else match map !! Z.of_nat idx with
                 | None => r
                 | Some t => {| text := preserveWhitespace (text r) t; font := font r |}
                 end)
         (runs paragraph) in
  {| id := id paragraph;
     originalCharCount := originalCharCount paragraph;
     runs := nextRuns;
     paragraphFormat := paragraphFormat paragraph |}.

(** ** services/formatting.ts: run extraction *)

(** [PowerPoint.ShapeFont] as read after [load] and [sync]: an attribute is
    [null] when the range mixes several values or the host cannot read it. *)
Record ShapeFont := {
  sf_allCaps : option bool;
  sf_bold : option bool;
  sf_color : option jsstring;
  sf_doubleStrikethrough : option bool;
  sf_italic : option bool;
  sf_name : option jsstring;
  sf_size : option number;
  sf_smallCaps : option bool;
  sf_strikethrough : option bool;
  sf_subscript : option bool;
  sf_superscript : option bool;
  sf_underline : option jsstring
}.

Definition safeFontSnapshot (font : ShapeFont) : FontSnapshot :=
  {| allCaps := default false (sf_allCaps font);
     bold := default false (sf_bold font);
     color := default (js "#FFFFFF") (sf_color font);
     doubleStrikethrough := default false (sf_doubleStrikethrough font);
     italic := default false (sf_italic font);
     name := default (js "") (sf_name font);
     size := default 12%float (sf_size font);
     smallCaps := default false (sf_smallCaps font);
     strikethrough := default false (sf_strikethrough font);
     subscript := default false (sf_subscript font);
     superscript := default false (sf_superscript font);
     underline := default (js "None") (sf_underline font) |}.

Definition defaultFontSnapshot : FontSnapshot :=
  {| allCaps := false; bold := false; color := js "#FFFFFF";
     doubleStrikethrough := false; italic := false; name := js "";
     size := 12%float; smallCaps := false; strikethrough := false;
     subscript := false; superscript := false; underline := js "None" |}.

(** A span of the text with what is to be applied to it:
    [{ start, length, font }] or [{ start, length, format }]. *)
Record Span (A : Type) := mkSpan { start : nat; len : nat; fmt : A }.
Arguments mkSpan {A} _ _ _.
Arguments start {A} _.
Arguments len {A} _.
Arguments fmt {A} _.

Definition isNull {A} (v : option A) : bool :=
  match v with None => true | Some _ => false end.

(** [Object.values(raw).some((v) => v === null || v === undefined)]. *)
Definition isMixed (f : ShapeFont) : bool :=
  isNull (sf_allCaps f) || isNull (sf_bold f) || isNull (sf_color f)
  || isNull (sf_doubleStrikethrough f) || isNull (sf_italic f)
  || isNull (sf_name f) || isNull (sf_size f) || isNull (sf_smallCaps f)
  || isNull (sf_strikethrough f) || isNull (sf_subscript f)
  || isNull (sf_superscript f) || isNull (sf_underline f).

Definition inspect {A} (a : A) : {b : A | a = b} := exist _ a eq_refl.

Section RunExtraction.
(** [String(x)] for a number and a boolean, as [Array.prototype.join]
    applies it; the rendering of a float is left to the engine. *)
Variable numberToString : number -> jsstring.

Definition boolToString (b : bool) : jsstring :=
  if b then js "true" else js "false".

Definition fontKey (f : FontSnapshot) : jsstring :=
  join (js "|")
    [ boolToString (allCaps f); boolToString (bold f); color f;
      boolToString (doubleStrikethrough f); boolToString (italic f);
      name f; numberToString (size f); boolToString (smallCaps f);
      boolToString (strikethrough f); boolToString (subscript f);
      boolToString (superscript f); underline f ].

(** The host probe: the font of [fullRange.getSubstring(start, length)]
    once loaded. *)
Variable hostFont : nat -> nat -> ShapeFont.

(** One iteration of the merging loop of the character scan; the state is
    [(runs, (curFont, curText))], with [None] for [curFont === null]. *)
Definition scanStep (st : list Run * option (FontSnapshot * jsstring))
    (cf : N * FontSnapshot) : list Run * option (FontSnapshot * jsstring) :=
  let '(runs, cur) := st in
  let '(c, f) := cf in
  match cur with
  | None => (runs, Some (f, [c]))
  | Some (curFont, curText) =>
      if bool_decide (fontKey curFont = fontKey f)
      then (runs, Some (curFont, curText ++ [c]))
      else (runs ++ [{| text := curText; font := curFont |}], Some (f, [c]))
  end.

Definition extractRunsByCharScan (paragraphStart : nat)
    (paragraphText : jsstring) : list Run :=
  let n := length paragraphText in
  let charRanges := (fun i => hostFont (paragraphStart + i) 1) <$> seq 0 n in
  let '(runs, cur) :=
    foldl scanStep ([], None) (zip paragraphText (safeFontSnapshot <$> charRanges)) in
  match cur with
  | Some (curFont, curText) => runs ++ [{| text := curText; font := curFont |}]
  | None => runs
  end.

(** The inner [split] of the bisection; its result is the list of spans it
    pushes, in the order it pushes them. *)
Equations? split (start length_ : nat) : list (Span FontSnapshot) by wf length_ lt :=
  split start length_
    with inspect (negb (isMixed (hostFont start length_)) || (length_ <=? 1)) := {
    | exist _ true _ =>
        [mkSpan start length_ (safeFontSnapshot (hostFont start length_))]
    | exist _ false Hsplit =>
        let mid := length_ / 2 in
        split start mid ++ split (start + mid) (length_ - mid) }.
Proof.
  all: apply orb_false_elim in Hsplit as [_ Hlen];
    apply Nat.leb_gt in Hlen;
    assert (Hpos : 0 < length_ / 2) by (apply Nat.div_str_pos; lia);
    assert (Hlt : length_ / 2 < length_) by (apply Nat.div_lt; lia);
    change (length_ / 2) with mid in Hpos, Hlt; lia.
Qed.

(** [spans.sort((a, b) => a.start - b.start)]: a stable sort, ascending by
    [start]. *)
Fixpoint insertByStart {A} (s : Span A) (sorted : list (Span A)) : list (Span A) :=
  match sorted with
  | [] => [s]
  | x :: rest =>
      if start x <=? start s then x :: insertByStart s rest else s :: sorted
  end.

Definition sortByStart {A} (spans : list (Span A)) : list (Span A) :=
  foldl (fun sorted s => insertByStart s sorted) [] spans.

(** One iteration of the merging loop of the bisection; the state is
    [(out, last)]. *)
Definition mergeStep (paragraphStart : nat) (paragraphText : jsstring)
    (st : list Run * option Run) (s : Span FontSnapshot) : list Run * option Run :=
  let '(out, last) := st in
  let localStart := start s - paragraphStart in
  let piece := slice localStart (localStart + len s) paragraphText in
  match last with
  | None => (out, Some {| text := piece; font := fmt s |})
  | Some l =>
      if bool_decide (fontKey (font l) = fontKey (fmt s))
      then (out, Some {| text := text l ++ piece; font := font l |})
      else (out ++ [l], Some {| text := piece; font := fmt s |})
  end.

Definition extractRunsByBinarySplit (paragraphStart : nat)
    (paragraphText : jsstring) : list Run :=
  let spans := sortByStart (split paragraphStart (length paragraphText)) in
  let '(out, last) := foldl (mergeStep paragraphStart paragraphText) ([], None) spans in
  match last with
  | Some l => out ++ [l]
  | None => out
  end.

Definition MAX_CHAR_SCAN : nat := 1500.

Definition extractRunsByFont (paragraphStart : nat) (paragraphText : jsstring)
    : list Run :=
  let n := length paragraphText in
  if n =? 0 then [{| text := js ""; font := defaultFontSnapshot |}]
  else if n <=? MAX_CHAR_SCAN
       then extractRunsByCharScan paragraphStart paragraphText
       else extractRunsByBinarySplit paragraphStart paragraphText.
End RunExtraction.

(** ** utils/types.ts: settings *)

Inductive Scope := ScopeCurrent | ScopeAll.
Inductive Mode := ModeApply | ModePreview.

Record Settings := {
  apiKey : jsstring;
  fromLang : jsstring;
  toLang : jsstring;
  scope : Scope;
  mode : Mode;
  keepLineBreaks : bool;
  fitToLength : bool;
  fitStrength : number;
  glossary : list (jsstring * jsstring);
  ignoreRegex : jsstring;
  applyUnderline : bool
}.

(** ** services/ppt.ts: targets and translation items *)

Record ShapeTextTarget := {
  st_shapeId : jsstring;
  st_shapeName : jsstring;
  st_groupPath : list jsstring;
  st_shapePath : option jsstring;
  paragraphs : list Paragraph
}.

(** [{ text, font? }], the font being the host's own run font object. *)
Record TableRunSnapshot := { tr_text : jsstring; tr_font : option ShapeFont }.

Record TableCellTarget := {
  tc_shapeId : jsstring;
  tc_shapeName : jsstring;
  tc_groupPath : list jsstring;
  tc_shapePath : option jsstring;
  row : Z;
  col : Z;
  tc_paragraphId : jsstring;
  tc_originalChars : Z;
  tc_runs : list TableRunSnapshot
}.

Record SlideTargets := {
  slideIndex : Z;
  shapeTextTargets : list ShapeTextTarget;
  tableCellTargets : list TableCellTarget
}.

(** services/openai.ts: [TranslateBatchItem]. *)
Record TranslateBatchItem := {
  item_paragraphId : jsstring;
  originalChars : Z;
  item_runs : list IndexedText
}.

Definition isSkippable (runs : list IndexedText) : bool :=
  forallb (fun r => isNonTranslatable (itext r)) runs.

Definition buildTranslateItems (targets : SlideTargets) : list TranslateBatchItem :=
  let fromShapes :=
    t ← shapeTextTargets targets;
    p ← paragraphs t;
    let runs := mapi (fun r idx => {| index := Z.of_nat idx; itext := text r |}) (runs p) in
    if isSkippable runs then []
    else [{| item_paragraphId := id p;
             originalChars := originalCharCount p;
             item_runs := runs |}] in
  let fromCells :=
    t ← tableCellTargets targets;
    let runs := mapi (fun r idx => {| index := Z.of_nat idx; itext := tr_text r |}) (tc_runs t) in
    if isSkippable runs then []
    else [{| item_paragraphId := tc_paragraphId t;
             originalChars := tc_originalChars t;
             item_runs := runs |}] in
  fromShapes ++ fromCells.

(** [T extends { originalChars: number }]. *)
Class HasOriginalChars (T : Type) := originalCharsOf : T -> Z.
#[export] Instance TranslateBatchItem_originalChars : HasOriginalChars TranslateBatchItem :=
  originalChars.

Definition isEmpty {A} (l : list A) : bool :=
  match l with [] => true | _ :: _ => false end.

(** One iteration of the loop of [chunkByChars]; the state is
    [(chunks, current, sum)]. *)
Definition chunkStep `{HasOriginalChars T} (maxChars maxItems : Z)
    (st : list (list T) * list T * Z) (item : T) : list (list T) * list T * Z :=
  let '(chunks, current, sum) := st in
  let '(chunks, current, sum) :=
    if (Z.of_nat (length current) >=? maxItems)%Z
       || (sum + originalCharsOf item >? maxChars)%Z
    then ((if isEmpty current then chunks else chunks ++ [current]), [], 0%Z)
    else (chunks, current, sum) in
  (chunks, current ++ [item], (sum + originalCharsOf item)%Z).

Definition chunkByChars `{HasOriginalChars T} (items : list T)
    (maxChars maxItems : Z) : list (list T) :=
  let '(chunks, current, _) := foldl (chunkStep maxChars maxItems) ([], [], 0%Z) items in
  if isEmpty current then chunks else chunks ++ [current].

Definition defaultMaxChars : Z := 12000.
Definition defaultMaxItems : Z := 60.

(** *** [JSON.stringify] on an array of strings *)

Definition hexDigit (d : N) : N := (if d <? 10 then 48 + d else 87 + d)%N.

(** [UnicodeEscape]: a backslash, [u] and four lowercase hexadecimal digits. *)
Definition unicodeEscape (c : N) : jsstring :=
  [92; 117; hexDigit (c / 4096 mod 16); hexDigit (c / 256 mod 16);
   hexDigit (c / 16 mod 16); hexDigit (c mod 16)]%N.

Definition isLeadSurrogate (c : N) : bool := ((55296 <=? c) && (c <=? 56319))%N.
Definition isTrailSurrogate (c : N) : bool := ((56320 <=? c) && (c <=? 57343))%N.

(** The escape of one code unit that is not the lead of a surrogate pair. *)
Definition quoteJSONUnit (c : N) : jsstring :=
  if (c =? 8)%N then js "\b"
  else if (c =? 9)%N then js "\t"
  else if (c =? 10)%N then js "\n"
  else if (c =? 12)%N then js "\f"
  else if (c =? 13)%N then js "\r"
  else if (c =? 34)%N then [92; 34]%N
  else if (c =? 92)%N then js "\\"
  else if (c <? 32)%N || isLeadSurrogate c || isTrailSurrogate c then unicodeEscape c
  else [c].

(** The body of [QuoteJSONString]: the string is read by code points, a
    well-formed surrogate pair is copied and a lone surrogate is escaped. *)
Fixpoint quoteJSONBody (s : jsstring) : jsstring :=
  match s with
  | [] => []
  | c :: rest =>
      match rest with
      | d :: rest' =>
          if isLeadSurrogate c && isTrailSurrogate d
          then c :: d :: quoteJSONBody rest'
          else quoteJSONUnit c ++ quoteJSONBody rest
      | [] => quoteJSONUnit c
      end
  end.

Definition quoteJSONString (s : jsstring) : jsstring :=
  [34%N] ++ quoteJSONBody s ++ [34%N].

Definition JSON_stringify (strings : list jsstring) : jsstring :=
  js "[" ++ join (js ",") (quoteJSONString <$> strings) ++ js "]".

Definition translateKey (item : TranslateBatchItem) : jsstring :=
  JSON_stringify (itext <$> item_runs item).

(** *** Recomposition *)

Record Composed := {
  fullText : jsstring;
  paragraphSpans : list (Span (option ParagraphFormatSnapshot));
  runSpans : list (Span FontSnapshot)
}.

(** The variables of [composeText]: the three results and [offset]. *)
Record ComposeState := {
  cs_fullText : jsstring;
  cs_paragraphSpans : list (Span (option ParagraphFormatSnapshot));
  cs_runSpans : list (Span FontSnapshot);
  cs_offset : nat
}.

(** The body of the inner loop over the runs of a paragraph. *)
Definition composeRun (st : ComposeState) (run : Run) : ComposeState :=
  {| cs_fullText := cs_fullText st ++ text run;
     cs_paragraphSpans := cs_paragraphSpans st;
     cs_runSpans := cs_runSpans st ++ [mkSpan (cs_offset st) (length (text run)) (font run)];
     cs_offset := cs_offset st + length (text run) |}.

Definition addJoiner (joiner : jsstring) (st : ComposeState) : ComposeState :=
  {| cs_fullText := cs_fullText st ++ joiner;
     cs_paragraphSpans := cs_paragraphSpans st;
     cs_runSpans := cs_runSpans st;
     cs_offset := cs_offset st + 1 |}.

(** The body of the outer loop, for paragraph [p] at index [i] of [count]. *)
Definition composeParagraph (settings : Settings) (count : nat)
    (st : ComposeState) (ip : nat * Paragraph) : ComposeState :=
  let '(i, p) := ip in
  let pStart := cs_offset st in
  let st := foldl composeRun st (runs p) in
  let pLen := cs_offset st - pStart in
  let st :=
    {| cs_fullText := cs_fullText st;
       cs_paragraphSpans := cs_paragraphSpans st ++ [mkSpan pStart pLen (paragraphFormat p)];
       cs_runSpans := cs_runSpans st;
       cs_offset := cs_offset st |} in
  if keepLineBreaks settings && (i <? count - 1) then addJoiner [10%N] st
  else if negb (keepLineBreaks settings) && (i <? count - 1) then addJoiner (js " ") st
  else st.

Definition composeText (paragraphs : list Paragraph) (settings : Settings) : Composed :=
  let st :=
    foldl (composeParagraph settings (length paragraphs))
          {| cs_fullText := []; cs_paragraphSpans := []; cs_runSpans := []; cs_offset := 0 |}
          (imap (fun i p => (i, p)) paragraphs) in
  {| fullText := cs_fullText st;
     paragraphSpans := cs_paragraphSpans st;
     runSpans := cs_runSpans st |}.

(** ** Vocabulary of the properties *)

Definition allWhitespace (s : jsstring) : Prop :=
  Forall (fun c => isWhiteSpace c = true) s.

(** [pre] is the maximal leading run of whitespace of [s]. *)
Definition maximalLeadingWhitespace (pre s : jsstring) : Prop :=
  pre `prefix_of` s /\ allWhitespace pre /\
  forall p, p `prefix_of` s -> allWhitespace p -> length p <= length pre.

(** [suf] is the maximal trailing run of whitespace of [s]. *)
Definition maximalTrailingWhitespace (suf s : jsstring) : Prop :=
  suf `suffix_of` s /\ allWhitespace suf /\
  forall p, p `suffix_of` s -> allWhitespace p -> length p <= length suf.

(** The text the provider returned for run [i]: that of the last entry of
    [translatedRuns] whose index is [i], if there is one. *)
Definition translationFor (i : nat) (translatedRuns : list IndexedText)
    : option jsstring :=
  itext <$> last (filter (fun r => index r = Z.of_nat i) translatedRuns).

(** The text of a paragraph: its run texts, concatenated. *)
Definition paragraphText (p : Paragraph) : jsstring := concat (text <$> runs p).

(** [s.slice(start, start + length)] for a span. *)
Definition spanText {A} (s : jsstring) (sp : Span A) : jsstring :=
  slice (start sp) (start sp + len sp) s.

(** Each span starts at or after the end of the one before it. *)
Definition spansAscending {A} (spans : list (Span A)) : Prop :=
  forall k a b, spans !! k = Some a -> spans !! S k = Some b ->
                start a + len a <= start b.

(** Each span starts strictly after the end of the one before it. *)
Definition spansSeparated {A} (spans : list (Span A)) : Prop :=
  forall k a b, spans !! k = Some a -> spans !! S k = Some b ->
                start a + len a < start b.

(** The spans cover [from, to) exactly: the first starts at [from], each
    next one starts where the previous one ends, and the last ends at [to]. *)
Fixpoint tiles {A} (from to : nat) (spans : list (Span A)) : Prop :=
  match spans with
  | [] => from = to
  | sp :: rest => start sp = from /\ tiles (from + len sp) to rest
  end.

(** The entries of the run table that belong to paragraph [j]: the table has
    one entry per run, paragraph after paragraph. *)
Definition runSpansOfParagraph (paragraphs : list Paragraph) (j : nat)
    (spans : list (Span FontSnapshot)) : list (Span FontSnapshot) :=
  match paragraphs !! j with
  | Some p => take (length (runs p))
                   (drop (length (concat (runs <$> take j paragraphs))) spans)
  | None => []
  end.

(** The joiner written after paragraph [i] of [count]. *)
Definition joinerAt (settings : Settings) (count i : nat) : jsstring :=
  if i <? count - 1
  then (if keepLineBreaks settings then [10%N] else js " ")
  else [].

(** The run spans of one paragraph whose first run starts at [off]. *)
Fixpoint runSpansAt (off : nat) (rs : list Run) : list (Span FontSnapshot) :=
  match rs with
  | [] => []
  | r :: rest =>
      mkSpan off (length (text r)) (font r) :: runSpansAt (off + length (text r)) rest
  end.

(** The result of the loop of [composeText] in closed form, for the
    paragraphs from index [i] on, the first of which starts at [off]. *)
Fixpoint layout (settings : Settings) (count i off : nat)
    (ps : list Paragraph) : Composed :=
  match ps with
  | [] => {| fullText := []; paragraphSpans := []; runSpans := [] |}
  | p :: rest =>
      let t := paragraphText p in
      let j := joinerAt settings count i in
      let c := layout settings count (S i) (off + length t + length j) rest in
      {| fullText := t ++ j ++ fullText c;
         paragraphSpans := mkSpan off (length t) (paragraphFormat p) :: paragraphSpans c;
         runSpans := runSpansAt off (runs p) ++ runSpans c |}
  end.

(** The text [t] stands in [full] at the place the span names. *)
Definition occursAt {A} (full : jsstring) (sp : Span A) (t : jsstring) : Prop :=
  exists pre post, full = pre ++ t ++ post /\ start sp = length pre /\ len sp = length t.

(** Spans in order with at least [gap] code units between two of them, the
    first starting at or after [lo]. *)
Fixpoint chainedFrom {A} (gap lo : nat) (spans : list (Span A)) : Prop :=
  match spans with
  | [] => True
  | sp :: rest => lo <= start sp /\ chainedFrom gap (start sp + len sp + gap) rest
  end.

(** ** Sample data for the properties *)

Definition plainRun (s : jsstring) : Run := {| text := s; font := defaultFontSnapshot |}.

Definition boldRun (s : jsstring) : Run :=
  {| text := s;
     font := {| allCaps := false; bold := true; color := js "#FF0000";
                doubleStrikethrough := false; italic := false; name := js "Arial";
                size := 18%float; smallCaps := false; strikethrough := false;
                subscript := false; superscript := false; underline := js "None" |} |}.

Definition sampleParagraph (pid : jsstring) (rs : list Run) : Paragraph :=
  {| id := pid;
     originalCharCount := Z.of_nat (length (concat (text <$> rs)));
     runs := rs;
     paragraphFormat := None |}.

Definition sampleSettings (keep : bool) (m : Mode) : Settings :=
  {| apiKey := js "sk-test"; fromLang := js "auto"; toLang := js "fr";
     scope := ScopeAll; mode := m; keepLineBreaks := keep;
     fitToLength := false; fitStrength := 60%float; glossary := [];
     ignoreRegex := js ""; applyUnderline := true |}.

Definition helloWorldParagraphs : list Paragraph :=
  [ sampleParagraph (js "s0_shape2_p0") [boldRun (js "Hel"); plainRun (js "lo")];
    sampleParagraph (js "s0_shape2_p1") [plainRun (js "World")];
    sampleParagraph (js "s0_shape2_p2") [plainRun (js "!")] ].

(** The total of [originalChars] over a chunk. *)
Definition totalChars `{HasOriginalChars T} (chunk : list T) : Z :=
  foldr (fun item acc => (originalCharsOf item + acc)%Z) 0%Z chunk.

(** The texts held by the state of a merging loop: the runs already pushed,
    then the run being built. *)
Definition scanTexts (st : list Run * option (FontSnapshot * jsstring)) : jsstring :=
  concat (text <$> st.1) ++ match st.2 with Some (_, t) => t | None => [] end.

Definition mergeTexts (st : list Run * option Run) : jsstring :=
  concat (text <$> st.1) ++ match st.2 with Some l => text l | None => [] end.

(** What holds of every chunk [chunkByChars] produces: it is not empty, it
    has at most [maxItems] items, and its total is within [maxChars] unless
    it is a single item (which cannot be split). *)
Definition goodChunk `{HasOriginalChars T} (maxChars maxItems : Z)
    (chunk : list T) : Prop :=
  chunk <> [] /\ (Z.of_nat (length chunk) <= maxItems)%Z /\
  ((totalChars chunk <= maxChars)%Z \/ length chunk = 1).

(** The loop invariant of [chunkByChars] once the items [processed] have
    been read. *)
Definition chunkInv `{HasOriginalChars T} (maxChars maxItems : Z)
    (processed : list T) (st : list (list T) * list T * Z) : Prop :=
  let '(chunks, current, sum) := st in
  concat chunks ++ current = processed /\
  sum = totalChars current /\
  Forall (goodChunk maxChars maxItems) chunks /\
  (Z.of_nat (length current) <= maxItems)%Z /\
  ((sum <= maxChars)%Z \/ length current <= 1).

(** A paragraph of 15,000 characters in one run, as one translation item. *)
Definition longItem : TranslateBatchItem :=
  {| item_paragraphId := js "s0_shape2_p0";
     originalChars := 15000;
     item_runs := [{| index := 0; itext := repeat 97%N (Z.to_nat 15000) |}] |}.

(** ** services/openai.ts: the outcome of one [translateBatch] call *)

(** The [OpenAIError]s of [translateBatch], and a rejected [fetch]. *)
Inductive BatchError :=
| ErrNoApiKey
| ErrNetwork
| ErrHttp (status : Z) (message : option jsstring)
| ErrEmptyOutput (status : Z)
| ErrUnparseable (status : Z) (out : jsstring)
| ErrUnexpectedJSON (status : Z).

(** What [extractOutputText] and [JSON.parse] make of the body of a
    successful response. *)
Inductive ModelOutput :=
| OutputEmpty
| OutputNotJSON (out : jsstring)
| OutputWithoutItems
| OutputItems (items : list TranslationResult).

(** What the provider answers to one request. *)
Inductive ProviderReply :=
| NetworkFailure
| HttpFailure (status : Z) (message : option jsstring)
| HttpOk (status : Z) (output : ModelOutput).

(** The part of [translateBatch] that follows [await fetch(...)]. *)
Definition translateBatchResult (reply : ProviderReply)
    : BatchError + list TranslationResult :=
  match reply with
  | NetworkFailure => inl ErrNetwork
  | HttpFailure status message => inl (ErrHttp status message)
  | HttpOk status OutputEmpty => inl (ErrEmptyOutput status)
  | HttpOk status (OutputNotJSON out) => inl (ErrUnparseable status out)
  | HttpOk status OutputWithoutItems => inl (ErrUnexpectedJSON status)
  | HttpOk status (OutputItems items) => inr items
  end.

(** ** services/ppt.ts: [translateChunks] *)

(** A worker of [translateChunks] between two events: suspended on the
    provider call for chunk [i], returned, or thrown. *)
Inductive WorkerState :=
| Awaiting (i : nat)
| Returned
| Thrown (e : BatchError).

(** The variables shared by the workers, and two records of what happened:
    [requests], the indices of the chunks sent to the provider, in the order
    they were sent, and [rejection], the first error thrown by a worker,
    the one [Promise.all] rejects with. *)
Record ChunkRun := {
  chunks : list (list TranslateBatchItem);
  cursor : nat;
  results : list TranslationResult;
  workers : list WorkerState;
  requests : list nat;
  rejection : option BatchError
}.

(** From [const i = cursor++] to the next suspension of a worker, over the
    chunks [rest] from index [i] on: past the end the worker returns;
    without an API key [translateBatch] throws before any request; for an
    empty chunk it returns the empty list without a request and the worker
    claims the next index at once; otherwise the request is sent and the
    worker waits for the reply. The result is the new cursor, the index of
    the request sent if any, and the state of the worker. *)
Fixpoint claimFrom (settings : Settings) (rest : list (list TranslateBatchItem))
    (i : nat) : nat * option nat * WorkerState :=
  match rest with
  | [] => (S i, None, Returned)
  | chunk :: rest' =>
      if isEmpty (apiKey settings) then (S i, None, Thrown ErrNoApiKey)
      else if isEmpty chunk then claimFrom settings rest' (S i)
      else (S i, Some i, Awaiting i)
  end.

(** Worker [w] at the head of its loop. *)
Definition workerLoop (settings : Settings) (aborted : bool) (w : nat)
    (run : ChunkRun) : ChunkRun :=
  if aborted
  then {| chunks := chunks run; cursor := cursor run; results := results run;
          workers := <[w := Returned]> (workers run);
          requests := requests run; rejection := rejection run |}
  else
    let '(next, sent, state) := claimFrom settings (drop (cursor run) (chunks run)) (cursor run) in
    {| chunks := chunks run; cursor := next; results := results run;
       workers := <[w := state]> (workers run);
       requests := requests run ++ match sent with Some i => [i] | None => [] end;
       rejection := match state, rejection run with
                    | Thrown e, None => Some e
                    | _, r => r
                    end |}.

Definition defaultConcurrency : nat := 3.

(** The call of [translateChunks] up to [await Promise.all(workers)]: the
    workers are created one after the other, and each runs to its first
    suspension when it is created. With no chunk there is no worker. *)
Definition startChunks (settings : Settings) (aborted : bool)
    (chunks : list (list TranslateBatchItem)) (concurrency : nat) : ChunkRun :=
  let count := Nat.min concurrency (length chunks) in
  foldl (fun run w => workerLoop settings aborted w run)
        {| chunks := chunks; cursor := 0; results := [];
           workers := replicate count Returned; requests := []; rejection := None |}
        (seq 0 count).

(** The reply to the request of worker [w] arrives: [translateBatch]
    returns or throws, the worker pushes the results and is back at the head
    of its loop, or throws in its turn. A reply for a worker that is not
    waiting changes nothing. *)
Definition workerResume (settings : Settings) (aborted : bool) (w : nat)
    (reply : ProviderReply) (run : ChunkRun) : ChunkRun :=
  match workers run !! w with
  | Some (Awaiting i) =>
      match translateBatchResult reply with
      | inl e =>
          {| chunks := chunks run; cursor := cursor run; results := results run;
             workers := <[w := Thrown e]> (workers run);
             requests := requests run;
             rejection := match rejection run with None => Some e | r => r end |}
      | inr res =>
          workerLoop settings aborted w
            {| chunks := chunks run; cursor := cursor run;
               results := results run ++ res;
               workers := workers run; requests := requests run;
               rejection := rejection run |}
      end
  | _ => run
  end.

(** [await Promise.all(workers)]: rejected with the first error thrown,
    resolved once every worker has returned, pending otherwise. *)
Inductive Settled :=
| StillPending
| RejectedWith (e : BatchError)
| ResolvedWith (results : list TranslationResult).

Definition hasReturned (st : WorkerState) : bool :=
  match st with Returned => true | _ => false end.

Definition settle (run : ChunkRun) : Settled :=
  match rejection run with
  | Some e => RejectedWith e
  | None => if forallb hasReturned (workers run)
            then ResolvedWith (results run)
            else StillPending
  end.

(** ** services/ppt.ts: one slide *)

Definition shapeKey (shapeId : jsstring) (groupPath : list jsstring) : jsstring :=
  if isEmpty groupPath then shapeId
  else join (js "::") groupPath ++ js "::" ++ shapeId.

(** The session cache: fingerprint to [translatedRuns]. *)
Abbreviation Cache := (gmap jsstring (list IndexedText)).

(** The locals of [translateAndMaybeApplySlide] that the first loop fills. *)
Record Dedupe := {
  pending : list TranslateBatchItem;
  keyToIds : gmap jsstring (list jsstring);
  idToKey : gmap jsstring jsstring;
  allResults : list TranslationResult
}.

(** The body of the first loop: a cached fingerprint gives its result at
    once; a fingerprint already pending only adds the paragraph id to the
    ids waiting for it; a new one is queued. *)
Definition dedupeStep (cache : Cache) (d : Dedupe) (item : TranslateBatchItem) : Dedupe :=
  let key := translateKey item in
  match cache !! key with
  | Some cached =>
      {| pending := pending d; keyToIds := keyToIds d; idToKey := idToKey d;
         allResults := allResults d
           ++ [{| paragraphId := item_paragraphId item; translatedRuns := cached |}] |}
  | None =>
      match keyToIds d !! key with
      | Some ids =>
          {| pending := pending d;
             keyToIds := <[key := ids ++ [item_paragraphId item]]> (keyToIds d);
             idToKey := idToKey d; allResults := allResults d |}
      | None =>
          {| pending := pending d ++ [item];
             keyToIds := <[key := [item_paragraphId item]]> (keyToIds d);
             idToKey := <[item_paragraphId item := key]> (idToKey d);
             allResults := allResults d |}
      end
  end.

Definition dedupe (cache : Cache) (items : list TranslateBatchItem) : Dedupe :=
  foldl (dedupeStep cache)
        {| pending := []; keyToIds := ∅; idToKey := ∅; allResults := [] |} items.

(** The body of the loop over the results of [translateChunks]; the state
    is the cache and [allResults]. *)
Definition fanOutStep (d : Dedupe) (st : Cache * list TranslationResult)
    (r : TranslationResult) : Cache * list TranslationResult :=
  match idToKey d !! paragraphId r with
  | None => st
  | Some key =>
      if isEmpty key then st
      else (<[key := translatedRuns r]> st.1,
            st.2 ++ ((fun id => {| paragraphId := id; translatedRuns := translatedRuns r |})
                       <$> default [] (keyToIds d !! key)))
  end.

Definition fanOut (d : Dedupe) (cache : Cache) (translated : list TranslationResult)
    : Cache * list TranslationResult :=
  foldl (fanOutStep d) (cache, allResults d) translated.

(** [for (const r of allResults) map.set(r.paragraphId, r)]. *)
Definition resultMap (allResults : list TranslationResult)
    : gmap jsstring TranslationResult :=
  mapOfEntries ((fun r => (paragraphId r, r)) <$> allResults).

(** The preview: the first three translated paragraphs that are not blank,
    separated by an empty line. *)
Definition previewOf (targets : SlideTargets)
    (map : gmap jsstring TranslationResult) : jsstring :=
  let parts :=
    st ← shapeTextTargets targets;
    p ← paragraphs st;
    match map !! id p with
    | None => []
    | Some tr =>
        let applied := applyRunTranslations p (translatedRuns tr) in
        let text := paragraphText applied in
        if isEmpty (trim text) then [] else [text]
    end in
  join [10%N; 10%N] (take 3 parts).

(** What [applySlideTranslations] queues for the host. *)
Inductive Write :=
| WriteText (shape : jsstring) (composed : Composed)
| WriteCell (shape : jsstring) (row col : Z) (textRuns : list TableRunSnapshot).

Definition updatedParagraphs (translationMap : gmap jsstring TranslationResult)
    (st : ShapeTextTarget) : list Paragraph :=
  (fun p => match translationMap !! id p with
            | Some r => applyRunTranslations p (translatedRuns r)
            | None => p
            end) <$> paragraphs st.

Definition newTextRuns (tr : TranslationResult) (tc : TableCellTarget)
    : list TableRunSnapshot :=
  let runMap := mapOfEntries ((fun r => (index r, itext r)) <$> translatedRuns tr) in
  mapi (fun r idx => {| tr_text := default (tr_text r) (runMap !! Z.of_nat idx);
                        tr_font := tr_font r |})
       (tc_runs tc).

(** [hostHasText] tells whether the shape still has a text frame with text
    when the translations are applied. *)
Definition applySlideTranslations (hostHasText : ShapeTextTarget -> bool)
    (targets : SlideTargets) (translationMap : gmap jsstring TranslationResult)
    (settings : Settings) : list Write :=
  (st ← shapeTextTargets targets;
   if hostHasText st
   then [WriteText (shapeKey (st_shapeId st) (st_groupPath st))
                   (composeText (updatedParagraphs translationMap st) settings)]
   else [])
  ++
  (tc ← tableCellTargets targets;
   match translationMap !! tc_paragraphId tc with
   | None => []
   | Some tr => [WriteCell (shapeKey (tc_shapeId tc) (tc_groupPath tc)) (row tc) (col tc)
                           (newTextRuns tr tc)]
   end).

(** ** services/ppt.ts: [translateScope] as a transition system *)

(** The labels of [onProgress]. *)
Inductive Label :=
| LabelExtraction (slide : Z) (total : nat)
| LabelNothing (slide : Z)
| LabelTranslation (slide : Z) (total : nat)
| LabelSlideDone (slide : Z)
| LabelCancelled
| LabelCompleted.

(** Where [translateScope] is suspended, or how it ended. *)
Inductive Phase :=
| Starting
| Extracting (i : nat)
| Translating (i : nat) (targets : SlideTargets) (d : Dedupe) (run : ChunkRun)
| Applying (i : nat) (targets : SlideTargets) (translated : nat)
| Completed (translated : nat) (preview : jsstring)
| Failed (e : BatchError) (run : ChunkRun).

(** The state of one [translateScope] invocation. Besides the variables of
    the code it records what the invocation did: the [onProgress] calls, the
    slides whose extraction was started, the chunks sent for the slides
    already translated, the mapping built for each slide and the writes
    queued for it. *)
Record ScopeState := {
  aborted : bool;
  phase : Phase;
  cache : Cache;
  translatedTotal : nat;
  preview : jsstring;
  progress : list (nat * nat * Label);
  extracted : list nat;
  sent : list (list TranslateBatchItem);
  mappings : list (Z * gmap jsstring TranslationResult);
  written : list (Z * list Write)
}.

(** What happens between two turns of the code. *)
Inductive Event :=
| EvAbort
| EvHost
| EvProvider (worker : nat) (reply : ProviderReply).

Definition requestedChunks (run : ChunkRun) : list (list TranslateBatchItem) :=
  omap (fun i => chunks run !! i) (requests run).

(** Every chunk sent to the provider so far. *)
Definition requestsSent (s : ScopeState) : list (list TranslateBatchItem) :=
  sent s ++ match phase s with
            | Translating _ _ _ run | Failed _ run => requestedChunks run
            | _ => []
            end.

Definition setAborted (s : ScopeState) : ScopeState :=
  {| aborted := true; phase := phase s; cache := cache s;
     translatedTotal := translatedTotal s; preview := preview s;
     progress := progress s; extracted := extracted s; sent := sent s;
     mappings := mappings s; written := written s |}.

Definition setPhase (p : Phase) (s : ScopeState) : ScopeState :=
  {| aborted := aborted s; phase := p; cache := cache s;
     translatedTotal := translatedTotal s; preview := preview s;
     progress := progress s; extracted := extracted s; sent := sent s;
     mappings := mappings s; written := written s |}.

(** [onProgress(done, total, label)]. *)
Definition onProgress (done total : nat) (label : Label) (s : ScopeState) : ScopeState :=
  {| aborted := aborted s; phase := phase s; cache := cache s;
     translatedTotal := translatedTotal s; preview := preview s;
     progress := progress s ++ [(done, total, label)];
     extracted := extracted s; sent := sent s;
     mappings := mappings s; written := written s |}.

Definition startExtraction (i : nat) (s : ScopeState) : ScopeState :=
  {| aborted := aborted s; phase := Extracting i; cache := cache s;
     translatedTotal := translatedTotal s; preview := preview s;
     progress := progress s; extracted := extracted s ++ [i]; sent := sent s;
     mappings := mappings s; written := written s |}.

Definition addSent (requested : list (list TranslateBatchItem)) (s : ScopeState)
    : ScopeState :=
  {| aborted := aborted s; phase := phase s; cache := cache s;
     translatedTotal := translatedTotal s; preview := preview s;
     progress := progress s; extracted := extracted s; sent := sent s ++ requested;
     mappings := mappings s; written := written s |}.

Definition recordMapping (cache' : Cache) (slide : Z)
    (map : gmap jsstring TranslationResult) (s : ScopeState) : ScopeState :=
  {| aborted := aborted s; phase := phase s; cache := cache';
     translatedTotal := translatedTotal s; preview := preview s;
     progress := progress s; extracted := extracted s; sent := sent s;
     mappings := mappings s ++ [(slide, map)]; written := written s |}.

Definition startApplying (i : nat) (targets : SlideTargets) (translated : nat)
    (writes : list Write) (s : ScopeState) : ScopeState :=
  {| aborted := aborted s; phase := Applying i targets translated; cache := cache s;
     translatedTotal := translatedTotal s; preview := preview s;
     progress := progress s; extracted := extracted s; sent := sent s;
     mappings := mappings s; written := written s ++ [(slideIndex targets, writes)] |}.

(** [translatedTotal += res.translated; if (!preview && res.preview) ...]. *)
Definition addResult (translated : nat) (pv : jsstring) (s : ScopeState) : ScopeState :=
  {| aborted := aborted s; phase := phase s; cache := cache s;
     translatedTotal := translatedTotal s + translated;
     preview := if isEmpty (preview s) && negb (isEmpty pv) then pv else preview s;
     progress := progress s; extracted := extracted s; sent := sent s;
     mappings := mappings s; written := written s |}.

Section TranslateScope.
Variable settings : Settings.
Variable hostHasText : ShapeTextTarget -> bool.
(** [slides !! i] is what [extractSlideTargets(indices[i], ...)] returns. *)
Variable slides : list SlideTargets.

(** The end of [translateScope]: the last report and the return. *)
Definition finish (s : ScopeState) : ScopeState :=
  let total := length slides in
  let s := onProgress total total
             (if aborted s then LabelCancelled else LabelCompleted) s in
  setPhase (Completed (translatedTotal s) (preview s)) s.

(** The head of the loop of [translateScope] at position [i], up to the
    call of [extractSlideTargets]. *)
Definition slideLoop (i : nat) (s : ScopeState) : ScopeState :=
  match slides !! i with
  | None => finish s
  | Some targets =>
      if aborted s then finish s
      else startExtraction i
             (onProgress i (length slides)
                (LabelExtraction (slideIndex targets) (length slides)) s)
  end.

(** [translateAndMaybeApplySlide] has returned. *)
Definition slideReturned (i : nat) (targets : SlideTargets) (translated : nat)
    (pv : jsstring) (s : ScopeState) : ScopeState :=
  slideLoop (S i)
    (onProgress (S i) (length slides) (LabelSlideDone (slideIndex targets))
       (addResult translated pv s)).

(** [translateAndMaybeApplySlide] from the return of [translateChunks] on. *)
Definition chunksResolved (i : nat) (targets : SlideTargets) (d : Dedupe)
    (translated : list TranslationResult) (s : ScopeState) : ScopeState :=
  let '(cache', allResults') := fanOut d (cache s) translated in
  let map := resultMap allResults' in
  let s := recordMapping cache' (slideIndex targets) map s in
  match mode settings with
  | ModePreview => slideReturned i targets (base.size map) (previewOf targets map) s
  | ModeApply =>
      startApplying i targets (base.size map)
        (applySlideTranslations hostHasText targets map settings) s
  end.

(** After a turn of the workers: what [await Promise.all(workers)] does. *)
Definition chunksSettled (i : nat) (targets : SlideTargets) (d : Dedupe)
    (run : ChunkRun) (s : ScopeState) : ScopeState :=
  match settle run with
  | StillPending => setPhase (Translating i targets d run) s
  | RejectedWith e => setPhase (Failed e run) s
  | ResolvedWith translated =>
      chunksResolved i targets d translated (addSent (requestedChunks run) s)
  end.

(** [extractSlideTargets] has returned. *)
Definition slideExtracted (i : nat) (s : ScopeState) : ScopeState :=
  match slides !! i with
  | None => s
  | Some targets =>
      let total := length slides in
      let count := sum_list (length ∘ paragraphs <$> shapeTextTargets targets)
                   + length (tableCellTargets targets) in
      if count =? 0
      then slideLoop (S i) (onProgress (S i) total (LabelNothing (slideIndex targets)) s)
      else
        let s := onProgress i total (LabelTranslation (slideIndex targets) total) s in
        let items := buildTranslateItems targets in
        if isEmpty items then slideReturned i targets 0 [] s
        else
          let d := dedupe (cache s) items in
          let chunks := chunkByChars (pending d) defaultMaxChars defaultMaxItems in
          if isEmpty chunks then chunksResolved i targets d [] s
          else chunksSettled i targets d
                 (startChunks settings (aborted s) chunks defaultConcurrency) s
  end.

Definition scopeStep (s : ScopeState) (ev : Event) : ScopeState :=
  match ev with
  | EvAbort => setAborted s
  | EvHost =>
      match phase s with
      | Starting => slideLoop 0 s
      | Extracting i => slideExtracted i s
      | Applying i targets translated => slideReturned i targets translated [] s
      | _ => s
      end
  | EvProvider w reply =>
      match phase s with
      | Translating i targets d run =>
          chunksSettled i targets d (workerResume settings (aborted s) w reply run) s
      | Failed e run =>
          setPhase (Failed e (workerResume settings (aborted s) w reply run)) s
      | _ => s
      end
  end.

(** [translateScope] has been called and waits for [getSlideIndices]. *)
Definition initialScope : ScopeState :=
  {| aborted := false; phase := Starting; cache := ∅; translatedTotal := 0;
     preview := []; progress := []; extracted := []; sent := [];
     mappings := []; written := [] |}.

Definition runScope (events : list Event) : ScopeState :=
  foldl scopeStep initialScope events.
End TranslateScope.

Definition sampleShape (shapeId : jsstring) (ps : list Paragraph) : ShapeTextTarget :=
  {| st_shapeId := shapeId; st_shapeName := js "Title"; st_groupPath := [];
     st_shapePath := None; paragraphs := ps |}.

Definition sampleCell (pid : jsstring) (texts : list jsstring) : TableCellTarget :=
  {| tc_shapeId := js "7"; tc_shapeName := js "Table"; tc_groupPath := [];
     tc_shapePath := None; row := 0; col := 0; tc_paragraphId := pid;
     tc_originalChars := Z.of_nat (length (concat texts));
     tc_runs := (fun t => {| tr_text := t; tr_font := None |}) <$> texts |}.

Definition sampleSlide (idx : Z) (shapes : list ShapeTextTarget)
    (cells : list TableCellTarget) : SlideTargets :=
  {| slideIndex := idx; shapeTextTargets := shapes; tableCellTargets := cells |}.

(** A well-formed reply that translates run 0 of each given paragraph. *)
Definition okReply (answers : list (jsstring * jsstring)) : ProviderReply :=
  HttpOk 200 (OutputItems
    ((fun a => {| paragraphId := a.1;
                  translatedRuns := [{| index := 0; itext := a.2 |}] |}) <$> answers)).

(** The entries the second loop of [translateAndMaybeApplySlide] pushes for
    one result of [translateChunks]. *)
Definition fanEntries (d : Dedupe) (r : TranslationResult) : list TranslationResult :=
  match idToKey d !! paragraphId r with
  | None => []
  | Some key =>
      if isEmpty key then []
      else (fun id => {| paragraphId := id; translatedRuns := translatedRuns r |})
             <$> default [] (keyToIds d !! key)
  end.



(** The result of [translateScope] is still awaited. *)
Definition awaited (s : ScopeState) : bool :=
  match phase s with Completed _ _ => false | _ => true end.

(** A reply that arrived with a success status but whose payload is empty,
    is not JSON, or has no [items] array. *)
Definition malformed (reply : ProviderReply) : bool :=
  match reply with
  | HttpOk _ (OutputItems _) => false
  | HttpOk _ _ => true
  | _ => false
  end.

(** Nothing was applied, recorded, extracted or reported between [s] and
    [s']. *)
Definition nothingDone (s s' : ScopeState) : Prop :=
  written s' = written s /\ mappings s' = mappings s /\ extracted s' = extracted s /\
  progress s' = progress s /\ cache s' = cache s /\
  translatedTotal s' = translatedTotal s.

(** A paragraph of 7,000 characters in one run: two of them do not fit in
    one chunk. *)
Definition longParagraph (pid : jsstring) (c : N) : Paragraph :=
  sampleParagraph pid [plainRun (repeat c (Z.to_nat 7000))].


Definition twoChunkSlide : SlideTargets :=
  sampleSlide 0
    [sampleShape (js "2")
       [longParagraph (js "s0_shape2_p0") 97; longParagraph (js "s0_shape2_p1") 98]]
    [].

Definition smallSlide : SlideTargets :=
  sampleSlide 1 [sampleShape (js "3") [sampleParagraph (js "s1_shape3_p0") [plainRun (js "Hello")]]] [].

(** The paragraph ids of the chunks sent to the provider so far. *)
Definition sentIds (s : ScopeState) : list (list jsstring) :=
  (fun chunk : list TranslateBatchItem => item_paragraphId <$> chunk) <$> requestsSent s.

(** The text recorded for run 0 of paragraph [pid] in the mapping of the
    [n]-th translated slide. *)
Definition recordedText (s : ScopeState) (n : nat) (pid : jsstring) : option jsstring :=
  entry ← mappings s !! n;
  r ← entry.2 !! pid;
  t ← translatedRuns r !! 0;
  Some (itext t).

Definition failedWith (s : ScopeState) : option BatchError :=
  match phase s with Failed e _ => Some e | _ => None end.

(** The paragraph ids of the items with fingerprint [key], in order. *)
Definition idsWithKey (key : jsstring) (items : list TranslateBatchItem) : list jsstring :=
  item_paragraphId <$> filter (fun x => translateKey x = key) items.

(** The result an item gets from the cache, if its fingerprint is cached. *)
Definition cachedResult (cache : Cache) (x : TranslateBatchItem) : option TranslationResult :=
  (fun c => {| paragraphId := item_paragraphId x; translatedRuns := c |})
    <$> cache !! translateKey x.

(** The results of the provider for the fingerprint [key]. *)
Definition answersFor (d : Dedupe) (key : jsstring)
    (translated : list TranslationResult) : list TranslationResult :=
  filter (fun r => idToKey d !! paragraphId r = Some key) translated.

(** What the first loop of [translateAndMaybeApplySlide] has built once it
    has read [items]. *)
Definition dedupeInv (cache : Cache) (items : list TranslateBatchItem) (d : Dedupe) : Prop :=
  (forall k, keyToIds d !! k =
             match cache !! k with
             | Some _ => None
             | None => match idsWithKey k items with [] => None | ids => Some ids end
             end) /\
  (forall k, length (filter (fun x => translateKey x = k) (pending d)) =
             match keyToIds d !! k with Some _ => 1 | None => 0 end) /\
  (forall x, x ∈ pending d -> x ∈ items /\ cache !! translateKey x = None) /\
  allResults d = omap (cachedResult cache) items /\
  (forall pid k, idToKey d !! pid = Some k -> k <> []) /\
  (NoDup (item_paragraphId <$> items) ->
   forall x, x ∈ pending d -> idToKey d !! item_paragraphId x = Some (translateKey x)).

(** The states [translateChunks] can be in: after the workers were started,
    and after each reply. *)
Inductive reachableRun (settings : Settings) (chunks0 : list (list TranslateBatchItem))
    : ChunkRun -> Prop :=
| reachable_start aborted concurrency :
    reachableRun settings chunks0 (startChunks settings aborted chunks0 concurrency)
| reachable_resume run aborted w reply :
    reachableRun settings chunks0 run ->
    reachableRun settings chunks0 (workerResume settings aborted w reply run).

(** The indices sent are distinct, claimed and within the chunk list. *)
Definition requestsInv (run : ChunkRun) : Prop :=
  NoDup (requests run) /\
  Forall (fun i => i < cursor run /\ i < length (chunks run)) (requests run).

(** The states of a [translateChunks] whose signal is never aborted and
    which has at least one worker for a non-empty chunk list. *)
Inductive steadyRun (settings : Settings) (chunks0 : list (list TranslateBatchItem))
    : ChunkRun -> Prop :=
| steady_start concurrency :
    0 < concurrency ->
    steadyRun settings chunks0 (startChunks settings false chunks0 concurrency)
| steady_resume run w reply :
    steadyRun settings chunks0 run ->
    steadyRun settings chunks0 (workerResume settings false w reply run).

(** The indices, counted from [from], of the chunks of [l] that are not
    empty. *)
Fixpoint nonEmptyIndices {A} (from : nat) (l : list (list A)) : list nat :=
  match l with
  | [] => []
  | chunk :: l' =>
      if isEmpty chunk then nonEmptyIndices (S from) l'
      else from :: nonEmptyIndices (S from) l'
  end.

(** With an API key and no abort: the requests sent are those for the
    non-empty chunks below the cursor, in order; the first [k] workers have
    run, and one that has returned found the cursor past the end. *)
Definition steadyInv (chunks0 : list (list TranslateBatchItem)) (k : nat)
    (run : ChunkRun) : Prop :=
  chunks run = chunks0 /\
  requests run = nonEmptyIndices 0 (take (cursor run) chunks0) /\
  forall w, w < k -> workers run !! w = Some Returned -> length chunks0 < cursor run.

Definition sampleItems : list TranslateBatchItem :=
  buildTranslateItems
    (sampleSlide 0
       [sampleShape (js "2")
          [sampleParagraph (js "s0_shape2_p0") [plainRun (js "Hello")];
           sampleParagraph (js "s0_shape2_p1") [plainRun (js "Hello")];
           sampleParagraph (js "s0_shape2_p2") [plainRun (js "World")]]]
       []).

(** The paragraph ids of a slide: those of the paragraphs of its shapes,
    then those of its table cells. *)
Definition targetIds (targets : SlideTargets) : list jsstring :=
  (id <$> (shapeTextTargets targets ≫= paragraphs))
  ++ (tc_paragraphId <$> tableCellTargets targets).

Definition mixedSlide : SlideTargets :=
  sampleSlide 0
    [sampleShape (js "2")
       [sampleParagraph (js "s0_shape2_p0") [plainRun (js "Growth: "); boldRun (js "42%")];
        sampleParagraph (js "s0_shape2_p1") [plainRun (js "   ")]]]
    [sampleCell (js "s0_shape7_cell0_0") [js "Total "; js "42%"];
     sampleCell (js "s0_shape7_cell0_1") [js "(1)"; js " 2024"]].

(** ** Vocabulary of the further properties *)

(** The chunk [c1] was closed for a reason: it was full, or the first item
    of the next chunk [c2] did not fit in it. *)
Definition closedForCause `{HasOriginalChars T} (maxChars maxItems : Z)
    (c1 c2 : list T) : Prop :=
  match c2 with
  | [] => False
  | x :: _ => (maxItems <= Z.of_nat (length c1))%Z
              \/ (maxChars < totalChars c1 + originalCharsOf x)%Z
  end.

Fixpoint greedyChain `{HasOriginalChars T} (maxChars maxItems : Z)
    (chunks : list (list T)) : Prop :=
  match chunks with
  | c1 :: rest =>
      match rest with
      | c2 :: _ => closedForCause maxChars maxItems c1 c2
                   /\ greedyChain maxChars maxItems rest
      | [] => True
      end
  | [] => True
  end.

(** The loop invariant of [chunkByChars] for the closing of chunks. *)
Definition greedyInv `{HasOriginalChars T} (maxChars maxItems : Z)
    (st : list (list T) * list T * Z) : Prop :=
  let '(chunks, current, sum) := st in
  sum = totalChars current /\
  match current with
  | [] => chunks = []
  | _ :: _ => greedyChain maxChars maxItems (chunks ++ [current])
  end.

(** *** Reading a quoted string back *)

(** The value of a lowercase hexadecimal digit. *)
Definition unhex (h : N) : N := (if h <? 58 then h - 48 else h - 87)%N.

(** The code unit a two-character escape stands for. *)
Definition unescape (x : N) : N :=
  if (x =? 98)%N then 8%N
  else if (x =? 116)%N then 9%N
  else if (x =? 110)%N then 10%N
  else if (x =? 102)%N then 12%N
  else if (x =? 114)%N then 13%N
  else x.

Definition prepend (c : N) (r : option (jsstring * jsstring)) : option (jsstring * jsstring) :=
  match r with
  | Some (s, rest) => Some (c :: s, rest)
  | None => None
  end.

(** A reader for what [quoteJSONBody] writes: it reads up to the closing
    quote and gives the string read and what follows the quote. It serves to
    show that quoting loses nothing. *)
Fixpoint unquoteJSONBody (s : jsstring) : option (jsstring * jsstring) :=
  match s with
  | [] => None
  | c :: r =>
      if (c =? 34)%N then Some ([], r)
      else if (c =? 92)%N then
        match r with
        | [] => None
        | x :: r' =>
            if (x =? 117)%N then
              match r' with
              | h1 :: h2 :: h3 :: h4 :: r'' =>
                  prepend (4096 * unhex h1 + 256 * unhex h2 + 16 * unhex h3 + unhex h4)%N
                          (unquoteJSONBody r'')
              | _ => None
              end
            else prepend (unescape x) (unquoteJSONBody r')
        end
      else prepend c (unquoteJSONBody r)
  end.

(** ** utils/text.ts: [parseGlossaryText] *)

Definition pushHead (c : N) (ls : list jsstring) : list jsstring :=
  match ls with
  | l :: rest => (c :: l) :: rest
  | [] => [[c]]
  end.

(** [s.split(/\r?\n/)]: the text is cut at every line feed, and a carriage
    return that stands just before the line feed goes with it. *)
Fixpoint splitLines (s : jsstring) : list jsstring :=
  match s with
  | [] => [[]]
  | c :: r =>
      if (c =? 10)%N then [] :: splitLines r
      else match r with
           | d :: r' =>
               if (c =? 13)%N && (d =? 10)%N then [] :: splitLines r'
               else pushHead c (splitLines r)
           | [] => pushHead c (splitLines r)
           end
  end.

(** [s.indexOf(c)] for a single code unit, [None] standing for [-1]. *)
Fixpoint indexOf (c : N) (s : jsstring) : option nat :=
  match s with
  | [] => None
  | x :: r => if (x =? c)%N then Some 0 else S <$> indexOf c r
  end.

(** A glossary, [Record<string, string>]: a JavaScript object used as a map
    from source term to target term. *)
Abbreviation Glossary := (gmap jsstring jsstring).

(** [out[k] = v] on an ordinary object and for a string [v]: an own property
    is created or updated, except for the key [__proto__], whose inherited
    setter ignores a value that is neither an object nor [null]. *)
Definition setProperty (k v : jsstring) (out : Glossary) : Glossary :=
  if bool_decide (k = js "__proto__") then out else <[k := v]> out.

(** The body of the loop of [parseGlossaryText]. *)
Definition parseGlossaryLine (out : Glossary) (line : jsstring) : Glossary :=
  match indexOf 61 line with
  | None => out
  | Some 0 => out
  | Some idx =>
      let k := trim (slice 0 idx line) in
      let v := trim (drop (idx + 1) line) in
      if isEmpty k || isEmpty v then out else setProperty k v out
  end.

Definition parseGlossaryText (input : jsstring) : Glossary :=
  let lines := filter (fun l => isEmpty l = false) (trim <$> splitLines input) in
  foldl parseGlossaryLine ∅ lines.

(** taskpane/taskpane.ts, [writeUI]: the glossary shown as text,
    [Object.keys(g).map((k) => `${k}=${g[k]}`).join("\n")]; [entries] are the
    properties of the object in the order [Object.keys] gives them. *)
Definition glossaryText (entries : list (jsstring * jsstring)) : jsstring :=
  join [10%N] ((fun kv => kv.1 ++ [61%N] ++ kv.2) <$> entries).

(** A glossary entry as [parseGlossaryText] stores it. *)
Definition cleanEntry (kv : jsstring * jsstring) : Prop :=
  kv.1 <> [] /\ kv.2 <> [] /\ trim kv.1 = kv.1 /\ trim kv.2 = kv.2 /\
  (61%N ∉ kv.1) /\ (10%N ∉ kv.1) /\ (10%N ∉ kv.2) /\ kv.1 <> js "__proto__".

(** The entry [(k, v)] is read from a line of [input]: [k] and [v] are what
    stands on either side of the first [=] of the line, without the
    whitespace around them. *)
Definition readFromLine (input : jsstring) (kv : jsstring * jsstring) : Prop :=
  exists line pre post,
    line ∈ splitLines input /\ trim line = pre ++ 61%N :: post /\ (61%N ∉ pre) /\
    kv.1 = trim pre /\ kv.2 = trim post.

(** ** services/openai.ts: reading the response *)

(** A value as [JSON.parse] and [res.json()] build it. An object is the list
    of its members as written; when a key is written twice the last member
    is the property. *)
#[warnings="-register-all"]
Inductive JSONValue :=
| JNull
| JBool (b : bool)
| JNumber (n : number)
| JString (s : jsstring)
| JArray (items : list JSONValue)
| JObject (members : list (jsstring * JSONValue)).

(** [v?.key] for one of the keys read here ([output], [type], [content],
    [text], [items], [error], [message]), none of which is a property of the
    prototype of a string, a number, a boolean, an array or an object: the
    property of an object, [None] (for [undefined]) on anything else. *)
Definition getProp (key : jsstring) (v : JSONValue) : option JSONValue :=
  match v with
  | JObject members => snd <$> last (filter (fun kv => kv.1 = key) members)
  | _ => None
  end.

Definition isStringValue (s : jsstring) (v : option JSONValue) : bool :=
  match v with
  | Some (JString t) => bool_decide (t = s)
  | _ => false
  end.

(** The texts one element of [content] contributes. *)
Definition partText (c : JSONValue) : list jsstring :=
  if isStringValue (js "output_text") (getProp (js "type") c)
  then match getProp (js "text") c with
       | Some (JString t) => [t]
       | _ => []
       end
  else [].

(** The texts one element of [output] contributes. *)
Definition itemTexts (item : JSONValue) : list jsstring :=
  if isStringValue (js "message") (getProp (js "type") item)
  then match getProp (js "content") item with
       | Some (JArray contents) => contents ≫= partText
       | _ => []
       end
  else [].

Definition outputTexts (resp : JSONValue) : list jsstring :=
  match getProp (js "output") resp with
  | Some (JArray outputs) => outputs ≫= itemTexts
  | _ => []
  end.

Definition extractOutputText (resp : JSONValue) : jsstring :=
  trim (join [10%N] (outputTexts resp)).

(** What [fetch] resolved with: [res.ok], [res.status] and the body read by
    [res.json()], [None] when the body is not JSON. *)
Record HttpResponse := {
  res_ok : bool;
  res_status : Z;
  res_body : option JSONValue
}.

(** [if (v)]: the values JavaScript takes for true. *)
Definition truthy (v : JSONValue) : bool :=
  match v with
  | JNull => false
  | JBool b => b
  | JNumber n => negb (PrimFloat.eqb n 0%float) && PrimFloat.eqb n n
  | JString s => negb (isEmpty s)
  | JArray _ | JObject _ => true
  end.

(** How [translateBatch] ends once the response has arrived: one of its four
    [OpenAIError]s, or the array [parsed.items]. The message of the first
    error is [json?.error?.message] when that is true, the fixed text
    otherwise. *)
Inductive ReadOutcome :=
| ReadHttpError (status : Z) (message : option JSONValue)
| ReadEmptyOutput (status : Z)
| ReadUnparseable (status : Z) (out : jsstring)
| ReadUnexpected (status : Z)
| ReadItems (items : list JSONValue).

Section ReadResponse.
(** [JSON.parse] on the output text, [None] when it throws. *)
Variable parseJSON : jsstring -> option JSONValue.

(** [translateBatch] from [await res.json()] on. The elements of [items] are
    returned as they are: the code casts them and checks nothing. *)
Definition readResponse (res : HttpResponse) : ReadOutcome :=
  let json := default (JObject []) (res_body res) in
  if negb (res_ok res) then
    ReadHttpError (res_status res)
      (match getProp (js "error") json ≫= getProp (js "message") with
       | Some m => if truthy m then Some m else None
       | None => None
       end)
  else
    let out := extractOutputText json in
    if isEmpty out then ReadEmptyOutput (res_status res)
    else match parseJSON out with
         | None => ReadUnparseable (res_status res) out
         | Some parsed =>
             match getProp (js "items") parsed with
             | Some (JArray items) => ReadItems items
             | _ => ReadUnexpected (res_status res)
             end
         end.
End ReadResponse.

(** A response body with one message that holds the given text parts. *)
Definition messageBody (texts : list jsstring) : JSONValue :=
  JObject [(js "id", JString (js "resp_1"));
           (js "output",
            JArray [JObject [(js "type", JString (js "reasoning"))];
                    JObject [(js "type", JString (js "message"));
                             (js "content",
                              JArray ((fun t => JObject [(js "type", JString (js "output_text"));
                                                         (js "text", JString t)]) <$> texts))]])].

(** ** services/formatting.ts: [extractShapeTextParagraphs] *)

(** [s.split(sep)] for a separator of one code unit. *)
Fixpoint splitOn (sep : N) (s : jsstring) : list jsstring :=
  match s with
  | [] => [[]]
  | c :: r => if (c =? sep)%N then [] :: splitOn sep r else pushHead c (splitOn sep r)
  end.

(** [String(n)] for an integer: the decimal numeral (the indices written
    into the ids are far below 10^21, where JavaScript changes notation). *)
Definition decimal `{Pretty A} (n : A) : jsstring := js (pretty n).

(** [`s${slideIndex}_shape${shapeId}_p${p}`]. *)
Definition paragraphIdOf (slideIndex : Z) (shapeId : jsstring) (p : nat) : jsstring :=
  js "s" ++ decimal slideIndex ++ js "_shape" ++ shapeId ++ js "_p" ++ decimal p.

Section ShapeTextParagraphs.
Variable numberToString : number -> jsstring.
(** The host probes on the text range of the shape: the font of
    [getSubstring(start, length)], and what [extractParagraphFormat] returns
    for it. *)
Variable hostFont : nat -> nat -> ShapeFont.
Variable hostParagraphFormat : nat -> nat -> option ParagraphFormatSnapshot.
Variable slideIndex : Z.
Variable shapeId : jsstring.

(** The body of the loop over the paragraphs; the state is [(out, cursor)]. *)
Definition paragraphStep (count : nat) (st : list Paragraph * nat)
    (ip : nat * jsstring) : list Paragraph * nat :=
  let '(out, cursor) := st in
  let '(p, pText) := ip in
  let pStart := cursor in
  (out ++ [{| id := paragraphIdOf slideIndex shapeId p;
              originalCharCount := Z.of_nat (length pText);
              runs := extractRunsByFont numberToString hostFont pStart pText;
              paragraphFormat := hostParagraphFormat pStart (length pText) |}],
   cursor + length pText + (if p <? count - 1 then 1 else 0)).

(** [hostText] is [textRange.text] as the host gives it, read only when no
    [knownText] is passed. *)
Definition extractShapeTextParagraphs (hostText : option jsstring)
    (knownText : option jsstring) : list Paragraph :=
  let text := match knownText with
              | Some t => t
              | None => default [] hostText
              end in
  if isEmpty text then []
  else
    let paras := splitOn 10 text in
    (foldl (paragraphStep (length paras)) ([], 0) (imap (fun p t => (p, t)) paras)).1.

(** The result of the loop in closed form, for the paragraph texts from
    index [i] on, the first of which starts at [off]. *)
Fixpoint paragraphsFrom (count i off : nat) (paras : list jsstring) : list Paragraph :=
  match paras with
  | [] => []
  | t :: rest =>
      {| id := paragraphIdOf slideIndex shapeId i;
         originalCharCount := Z.of_nat (length t);
         runs := extractRunsByFont numberToString hostFont off t;
         paragraphFormat := hostParagraphFormat off (length t) |}
      :: paragraphsFrom count (S i) (off + length t + (if i <? count - 1 then 1 else 0)) rest
  end.
End ShapeTextParagraphs.

(** The runs held by the state of a merging loop: those already pushed,
    then the one being built. *)
Definition scanRuns (st : list Run * option (FontSnapshot * jsstring)) : list Run :=
  st.1 ++ match st.2 with
          | Some (f, t) => [{| text := t; font := f |}]
          | None => []
          end.

Definition mergeRuns (st : list Run * option Run) : list Run :=
  st.1 ++ match st.2 with Some l => [l] | None => [] end.

(** Two runs that follow each other have different font keys. *)
Definition adjacentKeysDiffer (numberToString : number -> jsstring)
    (rs : list Run) : Prop :=
  forall k a b, rs !! k = Some a -> rs !! S k = Some b ->
                fontKey numberToString (font a) <> fontKey numberToString (font b).

(** Where run [k] starts in the text of the paragraph. *)
Definition runOffset (rs : list Run) (k : nat) : nat :=
  length (concat (text <$> take k rs)).

(** The font snapshot of the character at offset [i] of the paragraph. *)
Definition charFont (hostFont : nat -> nat -> ShapeFont) (paragraphStart i : nat)
    : FontSnapshot :=
  safeFontSnapshot (hostFont (paragraphStart + i) 1).

(** Every run is a non-empty stretch of characters that have the font key
    of its first character, whose font it bears. *)
Definition runsFollowFonts (numberToString : number -> jsstring)
    (hostFont : nat -> nat -> ShapeFont) (paragraphStart : nat) (rs : list Run) : Prop :=
  forall k r, rs !! k = Some r ->
    text r <> [] /\
    font r = charFont hostFont paragraphStart (runOffset rs k) /\
    forall i, i < length (text r) ->
      fontKey numberToString (charFont hostFont paragraphStart (runOffset rs k + i))
      = fontKey numberToString (font r).

(** The loop invariant of the character scan once [m] characters are read. *)
Definition scanInv (numberToString : number -> jsstring)
    (hostFont : nat -> nat -> ShapeFont) (paragraphStart m : nat)
    (st : list Run * option (FontSnapshot * jsstring)) : Prop :=
  length (concat (text <$> scanRuns st)) = m /\
  (st.2 = None -> st.1 = []) /\
  runsFollowFonts numberToString hostFont paragraphStart (scanRuns st) /\
  adjacentKeysDiffer numberToString (scanRuns st).

(** The loop invariant of the merging loop of the bisection. *)
Definition mergeInv (numberToString : number -> jsstring)
    (st : list Run * option Run) : Prop :=
  (st.2 = None -> st.1 = []) /\
  Forall (fun r => text r <> []) (mergeRuns st) /\
  adjacentKeysDiffer numberToString (mergeRuns st).

(** ** services/formatting.ts: what is queued on the new text *)

(** The assignments [queueFontRuns] makes on [getSubstring(start, length)]:
    the name and the size are assigned only when they are true (a name that
    is not empty, a size that is neither 0 nor NaN), the underline only when
    [settings.applyUnderline] is set. *)
Record FontRequest := {
  fr_start : nat;
  fr_length : nat;
  fr_allCaps : bool;
  fr_bold : bool;
  fr_color : jsstring;
  fr_doubleStrikethrough : bool;
  fr_italic : bool;
  fr_name : option jsstring;
  fr_size : option number;
  fr_smallCaps : bool;
  fr_strikethrough : bool;
  fr_subscript : bool;
  fr_superscript : bool;
  fr_underline : option jsstring
}.

Definition truthyNumber (n : number) : bool :=
  negb (PrimFloat.eqb n 0%float) && PrimFloat.eqb n n.

Definition fontRequest (settings : Settings) (run : Span FontSnapshot)
    : option FontRequest :=
  if len run =? 0 then None
  else
    let f := fmt run in
    Some {| fr_start := start run; fr_length := len run;
            fr_allCaps := allCaps f; fr_bold := bold f; fr_color := color f;
            fr_doubleStrikethrough := doubleStrikethrough f; fr_italic := italic f;
            fr_name := if isEmpty (name f) then None else Some (name f);
            fr_size := if truthyNumber (size f) then Some (size f) else None;
            fr_smallCaps := smallCaps f; fr_strikethrough := strikethrough f;
            fr_subscript := subscript f; fr_superscript := superscript f;
            fr_underline := if applyUnderline settings then Some (underline f) else None |}.

Definition queueFontRuns (runs : list (Span FontSnapshot)) (settings : Settings)
    : list FontRequest :=
  omap (fontRequest settings) runs.

(** The assignments [queueParagraphFormats] makes; the bullet type and
    style are assigned only when the host has API set 1.10 and the snapshot
    holds a value that is neither [undefined] nor [null]. *)
Record ParagraphRequest := {
  pr_start : nat;
  pr_length : nat;
  pr_horizontalAlignment : option jsstring;
  pr_indentLevel : option number;
  pr_bulletVisible : option bool;
  pr_bulletType : option jsstring;
  pr_bulletStyle : option jsstring
}.

Definition paragraphRequest (isApiSupported_1_10 : bool)
    (p : Span (option ParagraphFormatSnapshot)) : option ParagraphRequest :=
  match fmt p with
  | None => None
  | Some format =>
      Some {| pr_start := start p; pr_length := len p;
              pr_horizontalAlignment := horizontalAlignment format;
              pr_indentLevel := indentLevel format;
              pr_bulletVisible := bulletVisible format;
              pr_bulletType := if isApiSupported_1_10
                               then mjoin (bulletType format) else None;
              pr_bulletStyle := if isApiSupported_1_10
                                then mjoin (bulletStyle format) else None |}
  end.

Definition queueParagraphFormats (isApiSupported_1_10 : bool)
    (paragraphs : list (Span (option ParagraphFormatSnapshot))) : list ParagraphRequest :=
  omap (paragraphRequest isApiSupported_1_10) paragraphs.

(** The request [req] sets, on the stretch of [full] that reads [t], the
    font [f]. *)
Definition requestsFont (settings : Settings) (full : jsstring) (r : Run)
    (req : FontRequest) : Prop :=
  slice (fr_start req) (fr_start req + fr_length req) full = text r /\
  fr_allCaps req = allCaps (font r) /\ fr_bold req = bold (font r) /\
  fr_color req = color (font r) /\
  fr_doubleStrikethrough req = doubleStrikethrough (font r) /\
  fr_italic req = italic (font r) /\
  fr_name req = (if isEmpty (name (font r)) then None else Some (name (font r))) /\
  fr_size req = (if truthyNumber (size (font r)) then Some (size (font r)) else None) /\
  fr_smallCaps req = smallCaps (font r) /\ fr_strikethrough req = strikethrough (font r) /\
  fr_subscript req = subscript (font r) /\ fr_superscript req = superscript (font r) /\
  fr_underline req = (if applyUnderline settings then Some (underline (font r)) else None).

Definition requestsFormat (full : jsstring) (p : Paragraph) (req : ParagraphRequest)
    : Prop :=
  slice (pr_start req) (pr_start req + pr_length req) full = paragraphText p /\
  exists format,
    paragraphFormat p = Some format /\
    pr_horizontalAlignment req = horizontalAlignment format /\
    pr_indentLevel req = indentLevel format /\
    pr_bulletVisible req = bulletVisible format.

(** ** services/ppt.ts: the shapes of a slide *)

(** [tr.text], [tr.font] of a host text run of a table cell. *)
Record HostTextRun := { htr_text : option jsstring; htr_font : option ShapeFont }.

(** A table cell once loaded: [textRuns] when it is an array, and [text]. *)
Record HostCell := {
  cell_textRuns : option (list HostTextRun);
  cell_text : jsstring
}.

(** A table: [cellAt r c] is [None] when [getCellOrNullObject(r, c)] is the
    null object. *)
Record HostTable := {
  rowCount : nat;
  columnCount : nat;
  cellAt : nat -> nat -> option HostCell
}.

(** A text frame that is not the null object, with the probes on its text
    range. *)
Record HostTextFrame := {
  hasText : bool;
  frameText : option jsstring;
  frameFont : nat -> nat -> ShapeFont;
  frameFormat : nat -> nat -> option ParagraphFormatSnapshot
}.

(** A shape as the host gives it. For a group, the three collections are
    what loading [shape.group?.shapes], [shape.shapes] and
    [shape.groupItems] yields, empty when the property is missing or the
    load throws. *)
#[warnings="-register-all"]
Inductive HostShape :=
| GroupShape (shapeId : jsstring) (shapeName : option jsstring)
    (viaGroup viaShapes viaGroupItems : list HostShape)
| TableShape (shapeId : jsstring) (shapeName : option jsstring) (table : HostTable)
| OtherShape (shapeId : jsstring) (shapeName : option jsstring)
    (textFrame : option HostTextFrame).

Definition hostShapeId (shape : HostShape) : jsstring :=
  match shape with
  | GroupShape i _ _ _ _ | TableShape i _ _ | OtherShape i _ _ => i
  end.

(** [shape.name ?? ""]. *)
Definition hostShapeName (shape : HostShape) : jsstring :=
  match shape with
  | GroupShape _ n _ _ _ | TableShape _ n _ | OtherShape _ n _ => default [] n
  end.

Definition isGroup (shape : HostShape) : bool :=
  match shape with GroupShape _ _ _ _ _ => true | _ => false end.

(** [shapeLabel]. *)
Definition shapeLabel (shapeName shapeId : jsstring) (groupNamePath : list jsstring)
    : jsstring :=
  let base := if isEmpty shapeName then shapeId else shapeName in
  if isEmpty groupNamePath then base
  else join (js " / ") groupNamePath ++ js " / " ++ base.

(** [getGroupChildShapes]: the first collection that is not empty. *)
Definition getGroupChildShapes (viaGroup viaShapes viaGroupItems : list HostShape)
    : list HostShape :=
  match viaGroup with
  | _ :: _ => viaGroup
  | [] => match viaShapes with
          | _ :: _ => viaShapes
          | [] => viaGroupItems
          end
  end.

(** A call of the visitor: the shape, the ids of the groups around it and
    their names (or ids, for groups without a name), outermost first. *)
Record Visit := {
  visited : HostShape;
  groupPath : list jsstring;
  groupNamePath : list jsstring
}.

(** [ignore && ignore.test(shapeName)] for a compiled expression. *)
Definition ignores (ignore : option (jsstring -> bool)) (shapeName : jsstring) : bool :=
  match ignore with
  | Some test => test shapeName
  | None => false
  end.

(** [walkShapeItems] on one shape: the calls of the visitor, in order. *)
Fixpoint walkShape (ignore : option (jsstring -> bool))
    (groupPath groupNamePath : list jsstring) (shape : HostShape) : list Visit :=
  if ignores ignore (hostShapeName shape) then []
  else
    match shape with
    | GroupShape shapeId shapeName viaGroup viaShapes viaGroupItems =>
        let name := default [] shapeName in
        let nextGroupPath := groupPath ++ [shapeId] in
        let nextGroupNamePath :=
          groupNamePath ++ [if isEmpty name then shapeId else name] in
        (fix walkItems (items : list HostShape) : list Visit :=
           match items with
           | [] => []
           | child :: rest =>
               walkShape ignore nextGroupPath nextGroupNamePath child ++ walkItems rest
           end)
          (match viaGroup with
           | _ :: _ => viaGroup
           | [] => match viaShapes with
                   | _ :: _ => viaShapes
                   | [] => viaGroupItems
                   end
           end)
    | _ => [{| visited := shape; groupPath := groupPath; groupNamePath := groupNamePath |}]
    end.

Definition walkShapeItems (ignore : option (jsstring -> bool))
    (groupPath groupNamePath : list jsstring) (items : list HostShape) : list Visit :=
  items ≫= walkShape ignore groupPath groupNamePath.

(** [walkShapes] on the shapes of a slide as [loadShapesCollection] returns
    them. *)
Definition walkShapes (ignore : option (jsstring -> bool)) (slideShapes : list HostShape)
    : list Visit :=
  walkShapeItems ignore [] [] slideShapes.

Definition visitKey (v : Visit) : jsstring :=
  shapeKey (hostShapeId (visited v)) (groupPath v).

(** [buildShapeIndex]: every shape the walk reaches, under its key. *)
Definition buildShapeIndex (slideShapes : list HostShape) : gmap jsstring HostShape :=
  mapOfEntries ((fun v => (visitKey v, visited v)) <$> walkShapes None slideShapes).

(** [`s${slideIndex}_shape${shapeRef}_cell${r}_${c}`]. *)
Definition cellIdOf (slideIndex : Z) (shapeRef : jsstring) (r c : nat) : jsstring :=
  js "s" ++ decimal slideIndex ++ js "_shape" ++ shapeRef ++ js "_cell"
     ++ decimal r ++ js "_" ++ decimal c.

Section ExtractSlideTargets.
(** [new RegExp(p)] as a test on strings, [None] when the constructor
    throws; the matching itself is left to the engine. *)
Variable compileRegExp : jsstring -> option (jsstring -> bool).
Variable numberToString : number -> jsstring.

Definition compileIgnoreRegex (pattern : jsstring) : option (jsstring -> bool) :=
  let p := trim pattern in
  if isEmpty p then None else compileRegExp p.

(** The coordinates of the cells of a table, row after row. *)
Definition cellCoordinates (table : HostTable) : list (nat * nat) :=
  r ← seq 0 (rowCount table);
  (fun c => (r, c)) <$> seq 0 (columnCount table).

(** The target of one cell, if the cell is there and its text is not
    blank. *)
Definition cellTarget (slideIndex : Z) (v : Visit) (table : HostTable)
    (rc : nat * nat) : option TableCellTarget :=
  let shapeId := hostShapeId (visited v) in
  let shapeName := hostShapeName (visited v) in
  match cellAt table rc.1 rc.2 with
  | None => None
  | Some cell =>
      let text := cell_text cell in
      if isEmpty text || isEmpty (trim text) then None
      else
        let runSnapshots :=
          match cell_textRuns cell with
          | Some (tr :: trs) =>
              (fun tr => {| tr_text := default [] (htr_text tr); tr_font := htr_font tr |})
                <$> tr :: trs
          | _ => [{| tr_text := text; tr_font := None |}]
          end in
        Some {| tc_shapeId := shapeId; tc_shapeName := shapeName;
                tc_groupPath := groupPath v;
                tc_shapePath := Some (shapeLabel shapeName shapeId (groupNamePath v));
                row := Z.of_nat rc.1; col := Z.of_nat rc.2;
                tc_paragraphId := cellIdOf slideIndex (visitKey v) rc.1 rc.2;
                tc_originalChars := Z.of_nat (length text);
                tc_runs := runSnapshots |}
  end.

(** The visitor of [extractSlideTargets] on a shape that is not a table:
    the paragraphs are those of the fifth argument of
    [extractShapeTextParagraphs], which is [shapeName]. *)
Definition shapeTextTarget (slideIndex : Z) (v : Visit) (tf : HostTextFrame)
    : option ShapeTextTarget :=
  let shapeId := hostShapeId (visited v) in
  let shapeName := hostShapeName (visited v) in
  if negb (hasText tf) then None
  else
    let paragraphs :=
      extractShapeTextParagraphs numberToString (frameFont tf) (frameFormat tf)
        slideIndex (visitKey v) (frameText tf) (Some shapeName) in
    let useful :=
      existsb (fun p => existsb (fun r => 0 <? length (trim (text r))) (runs p)) paragraphs in
    if negb useful then None
    else Some {| st_shapeId := shapeId; st_shapeName := shapeName;
                 st_groupPath := groupPath v;
                 st_shapePath := Some (shapeLabel shapeName shapeId (groupNamePath v));
                 paragraphs := paragraphs |}.

Definition visitShapeTexts (slideIndex : Z) (v : Visit) : list ShapeTextTarget :=
  match visited v with
  | OtherShape _ _ (Some tf) => option_list (shapeTextTarget slideIndex v tf)
  | _ => []
  end.

Definition visitCells (slideIndex : Z) (v : Visit) : list TableCellTarget :=
  match visited v with
  | TableShape _ _ table => omap (cellTarget slideIndex v table) (cellCoordinates table)
  | _ => []
  end.

Definition extractSlideTargets (slideIndex : Z) (settings : Settings)
    (slideShapes : list HostShape) : SlideTargets :=
  let visits := walkShapes (compileIgnoreRegex (ignoreRegex settings)) slideShapes in
  {| slideIndex := slideIndex;
     shapeTextTargets := visits ≫= visitShapeTexts slideIndex;
     tableCellTargets := visits ≫= visitCells slideIndex |}.
End ExtractSlideTargets.

(** The form of every paragraph id: the slide, the key of the shape, an
    underscore and a tail that names the paragraph or the cell. *)
Definition blockId (slideIndex : Z) (key tail : jsstring) : jsstring :=
  js "s" ++ decimal slideIndex ++ js "_shape" ++ key ++ [95%N] ++ tail.

(** A slide as the host gives it: a title, a logo, and a group that holds a
    table and a shape without a name. *)
Definition sampleFrame : HostTextFrame :=
  {| hasText := true; frameText := Some (js "Quarterly results");
     frameFont := fun _ _ =>
       Build_ShapeFont (Some false) (Some false) (Some (js "#000000")) (Some false)
         (Some false) (Some (js "Arial")) (Some 18%float) (Some false) (Some false)
         (Some false) (Some false) (Some (js "None"));
     frameFormat := fun _ _ => None |}.

Definition sampleTable : HostTable :=
  {| rowCount := 1; columnCount := 3;
     cellAt := fun r c =>
       match c with
       | 0 => Some {| cell_textRuns := None; cell_text := js "Total" |}
       | 1 => Some {| cell_textRuns := Some []; cell_text := js "  " |}
       | _ => Some {| cell_textRuns :=
                        Some [{| htr_text := Some (js "42"); htr_font := None |};
                              {| htr_text := None; htr_font := None |}];
                      cell_text := js "42" |}
       end |}.

Definition sampleHostShapes : list HostShape :=
  [ OtherShape (js "2") (Some (js "Title")) (Some sampleFrame);
    OtherShape (js "3") (Some (js "Logo")) (Some sampleFrame);
    GroupShape (js "4") (Some (js "Group")) []
      [TableShape (js "5") (Some (js "Table")) sampleTable;
       OtherShape (js "6") None (Some sampleFrame)] [] ].

(** A stand-in for the engine: an expression matches the names equal to
    its source. *)
Definition sampleRegExp (pattern : jsstring) : option (jsstring -> bool) :=
  Some (fun s => bool_decide (s = pattern)).

Definition sampleIgnoreSettings : Settings :=
  {| apiKey := js "sk-test"; fromLang := js "auto"; toLang := js "fr";
     scope := ScopeCurrent; mode := ModeApply; keepLineBreaks := true;
     fitToLength := false; fitStrength := 60%float; glossary := [];
     ignoreRegex := js " Logo "; applyUnderline := true |}.

(** ** [translateScope]: what holds between two turns *)

Section ScopeInvariants.
Variable settings : Settings.
Variable hostHasText : ShapeTextTarget -> bool.
Variable slides : list SlideTargets.

(** The slide a suspended invocation works on is the one at the position of
    its loop, and the locals of [translateAndMaybeApplySlide] were filled
    from the items of that slide and the cache. *)
Definition phaseInv (s : ScopeState) : Prop :=
  match phase s with
  | Extracting i => is_Some (slides !! i)
  | Translating i targets d run =>
      slides !! i = Some targets /\ d = dedupe (cache s) (buildTranslateItems targets)
  | Applying i targets _ => slides !! i = Some targets
  | _ => True
  end.

(** The number of slides the loop has left behind. *)
Definition slidesPassed (p : Phase) : nat :=
  match p with
  | Starting => 0
  | Extracting i | Translating i _ _ _ | Applying i _ _ => i
  | Completed _ _ | Failed _ _ => length slides
  end.

Definition doneOf (report : nat * nat * Label) : nat := report.1.1.
Definition totalOf (report : nat * nat * Label) : nat := report.1.2.
Definition labelOf (report : nat * nat * Label) : Label := report.2.

Definition nondecreasing (l : list nat) : Prop :=
  forall j k a b, j <= k -> l !! j = Some a -> l !! k = Some b -> a <= b.

(** The last report of an invocation that has returned. *)
Definition finalReport (s : ScopeState) : Prop :=
  exists label, last (progress s) = Some (length slides, length slides, label) /\
                (label = LabelCancelled \/ label = LabelCompleted).

(** The reports made so far: every one gives the number of slides of the
    scope as total and at most [n] as done, and done never decreases. *)
Definition reportsUpTo (n : nat) (reports : list (nat * nat * Label)) : Prop :=
  Forall (fun report => totalOf report = length slides /\ doneOf report <= n) reports /\
  nondecreasing (doneOf <$> reports).

Definition progressInv (s : ScopeState) : Prop :=
  reportsUpTo (slidesPassed (phase s)) (progress s) /\
  (forall translated pv, phase s = Completed translated pv -> finalReport s).

(** The slides whose extraction was started are the first ones, in order. *)
Definition extractionInv (s : ScopeState) : Prop :=
  match phase s with
  | Starting => extracted s = []
  | Extracting i | Translating i _ _ _ | Applying i _ _ => extracted s = seq 0 (S i)
  | Completed _ _ =>
      (exists n, n <= length slides /\ extracted s = seq 0 n) /\
      (last (progress s) = Some (length slides, length slides, LabelCompleted) ->
       extracted s = seq 0 (length slides))
  | Failed _ _ => exists n, n <= length slides /\ extracted s = seq 0 n
  end.

(** The writes queued for the mapping [m] of a slide of the scope. *)
Definition writesOf (m : Z * gmap jsstring TranslationResult) (w : Z * list Write) : Prop :=
  exists targets, targets ∈ slides /\ m.1 = slideIndex targets /\
    w = (slideIndex targets, applySlideTranslations hostHasText targets m.2 settings).

Definition modeInv (s : ScopeState) : Prop :=
  match mode settings with
  | ModePreview => written s = [] /\ forall i targets n, phase s <> Applying i targets n
  | ModeApply => preview s = [] /\ Forall2 writesOf (mappings s) (written s)
  end.

(** The mapping [m] was built for a slide of the scope and has entries for
    paragraph ids of the items of that slide only. *)
Definition mappingOfSlide (m : Z * gmap jsstring TranslationResult) : Prop :=
  exists targets, targets ∈ slides /\ m.1 = slideIndex targets /\
    (forall pid, is_Some (m.2 !! pid) ->
                 pid ∈ item_paragraphId <$> buildTranslateItems targets) /\
    base.size m.2 <= length (buildTranslateItems targets).

Definition mappedCount (s : ScopeState) : nat :=
  sum_list ((fun m : Z * gmap jsstring TranslationResult => base.size m.2) <$> mappings s).

Definition countInv (s : ScopeState) : Prop :=
  translatedTotal s + match phase s with Applying _ _ n => n | _ => 0 end = mappedCount s /\
  Forall mappingOfSlide (mappings s) /\
  (forall translated pv, phase s = Completed translated pv ->
     translated = translatedTotal s /\ pv = preview s).

(** No request was sent to the provider. *)
Definition nothingSent (s : ScopeState) : Prop :=
  sent s = [] /\
  match phase s with
  | Translating _ _ _ run | Failed _ run => requests run = []
  | _ => True
  end.
End ScopeInvariants.

Definition noKeySettings : Settings :=
  {| apiKey := []; fromLang := js "auto"; toLang := js "fr";
     scope := ScopeAll; mode := ModeApply; keepLineBreaks := true;
     fitToLength := false; fitStrength := 60%float; glossary := [];
     ignoreRegex := []; applyUnderline := true |}.

(** ** Vocabulary of the claims on the whole invocation *)




(** The mappings an invocation has built, each with the slide it was built
    for. *)
Definition recordsOf (history : list (SlideTargets * gmap jsstring TranslationResult))
    : list (Z * gmap jsstring TranslationResult) :=
  (fun h => (slideIndex h.1, h.2)) <$> history.

(** The mapping [h.2] is the one [translateAndMaybeApplySlide] builds for
    the slide [h.1] of the scope, from some cache and some results. *)
Definition builtFor (slides : list SlideTargets)
    (h : SlideTargets * gmap jsstring TranslationResult) : Prop :=
  h.1 ∈ slides /\
  exists (cache0 : Cache) translated,
    h.2 = resultMap (fanOut (dedupe cache0 (buildTranslateItems h.1)) cache0 translated).2.

Definition itemIdsDistinct (targets : SlideTargets) : Prop :=
  NoDup (item_paragraphId <$> buildTranslateItems targets).

(** What the mappings built so far and the cache have to do with each
    other: a translation recorded for an item is in the cache under the
    fingerprint of the item, and every mapping built later gives the items
    with that fingerprint the same runs. *)
Definition historyInv (slides : list SlideTargets) (s : ScopeState)
    (history : list (SlideTargets * gmap jsstring TranslationResult)) : Prop :=
  mappings s = recordsOf history /\
  Forall (builtFor slides) history /\
  (forall n t m a ra,
     history !! n = Some (t, m) -> itemIdsDistinct t -> a ∈ buildTranslateItems t ->
     m !! item_paragraphId a = Some ra ->
     cache s !! translateKey a = Some (translatedRuns ra)) /\
  (forall n1 n2 t1 m1 t2 m2 a b ra,
     n1 <= n2 -> history !! n1 = Some (t1, m1) -> history !! n2 = Some (t2, m2) ->
     itemIdsDistinct t1 -> itemIdsDistinct t2 ->
     a ∈ buildTranslateItems t1 -> b ∈ buildTranslateItems t2 ->
     translateKey a = translateKey b ->
     m1 !! item_paragraphId a = Some ra ->
     translatedRuns <$> m2 !! item_paragraphId b = Some (translatedRuns ra)).

(** No item of the chunks of the slide being translated has its fingerprint
    in the cache. *)
Definition chunksUncached (s : ScopeState) : Prop :=
  match phase s with
  | Translating _ _ _ run | Failed _ run =>
      forall x, x ∈ concat (chunks run) -> cache s !! translateKey x = None
  | _ => True
  end.

(** The workers of the slide being translated were started on the chunks of
    its pending items. *)
Definition runInv (settings : Settings) (s : ScopeState) : Prop :=
  match phase s with
  | Translating _ _ d run =>
      reachableRun settings (chunkByChars (pending d) defaultMaxChars defaultMaxItems) run
  | _ => True
  end.

(** A slide with the paragraph [Hello], as [smallSlide] has. *)
Definition helloSlide : SlideTargets :=
  sampleSlide 0
    [sampleShape (js "2") [sampleParagraph (js "s0_shape2_p0") [plainRun (js "Hello")]]] [].




(* ===================================================================== *)
(** * Part II. Properties                                                 *)
(* ===================================================================== *)

Example isNonTranslatable_examples :
  isNonTranslatable (js "") = true /\ isNonTranslatable (js "   ") = true /\
  isNonTranslatable (js "42%") = true /\ isNonTranslatable (js "(c)") = false /\
  isNonTranslatable (js "Hello") = false.
Proof. vm_compute. repeat split. Qed.

(** ** Text utilities *)

Lemma longestPrefix_prefix cls s : longestPrefix cls s `prefix_of` s.
Proof.
  induction s as [|c s IH]; simpl; [done|].
  destruct (cls c); [by apply prefix_cons | apply prefix_nil].
Qed.

Lemma longestPrefix_all cls s : Forall (fun c => cls c = true) (longestPrefix cls s).
Proof.
  induction s as [|c s IH]; simpl; [constructor|].
  destruct (cls c) eqn:Hc; [by constructor | constructor].
Qed.

Lemma longestPrefix_maximal cls s p :
  p `prefix_of` s -> Forall (fun c => cls c = true) p ->
  length p <= length (longestPrefix cls s).
Proof.
  revert p. induction s as [|c s IH]; intros p Hp Hall.
  - apply prefix_nil_inv in Hp as ->. simpl. lia.
  - destruct p as [|d p]; simpl; [lia|].
    apply prefix_cons_inv_1 in Hp as Hd. subst d.
    apply prefix_cons_inv_2 in Hp.
    inversion Hall as [|? ? Hc Hall']; subst. rewrite Hc. simpl.
    specialize (IH p Hp Hall'). lia.
Qed.

Lemma matchLeadingPlus_default cls s :
  default [] (matchLeadingPlus cls s) = longestPrefix cls s.
Proof. unfold matchLeadingPlus. by destruct (longestPrefix cls s). Qed.

Lemma allIn_Forall (cls : N -> bool) s :
  allIn cls s = true <-> Forall (fun c => cls c = true) s.
Proof.
  induction s as [|c s IH]; cbn.
  - split; [constructor | done].
  - destruct (cls c) eqn:Hc.
    + rewrite IH. split; [by constructor | by inversion 1].
    + split; [done | inversion 1; congruence].
Qed.

Lemma matchTrailingPlus_spec cls s :
  let suf := default [] (matchTrailingPlus cls s) in
  suf `suffix_of` s /\ Forall (fun c => cls c = true) suf /\
  forall p, p `suffix_of` s -> Forall (fun c => cls c = true) p ->
            length p <= length suf.
Proof.
  induction s as [|c s IH].
  - simpl. split; [done|]. split; [constructor|].
    intros p Hp _. apply suffix_nil_inv in Hp as ->. simpl. lia.
  - cbn [matchTrailingPlus]. destruct (allIn cls (c :: s)) eqn:Hall.
    + cbn [default]. split; [done|]. split; [by apply allIn_Forall|].
      intros p Hp _. by apply suffix_length.
    + destruct IH as (Hsuf & Hcls & Hmax).
      split; [by apply suffix_cons_r|]. split; [done|].
      intros p Hp Hp_all. destruct p as [|d p]; [simpl; lia|].
      apply suffix_cons_inv in Hp as [Heq | Hp].
      * rewrite Heq in Hp_all. apply allIn_Forall in Hp_all. congruence.
      * by apply Hmax.
Qed.

Lemma matchTrailingPlus_all cls s :
  s <> [] -> Forall (fun c => cls c = true) s ->
  matchTrailingPlus cls s = Some s.
Proof.
  intros Hne Hall. destruct s as [|c s]; [done|].
  cbn [matchTrailingPlus]. apply allIn_Forall in Hall. by rewrite Hall.
Qed.

Lemma longestPrefix_all_id cls s :
  Forall (fun c => cls c = true) s -> longestPrefix cls s = s.
Proof.
  induction 1 as [|c s Hc _ IH]; simpl; [done|]. by rewrite Hc, IH.
Qed.

Lemma testAllPlus_true cls s :
  testAllPlus cls s = true <-> s <> [] /\ Forall (fun c => cls c = true) s.
Proof.
  destruct s as [|c s]; simpl.
  - split; [done | intros [? _]; done].
  - change (allIn cls (c :: s) = true <-> c :: s <> [] /\ Forall (fun c => cls c = true) (c :: s)).
    split.
    + intros Hall. split; [done | by apply allIn_Forall].
    + intros [_ Hall]. by apply allIn_Forall.
Qed.

Lemma isNonTranslatable_whitespace s :
  s <> [] -> allWhitespace s -> isNonTranslatable s = true.
Proof.
  intros Hne Hall. unfold isNonTranslatable.
  case_bool_decide; [done|].
  assert (testAllPlus isWhiteSpace s = true) as -> by by apply testAllPlus_true.
  done.
Qed.

(** ** [String.prototype.trim] *)

Lemma trimStart_spec s :
  exists pre, s = pre ++ trimStart s /\ allWhitespace pre /\
              forall c, head (trimStart s) = Some c -> isWhiteSpace c = false.
Proof.
  induction s as [|c s (pre & Hs & Hpre & Hhead)]; cbn [trimStart].
  - exists []. repeat split; [constructor | done].
  - destruct (isWhiteSpace c) eqn:Hc.
    + exists (c :: pre). cbn. rewrite <- Hs. repeat split; [by constructor | done].
    + exists []. repeat split; [constructor|]. by intros ? [= <-].
Qed.

Lemma trimEnd_spec s :
  exists suf, s = trimEnd s ++ suf /\ allWhitespace suf /\
              (forall c, last (trimEnd s) = Some c -> isWhiteSpace c = false) /\
              (forall c, head s = Some c -> isWhiteSpace c = false ->
                         head (trimEnd s) = Some c).
Proof.
  induction s as [|c s (suf & Hs & Hsuf & Hlast & _)]; cbn [trimEnd].
  - exists []. repeat split; [constructor | done | done].
  - destruct (trimEnd s) as [|d t] eqn:Ht.
    + destruct (isWhiteSpace c) eqn:Hc.
      * exists (c :: suf). cbn in *. subst suf.
        repeat split; [by constructor | done |]. intros ? [= <-]. congruence.
      * exists suf. cbn in *. subst suf.
        repeat split; [done | by intros ? [= <-] | by intros ? [= <-]].
    + exists suf. rewrite Hs. repeat split; [done | | by intros ? [= <-]].
      intros c' Hc'. apply Hlast. by rewrite last_cons_cons in Hc'.
Qed.

(** [trim] removes a run of whitespace at each end, and what is left neither
    starts nor ends with whitespace. *)
Lemma trim_spec s :
  exists pre suf, s = pre ++ trim s ++ suf /\ allWhitespace pre /\ allWhitespace suf /\
    (forall c, head (trim s) = Some c -> isWhiteSpace c = false) /\
    (forall c, last (trim s) = Some c -> isWhiteSpace c = false).
Proof.
  unfold trim.
  destruct (trimStart_spec s) as (pre & Hs & Hpre & Hhead).
  destruct (trimEnd_spec (trimStart s)) as (suf & Ht & Hsuf & Hlast & Hkeep).
  exists pre, suf. split; [by rewrite <- Ht|]. repeat split; try done.
  intros c Hc. destruct (trimStart s) as [|c0 t] eqn:Hts; [done|].
  specialize (Hhead c0 eq_refl). specialize (Hkeep c0 eq_refl Hhead).
  rewrite Hkeep in Hc. by injection Hc as <-.
Qed.

(** ** Applying translations *)

Lemma mapOfEntries_snoc `{Countable K} {V} (entries : list (K * V)) kv :
  mapOfEntries (entries ++ [kv]) = <[kv.1 := kv.2]> (mapOfEntries entries).
Proof. unfold mapOfEntries. by rewrite foldl_snoc. Qed.

Lemma mapOfEntries_lookup `{Countable K} {V} (entries : list (K * V)) k :
  mapOfEntries entries !! k = snd <$> last (filter (fun kv => kv.1 = k) entries).
Proof.
  induction entries as [|kv entries IH] using rev_ind; [done|].
  rewrite mapOfEntries_snoc, filter_app, lookup_insert.
  case_decide as Hk.
  - rewrite filter_cons_True by done. rewrite filter_nil, last_snoc. done.
  - rewrite filter_cons_False by done. rewrite filter_nil, app_nil_r. done.
Qed.

Lemma translationFor_lookup i translatedRuns :
  mapOfEntries ((fun r => (index r, itext r)) <$> translatedRuns) !! Z.of_nat i
  = translationFor i translatedRuns.
Proof.
  rewrite mapOfEntries_lookup. unfold translationFor.
  induction translatedRuns as [|r l IH] using rev_ind; [done|].
  rewrite fmap_app, !filter_app. cbn [fmap list_fmap].
  destruct (decide (index r = Z.of_nat i)) as [Hi|Hi].
  - rewrite !filter_cons_True by done. rewrite !filter_nil, !last_snoc. done.
  - rewrite !filter_cons_False by done. rewrite !filter_nil, !app_nil_r. done.
Qed.

Lemma applyRunTranslations_lookup paragraph translatedRuns i :
  runs (applyRunTranslations paragraph translatedRuns) !! i
  = (fun r =>
       if isNonTranslatable (text r) then r
       else match translationFor i translatedRuns with
            | None => r
            | Some t => {| text := preserveWhitespace (text r) t; font := font r |}
            end) <$> runs paragraph !! i.
Proof.
  unfold applyRunTranslations, mapi. cbn [runs].
  rewrite list_lookup_imap. by rewrite translationFor_lookup.
Qed.

(** C10. [preserveWhitespace original translated] is the maximal leading
    whitespace of [original], then [translated.trim()], then the maximal
    trailing whitespace of [original]. When [original] is non-empty and all
    whitespace, both are the whole of [original], which therefore appears
    twice in the result. [applyRunTranslations] never reaches that case: it
    returns a whitespace-only run as it is, whatever the provider sent. *)
Theorem preserveWhitespace_shape (original translated : jsstring) :
  (exists pre suf,
      maximalLeadingWhitespace pre original /\
      maximalTrailingWhitespace suf original /\
      preserveWhitespace original translated = pre ++ trim translated ++ suf) /\
  (original <> [] -> allWhitespace original ->
   preserveWhitespace original translated = original ++ trim translated ++ original) /\
  (forall paragraph translatedRuns i r,
      runs paragraph !! i = Some r ->
      text r = original -> original <> [] -> allWhitespace original ->
      runs (applyRunTranslations paragraph translatedRuns) !! i = Some r).
Proof.
  split; [|split].
  - exists (default [] (matchLeadingPlus isWhiteSpace original)),
           (default [] (matchTrailingPlus isWhiteSpace original)).
    split; [|split; [|done]].
    + rewrite matchLeadingPlus_default.
      split; [apply longestPrefix_prefix|].
      split; [apply longestPrefix_all|]. apply longestPrefix_maximal.
    + apply matchTrailingPlus_spec.
  - intros Hne Hall. unfold preserveWhitespace.
    rewrite matchLeadingPlus_default, longestPrefix_all_id by done.
    by rewrite matchTrailingPlus_all.
  - intros paragraph translatedRuns i r Hi Htext Hne Hall.
    rewrite applyRunTranslations_lookup, Hi. cbn [fmap option_fmap option_map].
    rewrite isNonTranslatable_whitespace; [done | by rewrite Htext..].
Qed.

Lemma preserveWhitespace_shape_witness :
  preserveWhitespace (js "  ") (js " Bonjour ") = js "  Bonjour  " /\
  runs (applyRunTranslations
          {| id := js "s0_shape2_p0"; originalCharCount := 2;
             runs := [{| text := js "  "; font := defaultFontSnapshot |}];
             paragraphFormat := None |}
          [{| index := 0; itext := js " Bonjour " |}]) !! 0
  = Some {| text := js "  "; font := defaultFontSnapshot |}.
Proof.
  pose proof (preserveWhitespace_shape (js "  ") (js " Bonjour ")) as (_ & Htwice & Hskip).
  assert (Hne : js "  " <> []) by discriminate.
  assert (Hall : allWhitespace (js "  ")) by (repeat constructor).
  split.
  - rewrite (Htwice Hne Hall). reflexivity.
  - eapply Hskip; [reflexivity | reflexivity | exact Hne | exact Hall].
Defined.

(** C7. [applyRunTranslations] keeps the paragraph's id, character count and
    paragraph format, the number of runs and every run's font. Run [i] gets
    the text [preserveWhitespace original t] when it is translatable and
    [translatedRuns] has an entry with index [i] ([t] being the text of the
    last such entry); a run that is non-translatable, or whose index has no
    entry, is returned as it is. *)
Theorem applyRunTranslations_frame (paragraph : Paragraph)
    (translatedRuns : list IndexedText) :
  let result := applyRunTranslations paragraph translatedRuns in
  id result = id paragraph /\
  originalCharCount result = originalCharCount paragraph /\
  paragraphFormat result = paragraphFormat paragraph /\
  length (runs result) = length (runs paragraph) /\
  forall i r, runs paragraph !! i = Some r ->
    exists r', runs result !! i = Some r' /\ font r' = font r /\
      (forall t, isNonTranslatable (text r) = false ->
                 translationFor i translatedRuns = Some t ->
                 text r' = preserveWhitespace (text r) t) /\
      (isNonTranslatable (text r) = true \/ translationFor i translatedRuns = None ->
       r' = r).
Proof.
  cbv zeta. repeat split; try reflexivity.
  - unfold applyRunTranslations, mapi. cbn [runs]. apply length_imap.
  - intros i r Hi. rewrite applyRunTranslations_lookup, Hi.
    cbn [fmap option_fmap option_map]. eexists. split; [reflexivity|].
    destruct (isNonTranslatable (text r)) eqn:Hnt;
      destruct (translationFor i translatedRuns) as [t|] eqn:Ht; cbn [font text];
      (split; [reflexivity|]); split; try congruence; try done.
    + intros [?|?]; congruence.
Qed.

Lemma applyRunTranslations_frame_witness :
  let paragraph :=
    {| id := js "s0_shape2_p0"; originalCharCount := 9;
       runs := [{| text := js "Hello "; font := defaultFontSnapshot |};
                {| text := js "42%"; font := defaultFontSnapshot |};
                {| text := js " world"; font := defaultFontSnapshot |}];
       paragraphFormat := None |} in
  let translatedRuns :=
    [{| index := 0; itext := js "Salut" |}; {| index := 1; itext := js "42 %" |};
     {| index := 0; itext := js "Bonjour" |}] in
  exists r0 r1 r2,
    runs (applyRunTranslations paragraph translatedRuns) = [r0; r1; r2] /\
    text r0 = js "Bonjour " /\ text r1 = js "42%" /\ text r2 = js " world".
Proof.
  cbv zeta.
  set (paragraph := {| id := js "s0_shape2_p0" |}).
  set (translatedRuns := [ _ ; _ ; _ ]).
  pose proof (applyRunTranslations_frame paragraph translatedRuns) as
    (_ & _ & _ & Hlen & Hruns).
  destruct (Hruns 0%nat _ eq_refl) as (r0 & H0 & _ & Ht0 & _).
  destruct (Hruns 1%nat _ eq_refl) as (r1 & H1 & _ & _ & Hk1).
  destruct (Hruns 2%nat _ eq_refl) as (r2 & H2 & _ & _ & Hk2).
  exists r0, r1, r2. split.
  - destruct (runs (applyRunTranslations paragraph translatedRuns))
      as [|a [|b [|c [|d l]]]]; try discriminate Hlen.
    cbn in H0, H1, H2. congruence.
  - split; [exact (Ht0 (js "Bonjour") eq_refl eq_refl)|].
    split; [by rewrite (Hk1 (or_introl eq_refl)) | by rewrite (Hk2 (or_intror eq_refl))].
Defined.

(** ** Recomposition *)

Lemma occursAt_spanText {A} full (sp : Span A) t :
  occursAt full sp t -> spanText full sp = t.
Proof.
  intros (pre & post & -> & Hs & Hl). unfold spanText, slice.
  rewrite Hs, Hl. replace (length pre + length t - length pre) with (length t) by lia.
  rewrite drop_app_length. by rewrite take_app_length.
Qed.

Lemma foldl_composeRun st rs :
  foldl composeRun st rs =
  {| cs_fullText := cs_fullText st ++ concat (text <$> rs);
     cs_paragraphSpans := cs_paragraphSpans st;
     cs_runSpans := cs_runSpans st ++ runSpansAt (cs_offset st) rs;
     cs_offset := cs_offset st + length (concat (text <$> rs)) |}.
Proof.
  revert st. induction rs as [|r rs IH]; intros st.
  - destruct st. cbn. by rewrite !app_nil_r, Nat.add_0_r.
  - cbn [foldl]. rewrite IH. cbn. rewrite length_app, <- !app_assoc.
    f_equal. lia.
Qed.

Lemma composeParagraph_unfold settings count st i p :
  composeParagraph settings count st (i, p) =
  {| cs_fullText := cs_fullText st ++ paragraphText p ++ joinerAt settings count i;
     cs_paragraphSpans :=
       cs_paragraphSpans st ++ [mkSpan (cs_offset st) (length (paragraphText p)) (paragraphFormat p)];
     cs_runSpans := cs_runSpans st ++ runSpansAt (cs_offset st) (runs p);
     cs_offset := cs_offset st + length (paragraphText p) + length (joinerAt settings count i) |}.
Proof.
  unfold composeParagraph, joinerAt, addJoiner, paragraphText.
  rewrite foldl_composeRun.
  destruct (keepLineBreaks settings), (i <? count - 1);
    cbn -[Nat.sub];
    replace (cs_offset st + length (concat (text <$> runs p)) - cs_offset st)
      with (length (concat (text <$> runs p))) by lia;
    rewrite <- ?app_assoc, ?app_nil_r, ?Nat.add_0_r; reflexivity.
Qed.

Lemma foldl_composeParagraph settings count i st ps :
  foldl (composeParagraph settings count) st (imap (fun k p => (i + k, p)) ps) =
  let c := layout settings count i (cs_offset st) ps in
  {| cs_fullText := cs_fullText st ++ fullText c;
     cs_paragraphSpans := cs_paragraphSpans st ++ paragraphSpans c;
     cs_runSpans := cs_runSpans st ++ runSpans c;
     cs_offset := cs_offset st + length (fullText c) |}.
Proof.
  revert i st. induction ps as [|p ps IH]; intros i st.
  - destruct st. cbn. by rewrite !app_nil_r, Nat.add_0_r.
  - rewrite imap_cons. cbn [foldl]. rewrite Nat.add_0_r.
    rewrite (imap_ext _ (fun k p => (S i + k, p)))
      by (intros; cbn; f_equal; lia).
    rewrite IH, composeParagraph_unfold. cbn.
    rewrite !length_app, <- !app_assoc. cbn. f_equal. lia.
Qed.

Lemma composeText_layout ps settings :
  composeText ps settings = layout settings (length ps) 0 0 ps.
Proof.
  unfold composeText.
  rewrite (foldl_composeParagraph settings (length ps) 0). cbn.
  by destruct (layout settings (length ps) 0 0 ps).
Qed.

Lemma runSpansAt_length off rs : length (runSpansAt off rs) = length rs.
Proof. revert off. induction rs as [|r rs IH]; intros off; simpl; [done|]. by rewrite IH. Qed.

Lemma runSpansAt_occurs rs : forall pre post off,
  length pre = off ->
  Forall2 (fun r sp => occursAt (pre ++ concat (text <$> rs) ++ post) sp (text r)
                       /\ fmt sp = font r)
          rs (runSpansAt off rs).
Proof.
  induction rs as [|r rs IH]; intros pre post off Hoff; cbn; constructor.
  - split; [|done]. exists pre, (concat (text <$> rs) ++ post).
    cbn. by rewrite <- app_assoc.
  - specialize (IH (pre ++ text r) post (off + length (text r))).
    rewrite <- !app_assoc in IH. rewrite <- app_assoc.
    apply IH. rewrite length_app. lia.
Qed.

Lemma runSpansAt_tiles off rs :
  tiles off (off + length (concat (text <$> rs))) (runSpansAt off rs).
Proof.
  revert off. induction rs as [|r rs IH]; intros off; cbn.
  - lia.
  - split; [done|]. rewrite length_app, Nat.add_assoc. apply IH.
Qed.

Lemma tiles_app {A} a b c (l1 l2 : list (Span A)) :
  tiles a b l1 -> tiles b c l2 -> tiles a c (l1 ++ l2).
Proof.
  revert a. induction l1 as [|sp l1 IH]; intros a; cbn.
  - by intros ->.
  - intros [Hs Ht] H2. split; [done|]. by apply IH.
Qed.

Lemma tiles_chained {A} from to (l1 l2 : list (Span A)) lo :
  tiles from to l1 -> to <= lo -> chainedFrom 0 lo l2 ->
  chainedFrom 0 from (l1 ++ l2).
Proof.
  revert from. induction l1 as [|sp l1 IH]; intros from; cbn.
  - intros -> Hlo Hl2. destruct l2 as [|sp l2]; cbn in *; [done|].
    destruct Hl2. split; [lia | done].
  - intros [Hs Ht] Hlo Hl2. split; [lia|].
    rewrite Nat.add_0_r, Hs. by apply IH.
Qed.

Lemma chainedFrom_weaken {A} gap lo lo' (l : list (Span A)) :
  lo' <= lo -> chainedFrom gap lo l -> chainedFrom gap lo' l.
Proof. destruct l; cbn; [done|]. intros ? [? ?]. split; [lia | done]. Qed.

Lemma chainedFrom_consecutive {A} gap lo (l : list (Span A)) k a b :
  chainedFrom gap lo l -> l !! k = Some a -> l !! S k = Some b ->
  start a + len a + gap <= start b.
Proof.
  revert lo k. induction l as [|sp l IH]; intros lo k Hc Ha Hb; [done|].
  destruct Hc as [_ Hc]. destruct k as [|k].
  - cbn in Ha. injection Ha as ->. destruct l as [|sp' l]; [done|].
    cbn in Hb. injection Hb as ->. by destruct Hc.
  - by eapply IH.
Qed.

Section Layout.
Variable settings : Settings.
Variable count : nat.

Lemma layout_runs_occur ps : forall i off pre,
  length pre = off ->
  Forall2 (fun r sp => occursAt (pre ++ fullText (layout settings count i off ps)) sp (text r)
                       /\ fmt sp = font r)
          (concat (runs <$> ps)) (runSpans (layout settings count i off ps)).
Proof.
  induction ps as [|p ps IH]; intros i off pre Hoff; cbn; [constructor|].
  apply Forall2_app.
  - apply (runSpansAt_occurs (runs p) pre _ off Hoff).
  - specialize (IH (S i) (off + length (paragraphText p) + length (joinerAt settings count i))
                   (pre ++ paragraphText p ++ joinerAt settings count i)).
    rewrite <- !app_assoc in IH. apply IH. rewrite !length_app. lia.
Qed.

Lemma layout_paragraphs_occur ps : forall i off pre,
  length pre = off ->
  Forall2 (fun p sp => occursAt (pre ++ fullText (layout settings count i off ps)) sp (paragraphText p)
                       /\ fmt sp = paragraphFormat p)
          ps (paragraphSpans (layout settings count i off ps)).
Proof.
  induction ps as [|p ps IH]; intros i off pre Hoff; cbn; constructor.
  - split; [|done]. by exists pre, (joinerAt settings count i
      ++ fullText (layout settings count (S i)
           (off + length (paragraphText p) + length (joinerAt settings count i)) ps)).
  - specialize (IH (S i) (off + length (paragraphText p) + length (joinerAt settings count i))
                   (pre ++ paragraphText p ++ joinerAt settings count i)).
    rewrite <- !app_assoc in IH. apply IH. rewrite !length_app. lia.
Qed.

Lemma layout_runs_chained ps : forall i off,
  chainedFrom 0 off (runSpans (layout settings count i off ps)).
Proof.
  induction ps as [|p ps IH]; intros i off; cbn; [done|].
  eapply tiles_chained; [apply runSpansAt_tiles | | apply IH].
  fold (paragraphText p). lia.
Qed.

Lemma layout_paragraphs_chained ps : forall i off,
  count = i + length ps ->
  chainedFrom 1 off (paragraphSpans (layout settings count i off ps)).
Proof.
  induction ps as [|p ps IH]; intros i off Hcount; cbn; [done|].
  split; [done|]. destruct ps as [|q ps]; [done|].
  assert (Hj : length (joinerAt settings count i) = 1).
  { unfold joinerAt. cbn in Hcount.
    assert ((i <? count - 1) = true) as -> by (apply Nat.ltb_lt; lia).
    by destruct (keepLineBreaks settings). }
  rewrite Hj. apply IH. cbn in *. lia.
Qed.

Lemma layout_paragraph_runs ps : forall i off j p psp,
  ps !! j = Some p ->
  paragraphSpans (layout settings count i off ps) !! j = Some psp ->
  runSpansOfParagraph ps j (runSpans (layout settings count i off ps))
  = runSpansAt (start psp) (runs p) /\ len psp = length (paragraphText p).
Proof.
  induction ps as [|q ps IH]; intros i off j p psp Hp Hsp; [done|].
  unfold runSpansOfParagraph. rewrite Hp. destruct j as [|j].
  - cbn in Hp, Hsp. injection Hp as ->. injection Hsp as <-. cbn.
    rewrite drop_0, take_app_length'; [done | by rewrite runSpansAt_length].
  - change (ps !! j = Some p) in Hp. cbn in Hsp.
    cbn [take fmap list_fmap concat layout runSpans].
    rewrite length_app, <- (runSpansAt_length off (runs q)), drop_app_add'; [|done].
    specialize (IH _ _ _ _ _ Hp Hsp). unfold runSpansOfParagraph in IH.
    by rewrite Hp in IH.
Qed.

Lemma layout_fullText ps : forall i off,
  count = i + length ps ->
  fullText (layout settings count i off ps)
  = join (if keepLineBreaks settings then [10%N] else js " ") (paragraphText <$> ps).
Proof.
  induction ps as [|p ps IH]; intros i off Hcount; [done|].
  cbn [layout fullText fmap list_fmap join]. destruct ps as [|q ps].
  - cbn. unfold joinerAt. cbn in Hcount.
    assert ((i <? count - 1) = false) as -> by (apply Nat.ltb_ge; lia).
    by rewrite app_nil_r.
  - rewrite IH by (cbn in *; lia). unfold joinerAt. cbn in Hcount.
    assert ((i <? count - 1) = true) as -> by (apply Nat.ltb_lt; lia).
    reflexivity.
Qed.
End Layout.

Lemma composeText_fullText paragraphs settings :
  fullText (composeText paragraphs settings)
  = join (if keepLineBreaks settings then [10%N] else js " ")
         (paragraphText <$> paragraphs).
Proof. rewrite composeText_layout. by apply layout_fullText. Qed.

(** C5. The offset tables of [composeText] match the composed text. The
    run table has one span per run, in order, and the slice of the full text
    it names is that run's text (with the run's font); the paragraph table
    has one span per paragraph and its slice is the concatenation of the
    paragraph's run texts, joiners excluded. Spans come in ascending order:
    a run span starts at or after the end of the previous one, a paragraph
    span strictly after it. The run spans of a paragraph tile its paragraph
    span exactly. *)
Theorem composeText_offsets (paragraphs : list Paragraph) (settings : Settings) :
  let c := composeText paragraphs settings in
  Forall2 (fun r sp => spanText (fullText c) sp = text r /\
                       len sp = length (text r) /\ fmt sp = font r)
          (concat (runs <$> paragraphs)) (runSpans c) /\
  Forall2 (fun p sp => spanText (fullText c) sp = paragraphText p /\
                       fmt sp = paragraphFormat p)
          paragraphs (paragraphSpans c) /\
  spansAscending (runSpans c) /\
  spansSeparated (paragraphSpans c) /\
  forall j psp, paragraphSpans c !! j = Some psp ->
    tiles (start psp) (start psp + len psp)
          (runSpansOfParagraph paragraphs j (runSpans c)).
Proof.
  cbv zeta. rewrite composeText_layout.
  pose proof (layout_runs_occur settings (length paragraphs) paragraphs 0 0 [] eq_refl) as Hruns.
  pose proof (layout_paragraphs_occur settings (length paragraphs) paragraphs 0 0 [] eq_refl) as Hpars.
  cbn [app] in Hruns, Hpars.
  split; [|split; [|split; [|split]]].
  - eapply Forall2_impl; [exact Hruns|]. intros r sp [Hocc Hfont].
    split; [by apply occursAt_spanText|]. split; [|done].
    by destruct Hocc as (? & ? & _ & _ & ?).
  - eapply Forall2_impl; [exact Hpars|]. intros p sp [Hocc Hfmt].
    split; [by apply occursAt_spanText | done].
  - intros k a b Ha Hb.
    pose proof (chainedFrom_consecutive 0 0 _ k a b
                  (layout_runs_chained settings (length paragraphs) paragraphs 0 0) Ha Hb).
    lia.
  - intros k a b Ha Hb.
    pose proof (chainedFrom_consecutive 1 0 _ k a b
                  (layout_paragraphs_chained settings (length paragraphs) paragraphs 0 0 eq_refl)
                  Ha Hb).
    lia.
  - intros j psp Hsp.
    destruct (Forall2_lookup_r _ _ _ _ _ Hpars Hsp) as (p & Hp & _).
    destruct (layout_paragraph_runs settings (length paragraphs) paragraphs 0 0 j p psp Hp Hsp)
      as [-> ->].
    apply runSpansAt_tiles.
Qed.

Lemma composeText_offsets_witness :
  let c := composeText helloWorldParagraphs (sampleSettings true ModeApply) in
  fullText c = js "Hello" ++ [10%N] ++ js "World" ++ [10%N] ++ js "!" /\
  (start <$> runSpans c, len <$> runSpans c) = ([0; 3; 6; 12], [3; 2; 5; 1]) /\
  (start <$> paragraphSpans c, len <$> paragraphSpans c) = ([0; 6; 12], [5; 5; 1]) /\
  tiles 0 5 (runSpansOfParagraph helloWorldParagraphs 0 (runSpans c)).
Proof.
  cbv zeta.
  pose proof (composeText_offsets helloWorldParagraphs (sampleSettings true ModeApply))
    as (_ & _ & _ & _ & Htiles).
  split; [reflexivity|]. split; [reflexivity|]. split; [reflexivity|].
  exact (Htiles 0 (mkSpan 0 5 None) eq_refl).
Defined.

(** C6. Recomposing the three paragraphs Hello, World and ! gives the full
    text [Hello World !] when [keepLineBreaks] is false (one space between
    two paragraphs, nothing after the last) and the three texts separated by
    line feeds when it is true. *)
Theorem composeText_hello_world (paragraphs : list Paragraph) (settings : Settings) :
  paragraphText <$> paragraphs = [js "Hello"; js "World"; js "!"] ->
  fullText (composeText paragraphs settings)
  = if keepLineBreaks settings
    then js "Hello" ++ [10%N] ++ js "World" ++ [10%N] ++ js "!"
    else js "Hello World !".
Proof.
  intros Htexts. rewrite composeText_fullText, Htexts.
  by destruct (keepLineBreaks settings).
Qed.

Lemma composeText_hello_world_witness :
  fullText (composeText helloWorldParagraphs (sampleSettings false ModeApply))
  = js "Hello World !" /\
  fullText (composeText helloWorldParagraphs (sampleSettings true ModeApply))
  = js "Hello" ++ [10%N] ++ js "World" ++ [10%N] ++ js "!".
Proof.
  split.
  - exact (composeText_hello_world helloWorldParagraphs (sampleSettings false ModeApply) eq_refl).
  - exact (composeText_hello_world helloWorldParagraphs (sampleSettings true ModeApply) eq_refl).
Defined.

(** ** Chunking *)

Section Chunking.
Context `{HasOriginalChars T}.
Variables maxChars maxItems : Z.
Hypothesis maxItems_pos : (1 <= maxItems)%Z.

Lemma totalChars_snoc (chunk : list T) item :
  totalChars (chunk ++ [item]) = (totalChars chunk + originalCharsOf item)%Z.
Proof.
  induction chunk as [|x chunk IH]; cbn; [lia|].
  fold (totalChars (chunk ++ [item])). rewrite IH. fold (totalChars chunk). lia.
Qed.

Lemma chunkStep_inv processed st item :
  chunkInv maxChars maxItems processed st ->
  chunkInv maxChars maxItems (processed ++ [item]) (chunkStep maxChars maxItems st item).
Proof using maxItems_pos.
  destruct st as [[chunks current] sum].
  intros (Hcat & Hsum & Hgood & Hlen & Hbound). unfold chunkStep.
  destruct ((Z.of_nat (length current) >=? maxItems)%Z
            || (sum + originalCharsOf item >? maxChars)%Z) eqn:Hflush.
  - destruct current as [|x current]; cbn [isEmpty app length chunkInv].
    + rewrite app_nil_r in Hcat. rewrite Hcat.
      repeat split; try done; [cbn; lia | right; lia].
    + rewrite concat_app. cbn [concat]. rewrite app_nil_r, Hcat.
      repeat split; try done; [cbn; lia | | right; lia].
      apply Forall_app. split; [done|]. constructor; [|constructor].
      split; [done|]. split; [done|].
      destruct Hbound as [Hb | Hb]; [left; by rewrite <- Hsum | right; cbn in *; lia].
  - apply orb_false_elim in Hflush as [Hitems Hchars].
    rewrite Z.geb_leb in Hitems. apply Z.leb_gt in Hitems.
    rewrite Z.gtb_ltb in Hchars. apply Z.ltb_ge in Hchars.
    cbn [chunkInv].
    rewrite app_assoc, Hcat, totalChars_snoc, <- Hsum, length_app. cbn [length].
    repeat split; try done; [lia | by left].
Qed.

Lemma foldl_chunkStep_inv items : forall processed st,
  chunkInv maxChars maxItems processed st ->
  chunkInv maxChars maxItems (processed ++ items)
           (foldl (chunkStep maxChars maxItems) st items).
Proof using maxItems_pos.
  induction items as [|item items IH]; intros processed st Hinv; cbn [foldl].
  - by rewrite app_nil_r.
  - replace (processed ++ item :: items) with ((processed ++ [item]) ++ items)
      by by rewrite <- app_assoc.
    by apply IH, chunkStep_inv.
Qed.

Lemma chunkByChars_partition (items : list T) :
  concat (chunkByChars items maxChars maxItems) = items /\
  Forall (goodChunk maxChars maxItems) (chunkByChars items maxChars maxItems).
Proof using maxItems_pos.
  unfold chunkByChars.
  assert (Hinit : chunkInv maxChars maxItems [] ([], [], 0%Z)).
  { cbn. repeat split; try done; [lia | right; lia]. }
  pose proof (foldl_chunkStep_inv items [] _ Hinit) as Hinv.
  destruct (foldl (chunkStep maxChars maxItems) ([], [], 0%Z) items) as [[chunks current] sum].
  destruct Hinv as (Hcat & Hsum & Hgood & Hlen & Hbound). cbn [app] in Hcat.
  destruct current as [|x current]; cbn [isEmpty].
  - rewrite app_nil_r in Hcat. done.
  - rewrite concat_app. cbn [concat]. rewrite app_nil_r. split; [done|].
    apply Forall_app. split; [done|]. constructor; [|constructor].
    split; [done|]. split; [done|].
    destruct Hbound as [Hb | Hb]; [left; by rewrite <- Hsum | right; cbn in *; lia].
Qed.
End Chunking.

(** The default bounds of the current [chunkByChars], and those of its
    older copy (6000 characters, 35 items). *)
Lemma chunkByChars_default_good `{HasOriginalChars T} (items : list T) :
  concat (chunkByChars items defaultMaxChars defaultMaxItems) = items /\
  Forall (goodChunk defaultMaxChars defaultMaxItems)
         (chunkByChars items defaultMaxChars defaultMaxItems).
Proof.
  apply (chunkByChars_partition defaultMaxChars defaultMaxItems).
  unfold defaultMaxItems. lia.
Qed.

Lemma chunkByChars_older_good `{HasOriginalChars T} (items : list T) :
  concat (chunkByChars items 6000 35) = items /\
  Forall (goodChunk 6000 35) (chunkByChars items 6000 35).
Proof. apply (chunkByChars_partition 6000 35). lia. Qed.

(** C8, as the code has it. With the default bounds, [chunkByChars] cuts
    the item list into consecutive chunks (concatenating them gives the list
    back, so no item is dropped, split or reordered); no chunk is empty,
    every chunk has at most 60 items, and every chunk's total of
    [originalChars] is at most 12,000 unless the chunk is a single item. *)
Theorem chunkByChars_default_partition `{HasOriginalChars T} (items : list T) :
  let chunks := chunkByChars items defaultMaxChars defaultMaxItems in
  concat chunks = items /\
  Forall (fun chunk => chunk <> [] /\ (Z.of_nat (length chunk) <= 60)%Z /\
                       ((totalChars chunk <= 12000)%Z \/ length chunk = 1))
         chunks.
Proof.
  cbv zeta. apply chunkByChars_default_good.
Qed.

(** C8, as stated, fails: an item longer than the budget is a chunk of its
    own, and that chunk's total exceeds 12,000. *)
Lemma chunkByChars_oversized_item :
  Z.of_nat (length (concat (itext <$> item_runs longItem))) = originalChars longItem /\
  chunkByChars [longItem] defaultMaxChars defaultMaxItems = [[longItem]] /\
  (totalChars [longItem] > 12000)%Z.
Proof. vm_compute. repeat split. Qed.

(** ** Run extraction *)

Section RunExtractionFacts.
Variable numberToString : number -> jsstring.
Variable hostFont : nat -> nat -> ShapeFont.

Lemma scanStep_texts st c f :
  scanTexts (scanStep numberToString st (c, f)) = scanTexts st ++ [c].
Proof.
  destruct st as [rs [[curFont curText]|]]; unfold scanStep, scanTexts; cbn [fst snd].
  - case_bool_decide; cbn [fst snd].
    + by rewrite app_assoc.
    + rewrite fmap_app, concat_app. cbn. by rewrite app_nil_r, <- app_assoc.
  - by rewrite app_nil_r.
Qed.

Lemma foldl_scanStep_texts l : forall st,
  scanTexts (foldl (scanStep numberToString) st l) = scanTexts st ++ (fst <$> l).
Proof.
  induction l as [|[c f] l IH]; intros st; cbn [foldl fmap list_fmap].
  - by rewrite app_nil_r.
  - rewrite IH, scanStep_texts, <- app_assoc. done.
Qed.

Lemma extractRunsByCharScan_lossless paragraphStart paragraphText :
  concat (text <$> extractRunsByCharScan numberToString hostFont paragraphStart paragraphText)
  = paragraphText.
Proof.
  unfold extractRunsByCharScan.
  pose proof (foldl_scanStep_texts
                (zip paragraphText
                     (safeFontSnapshot <$>
                        ((fun i => hostFont (paragraphStart + i) 1) <$> seq 0 (length paragraphText))))
                ([], None)) as Htexts.
  rewrite fst_zip in Htexts by (rewrite !length_fmap, length_seq; lia).
  destruct (foldl _ _ _) as [rs [[curFont curText]|]]; unfold scanTexts in Htexts;
    cbn [fst snd app] in Htexts.
  - rewrite fmap_app, concat_app. cbn. by rewrite app_nil_r.
  - by rewrite app_nil_r in Htexts.
Qed.

Lemma split_tiles from length_ :
  tiles from (from + length_) (split hostFont from length_).
Proof.
  funelim (split hostFont from length_).
  - cbn. done.
  - clear Heqcall.
    pose proof (orb_false_elim _ _ Hsplit) as [_ Hlen]. apply Nat.leb_gt in Hlen.
    assert (Hmid : length_ / 2 < length_) by (apply Nat.div_lt; lia).
    eapply tiles_app; [eassumption|].
    match goal with
    | Hright : tiles ?a ?b ?l |- tiles ?a ?c ?l => replace c with b by lia; exact Hright
    end.
Qed.
End RunExtractionFacts.

Lemma insertByStart_last {A} (s : Span A) (sorted : list (Span A)) :
  Forall (fun x => start x <= start s) sorted ->
  insertByStart s sorted = sorted ++ [s].
Proof.
  induction 1 as [|x sorted Hx _ IH]; cbn; [done|].
  apply Nat.leb_le in Hx. by rewrite Hx, IH.
Qed.

Lemma sortByStart_chained {A} (spans : list (Span A)) : forall lo sorted,
  Forall (fun x => start x <= lo) sorted ->
  chainedFrom 0 lo spans ->
  foldl (fun sorted s => insertByStart s sorted) sorted spans = sorted ++ spans.
Proof.
  induction spans as [|s spans IH]; intros lo sorted Hsorted Hchain; cbn [foldl].
  - by rewrite app_nil_r.
  - destruct Hchain as [Hlo Hchain].
    rewrite insertByStart_last
      by (eapply Forall_impl; [exact Hsorted | cbn; intros; lia]).
    rewrite (IH (start s + len s + 0)); [by rewrite <- app_assoc | | done].
    apply Forall_app. split; [|constructor; [lia | constructor]].
    eapply Forall_impl; [exact Hsorted | cbn; intros; lia].
Qed.

(** Sorting spans that already tile a range leaves them as they are. *)
Lemma sortByStart_tiles {A} from to (spans : list (Span A)) :
  tiles from to spans -> sortByStart spans = spans.
Proof.
  intros Htiles. unfold sortByStart.
  apply (sortByStart_chained spans from []); [constructor|].
  rewrite <- (app_nil_r spans).
  by apply (tiles_chained from to spans [] to).
Qed.

Lemma slice_slice a b c (s : jsstring) :
  a <= b -> b <= c -> slice a b s ++ slice b c s = slice a c s.
Proof.
  intros Hab Hbc. unfold slice.
  replace (drop b s) with (drop (b - a) (drop a s)) by (rewrite drop_drop; f_equal; lia).
  rewrite take_take_drop. f_equal. lia.
Qed.

Section MergeFacts.
Variable numberToString : number -> jsstring.
Variable hostFont : nat -> nat -> ShapeFont.

Lemma mergeStep_texts paragraphStart paragraphText st s :
  mergeTexts (mergeStep numberToString paragraphStart paragraphText st s)
  = mergeTexts st
    ++ slice (start s - paragraphStart) (start s - paragraphStart + len s) paragraphText.
Proof.
  destruct st as [out [l|]]; unfold mergeStep, mergeTexts; cbn [fst snd].
  - case_bool_decide; cbn [fst snd text].
    + by rewrite app_assoc.
    + rewrite fmap_app, concat_app. cbn. by rewrite app_nil_r, <- app_assoc.
  - by rewrite app_nil_r.
Qed.

Lemma foldl_mergeStep_texts paragraphStart paragraphText spans : forall from to st,
  paragraphStart <= from ->
  tiles from to spans ->
  mergeTexts (foldl (mergeStep numberToString paragraphStart paragraphText) st spans)
  = mergeTexts st ++ slice (from - paragraphStart) (to - paragraphStart) paragraphText.
Proof.
  induction spans as [|s spans IH]; intros from to st Hfrom Htiles; cbn [foldl].
  - cbn in Htiles. subst to. unfold slice. by rewrite Nat.sub_diag, take_0, app_nil_r.
  - destruct Htiles as [Hs Htiles].
    assert (Hto : from + len s <= to).
    { clear -Htiles. revert Htiles. generalize (from + len s).
      induction spans as [|x spans IHs]; cbn; intros n; [lia|].
      intros [_ Hx]. specialize (IHs _ Hx). lia. }
    rewrite (IH (from + len s) to) by (done || lia).
    rewrite mergeStep_texts, Hs, <- app_assoc. f_equal.
    replace (from + len s - paragraphStart) with (from - paragraphStart + len s) by lia.
    apply slice_slice; lia.
Qed.

Lemma extractRunsByBinarySplit_lossless paragraphStart paragraphText :
  concat (text <$> extractRunsByBinarySplit numberToString hostFont paragraphStart paragraphText)
  = paragraphText.
Proof.
  unfold extractRunsByBinarySplit.
  pose proof (split_tiles hostFont paragraphStart (length paragraphText)) as Htiles.
  rewrite (sortByStart_tiles _ _ _ Htiles).
  pose proof (foldl_mergeStep_texts paragraphStart paragraphText _ _ _ ([], None)
                (Nat.le_refl _) Htiles) as Htexts.
  replace (paragraphStart + length paragraphText - paragraphStart)
    with (length paragraphText) in Htexts by lia.
  rewrite Nat.sub_diag in Htexts. unfold slice in Htexts.
  rewrite drop_0, Nat.sub_0_r, take_ge in Htexts by done.
  destruct (foldl _ _ _) as [out [l|]]; unfold mergeTexts in Htexts;
    cbn [fst snd app] in Htexts.
  - rewrite fmap_app, concat_app. cbn. by rewrite app_nil_r.
  - by rewrite app_nil_r in Htexts.
Qed.
End MergeFacts.

(** C1. Whatever fonts the host reports for the substrings it is asked
    about, the runs the character scan returns and the runs the bisection
    returns each partition the paragraph text: their texts, concatenated in
    order, are the paragraph text. *)
Theorem extractRuns_lossless (numberToString : number -> jsstring)
    (hostFont : nat -> nat -> ShapeFont) (paragraphStart : nat)
    (paragraphText : jsstring) :
  concat (text <$> extractRunsByCharScan numberToString hostFont paragraphStart paragraphText)
  = paragraphText /\
  concat (text <$> extractRunsByBinarySplit numberToString hostFont paragraphStart paragraphText)
  = paragraphText.
Proof.
  split.
  - apply extractRunsByCharScan_lossless.
  - apply extractRunsByBinarySplit_lossless.
Qed.

(** The dispatcher [extractRunsByFont] inherits the partition property, and
    never returns an empty run list for a non-empty or an empty paragraph. *)
Lemma extractRunsByFont_lossless numberToString hostFont paragraphStart paragraphText :
  concat (text <$> extractRunsByFont numberToString hostFont paragraphStart paragraphText)
  = paragraphText.
Proof.
  unfold extractRunsByFont.
  destruct (length paragraphText =? 0) eqn:Hn.
  - apply Nat.eqb_eq in Hn. by destruct paragraphText.
  - destruct (length paragraphText <=? MAX_CHAR_SCAN);
      [apply extractRunsByCharScan_lossless | apply extractRunsByBinarySplit_lossless].
Qed.

(** ** The workers of [translateChunks] *)

Section ChunkRunFacts.
Variable settings : Settings.


Lemma workerLoop_chunks aborted w run :
  chunks (workerLoop settings aborted w run) = chunks run.
Proof.
  unfold workerLoop. destruct aborted; [done|].
  by destruct (claimFrom _ _ _) as [[? ?] ?].
Qed.

Lemma workerLoop_results aborted w run :
  results (workerLoop settings aborted w run) = results run.
Proof.
  unfold workerLoop. destruct aborted; [done|].
  by destruct (claimFrom _ _ _) as [[? ?] ?].
Qed.

Lemma workerResume_chunks aborted w reply run :
  chunks (workerResume settings aborted w reply run) = chunks run.
Proof.
  unfold workerResume. destruct (workers run !! w) as [[i| |e]|]; try done.
  destruct (translateBatchResult reply); [done|]. by rewrite workerLoop_chunks.
Qed.




(** No event removes a result. *)
Lemma workerResume_results_mono aborted w reply run r :
  r ∈ results run -> r ∈ results (workerResume settings aborted w reply run).
Proof.
  intros Hr. unfold workerResume. destruct (workers run !! w) as [[i| |e]|]; try done.
  destruct (translateBatchResult reply); [done|].
  rewrite workerLoop_results. cbn. apply elem_of_app. by left.
Qed.


End ChunkRunFacts.

(** ** Fan-out of the results *)

Lemma fanOutStep_results (d : Dedupe) (st : Cache * list TranslationResult) r :
  (fanOutStep d st r).2 = st.2 ++ fanEntries d r.
Proof.
  unfold fanOutStep, fanEntries.
  destruct (idToKey d !! paragraphId r) as [key|]; [|by rewrite app_nil_r].
  destruct (isEmpty key); [by rewrite app_nil_r | done].
Qed.

Lemma fanOut_results (d : Dedupe) (cache : Cache) translated :
  (fanOut d cache translated).2 = allResults d ++ concat (fanEntries d <$> translated).
Proof.
  unfold fanOut.
  assert (Hgen : forall st : Cache * list TranslationResult,
             (foldl (fanOutStep d) st translated).2
             = st.2 ++ concat (fanEntries d <$> translated)).
  { induction translated as [|r translated IH]; intros st; cbn [foldl].
    - cbn. by rewrite app_nil_r.
    - rewrite IH, fanOutStep_results. cbn [fmap list_fmap concat].
      by rewrite <- app_assoc. }
  apply Hgen.
Qed.

Lemma resultMap_lookup allResults pid :
  resultMap allResults !! pid = last (filter (fun r => paragraphId r = pid) allResults).
Proof.
  unfold resultMap. rewrite mapOfEntries_lookup.
  induction allResults as [|r l IH] using rev_ind; [done|].
  rewrite fmap_app, !filter_app. cbn [fmap list_fmap].
  destruct (decide (paragraphId r = pid)) as [Hr|Hr].
  - rewrite !filter_cons_True by done. rewrite !filter_nil, !last_snoc. done.
  - rewrite !filter_cons_False by done. rewrite !filter_nil, !app_nil_r. done.
Qed.

Lemma last_app_nonempty {A} (l1 l2 : list A) :
  l2 <> [] -> last (l1 ++ l2) = last l2.
Proof.
  destruct l2 as [|x l2 _] using rev_ind; [done|]. intros _.
  by rewrite app_assoc, !last_snoc.
Qed.

Lemma last_elem_of {A} (l : list A) x : last l = Some x -> x ∈ l.
Proof.
  destruct l as [|y l _] using rev_ind; [done|].
  rewrite last_snoc. intros [= ->]. apply elem_of_app. right. by left.
Qed.

Lemma elem_of_concat {A} (x : A) (ls : list (list A)) :
  x ∈ concat ls <-> exists l, x ∈ l /\ l ∈ ls.
Proof.
  induction ls as [|l ls IH]; cbn.
  - split; [by intros ?%elem_of_nil | by intros (? & _ & ?%elem_of_nil)].
  - rewrite elem_of_app, IH. split.
    + intros [Hx | (l' & Hx & Hl')]; [exists l | exists l']; split; try done;
        [by left | by right].
    + intros (l' & Hx & Hl'). apply elem_of_cons in Hl' as [-> | Hl'];
        [by left | right; by exists l'].
Qed.

(** ** [translateScope] under cancellation *)

Section ScopeFacts.
Variable settings : Settings.
Variable hostHasText : ShapeTextTarget -> bool.
Variable slides : list SlideTargets.

Local Abbreviation step := (scopeStep settings hostHasText slides).








End ScopeFacts.

(** ** The mapping of a slide *)

Section MappingFacts.
Variable settings : Settings.
Variable hostHasText : ShapeTextTarget -> bool.
Variable slides : list SlideTargets.

Local Abbreviation step := (scopeStep settings hostHasText slides).







End MappingFacts.

(** ** A failing provider call *)

Section FailureFacts.
Variable settings : Settings.
Variable hostHasText : ShapeTextTarget -> bool.
Variable slides : list SlideTargets.

Local Abbreviation step := (scopeStep settings hostHasText slides).

Lemma malformed_throws reply :
  malformed reply = true -> exists e, translateBatchResult reply = inl e.
Proof.
  destruct reply as [|status message|status [|out| |items]]; try done;
    intros _; by eexists.
Qed.

Lemma scopeStep_failed s e run ev :
  phase s = Failed e run ->
  (exists run', phase (step s ev) = Failed e run') /\ nothingDone s (step s ev).
Proof.
  intros Hph. destruct ev as [| |w reply]; cbn [scopeStep]; rewrite ?Hph.
  - split; [by exists run | by repeat split].
  - split; [by exists run | by repeat split].
  - split; [by eexists | by repeat split].
Qed.

Lemma run_failed events : forall s e run,
  phase s = Failed e run ->
  (exists run', phase (foldl step s events) = Failed e run') /\
  nothingDone s (foldl step s events).
Proof.
  induction events as [|ev events IH]; intros s e run Hph; cbn [foldl].
  - split; [by exists run | by repeat split].
  - destruct (scopeStep_failed s e run ev Hph) as [[run1 Hph1] Hsame1].
    destruct (IH _ _ _ Hph1) as [Hph2 Hsame2]. split; [done|].
    destruct Hsame1 as (?&?&?&?&?&?), Hsame2 as (?&?&?&?&?&?).
    repeat split; congruence.
Qed.

(** A worker that throws makes [translateScope] throw. *)
Lemma failing_reply_fails_scope s i targets d run w k reply e :
  phase s = Translating i targets d run ->
  rejection run = None ->
  workers run !! w = Some (Awaiting k) ->
  translateBatchResult reply = inl e ->
  (exists run', phase (step s (EvProvider w reply)) = Failed e run') /\
  nothingDone s (step s (EvProvider w reply)).
Proof.
  intros Hph Hrej Hw Hres. cbn [scopeStep]. rewrite Hph.
  unfold chunksSettled, settle, workerResume. rewrite Hw, Hres. cbn [rejection].
  rewrite Hrej. split; [by eexists | by repeat split].
Qed.
End FailureFacts.

(** C3, as the code has it. A reply whose payload is empty, is not JSON or
    has no [items] array makes [translateBatch] throw; the worker that
    awaited it throws, [Promise.all] rejects, and [translateScope] throws
    that error to its caller. From then on, whatever happens, no
    translation of the current slide is applied (also those other chunks
    returned), no further slide is extracted and nothing more is reported. *)
Theorem malformed_reply_fails_scope (settings : Settings)
    (hostHasText : ShapeTextTarget -> bool) (slides : list SlideTargets)
    (s : ScopeState) i targets d run w k reply (events : list Event) :
  phase s = Translating i targets d run ->
  rejection run = None ->
  workers run !! w = Some (Awaiting k) ->
  malformed reply = true ->
  let s' := foldl (scopeStep settings hostHasText slides)
                  (scopeStep settings hostHasText slides s (EvProvider w reply)) events in
  exists e run',
    translateBatchResult reply = inl e /\ phase s' = Failed e run' /\ nothingDone s s'.
Proof.
  intros Hph Hrej Hw Hbad. cbv zeta.
  destruct (malformed_throws reply Hbad) as [e He].
  destruct (failing_reply_fails_scope settings hostHasText slides
              s i targets d run w k reply e Hph Hrej Hw He) as [[run1 Hph1] Hsame1].
  destruct (run_failed settings hostHasText slides events _ _ _ Hph1) as [[run2 Hph2] Hsame2].
  exists e, run2. split; [done|]. split; [done|].
  destruct Hsame1 as (?&?&?&?&?&?), Hsame2 as (?&?&?&?&?&?).
  repeat split; congruence.
Qed.

(** C3, as stated, fails. A slide of two chunks followed by another slide:
    the reply to chunk 1 is well-formed, the reply to chunk 2 is not JSON.
    [translateScope] throws; the translation received for chunk 1 is never
    applied and the second slide is never extracted, whatever follows. *)
Lemma malformed_reply_stops_everything :
  let s := runScope (sampleSettings true ModeApply) (fun _ => true)
             [twoChunkSlide; smallSlide]
             [EvHost; EvHost;
              EvProvider 0 (okReply [(js "s0_shape2_p0", js "Bonjour")]);
              EvProvider 1 (HttpOk 200 (OutputNotJSON (js "Sorry, I cannot")));
              EvHost; EvHost; EvHost] in
  sentIds s = [[js "s0_shape2_p0"]; [js "s0_shape2_p1"]] /\
  failedWith s = Some (ErrUnparseable 200 (js "Sorry, I cannot")) /\
  written s = [] /\ mappings s = [] /\ extracted s = [0].
Proof. vm_compute. repeat split. Qed.

Lemma malformed_reply_fails_scope_witness :
  let settings := sampleSettings true ModeApply in
  let step := scopeStep settings (fun _ => true) [smallSlide] in
  let s := runScope settings (fun _ => true) [smallSlide] [EvHost; EvHost] in
  let reply := HttpOk 200 OutputWithoutItems in
  let s' := foldl step (step s (EvProvider 0 reply)) [EvHost; EvAbort] in
  exists e run',
    translateBatchResult reply = inl e /\ phase s' = Failed e run' /\ nothingDone s s'.
Proof.
  cbv zeta.
  set (settings := sampleSettings true ModeApply).
  set (d := dedupe ∅ (buildTranslateItems smallSlide)).
  set (run := startChunks settings false
                (chunkByChars (pending d) defaultMaxChars defaultMaxItems)
                defaultConcurrency).
  apply (malformed_reply_fails_scope settings (fun _ => true) [smallSlide]
           (runScope settings (fun _ => true) [smallSlide] [EvHost; EvHost])
           0 smallSlide d run 0 0 (HttpOk 200 OutputWithoutItems) [EvHost; EvAbort]);
    reflexivity.
Defined.

(** ** Deduplication by fingerprint *)

Lemma translateKey_nonempty item : translateKey item <> [].
Proof. unfold translateKey, JSON_stringify. done. Qed.

Lemma idsWithKey_snoc key items x :
  idsWithKey key (items ++ [x])
  = idsWithKey key items ++ (if decide (translateKey x = key) then [item_paragraphId x] else []).
Proof.
  unfold idsWithKey. rewrite filter_app, fmap_app. f_equal.
  case_decide.
  - by rewrite filter_cons_True.
  - by rewrite filter_cons_False.
Qed.

Ltac split6 := split; [|split; [|split; [|split; [|split]]]].

Lemma dedupeStep_inv (cache : Cache) items d x :
  dedupeInv cache items d ->
  dedupeInv cache (items ++ [x]) (dedupeStep cache d x).
Proof.
  intros (HK & HC & HS & HR & HV & HI). unfold dedupeStep.
  destruct (cache !! translateKey x) as [c|] eqn:Hcache.
  - (* the fingerprint is cached *)
    split6; cbn [pending keyToIds idToKey allResults].
    + intros k. rewrite HK, idsWithKey_snoc.
      destruct (cache !! k) eqn:Hk; [done|].
      case_decide; [congruence | by rewrite app_nil_r].
    + done.
    + intros y Hy. destruct (HS y Hy). split; [|done]. apply elem_of_app. by left.
    + rewrite omap_app, HR. cbn. unfold cachedResult at 3. by rewrite Hcache.
    + done.
    + intros Hnodup y Hy. apply HI; [|done].
      rewrite fmap_app in Hnodup. by apply NoDup_app in Hnodup as [? _].
  - destruct (keyToIds d !! translateKey x) as [ids|] eqn:Hids.
    + (* the fingerprint is already pending *)
      split6; cbn [pending keyToIds idToKey allResults].
      * intros k. rewrite idsWithKey_snoc.
        destruct (decide (translateKey x = k)) as [<-|Hne].
        -- rewrite lookup_insert_eq, Hcache. rewrite HK, Hcache in Hids.
           destruct (idsWithKey (translateKey x) items) as [|i l]; [done|].
           injection Hids as <-. done.
        -- rewrite lookup_insert_ne by done. by rewrite HK, app_nil_r.
      * intros k. rewrite HC.
        destruct (decide (translateKey x = k)) as [<-|Hne].
        -- by rewrite lookup_insert_eq, Hids.
        -- by rewrite lookup_insert_ne.
      * intros y Hy. destruct (HS y Hy). split; [|done]. apply elem_of_app. by left.
      * rewrite omap_app, HR. cbn. unfold cachedResult at 3. rewrite Hcache.
        by rewrite app_nil_r.
      * done.
      * intros Hnodup y Hy. apply HI; [|done].
        rewrite fmap_app in Hnodup. by apply NoDup_app in Hnodup as [? _].
    + (* a new fingerprint *)
      split6; cbn [pending keyToIds idToKey allResults].
      * intros k. rewrite idsWithKey_snoc.
        destruct (decide (translateKey x = k)) as [<-|Hne].
        -- rewrite lookup_insert_eq, Hcache. rewrite HK, Hcache in Hids.
           by destruct (idsWithKey (translateKey x) items).
        -- rewrite lookup_insert_ne by done. by rewrite HK, app_nil_r.
      * intros k. rewrite filter_app, length_app, HC.
        destruct (decide (translateKey x = k)) as [<-|Hne].
        -- rewrite lookup_insert_eq, Hids, filter_cons_True by done. done.
        -- rewrite lookup_insert_ne, filter_cons_False by done.
           rewrite filter_nil. cbn. lia.
      * intros y Hy. apply elem_of_app in Hy as [Hy | Hy].
        -- destruct (HS y Hy). split; [|done]. apply elem_of_app. by left.
        -- apply list_elem_of_singleton in Hy as ->. split; [|done].
           apply elem_of_app. right. by left.
      * rewrite omap_app, HR. cbn. unfold cachedResult at 3. rewrite Hcache.
        by rewrite app_nil_r.
      * intros pid k. destruct (decide (item_paragraphId x = pid)) as [<-|Hne].
        -- rewrite lookup_insert_eq. intros [= <-]. apply translateKey_nonempty.
        -- rewrite lookup_insert_ne by done. apply HV.
      * intros Hnodup y Hy. rewrite fmap_app in Hnodup.
        apply NoDup_app in Hnodup as (Hnodup & Hfresh & _).
        apply elem_of_app in Hy as [Hy | Hy].
        -- rewrite lookup_insert_ne; [by apply HI|].
           intros Heq. apply (Hfresh (item_paragraphId y)).
           ++ apply list_elem_of_fmap. exists y. split; [done|]. by apply HS.
           ++ rewrite <- Heq. by left.
        -- apply list_elem_of_singleton in Hy as ->. by rewrite lookup_insert_eq.
Qed.

Lemma dedupe_inv (cache : Cache) items : dedupeInv cache items (dedupe cache items).
Proof.
  unfold dedupe.
  assert (Hgen : forall rest processed d,
             dedupeInv cache processed d ->
             dedupeInv cache (processed ++ rest) (foldl (dedupeStep cache) d rest)).
  { induction rest as [|x rest IH]; intros processed d Hd; cbn [foldl].
    - by rewrite app_nil_r.
    - replace (processed ++ x :: rest) with ((processed ++ [x]) ++ rest)
        by by rewrite <- app_assoc.
      by apply IH, dedupeStep_inv. }
  apply (Hgen items []).
  split6; cbn; try done.
  - intros k. rewrite lookup_empty. by destruct (cache !! k).
  - intros x Hx. by apply elem_of_nil in Hx.
  - intros _ x Hx. by apply elem_of_nil in Hx.
Qed.

Section FanOutFacts.
Variable cache : Cache.
Variable items : list TranslateBatchItem.
Hypothesis ids_distinct : NoDup (item_paragraphId <$> items).

Lemma cachedResult_id x e : cachedResult cache x = Some e -> paragraphId e = item_paragraphId x.
Proof.
  unfold cachedResult. destruct (cache !! translateKey x); [|done].
  by intros [= <-].
Qed.

Lemma filter_cached_fresh (l : list TranslateBatchItem) pid :
  pid ∉ item_paragraphId <$> l ->
  filter (fun e => paragraphId e = pid) (omap (cachedResult cache) l) = [].
Proof.
  induction l as [|y l IH]; intros Hfresh; [done|].
  rewrite fmap_cons, not_elem_of_cons in Hfresh. destruct Hfresh as [Hy Hl].
  cbn [omap list_omap].
  destruct (cachedResult cache y) as [e|] eqn:He; [|by apply IH].
  apply cachedResult_id in He.
  rewrite filter_cons_False by congruence. by apply IH.
Qed.

Lemma filter_cached_unique x :
  x ∈ items ->
  filter (fun e => paragraphId e = item_paragraphId x) (omap (cachedResult cache) items)
  = match cachedResult cache x with Some e => [e] | None => [] end.
Proof using ids_distinct.
  revert ids_distinct. induction items as [|y l IH]; intros Hnodup Hx.
  { by apply elem_of_nil in Hx. }
  rewrite fmap_cons in Hnodup. apply NoDup_cons in Hnodup as [Hy Hnodup].
  cbn [omap list_omap].
  apply elem_of_cons in Hx as [->|Hx].
  - destruct (cachedResult cache y) as [e|] eqn:He.
    + apply cachedResult_id in He.
      rewrite filter_cons_True by done. by rewrite filter_cached_fresh.
    + by rewrite filter_cached_fresh.
  - assert (Hid : item_paragraphId y <> item_paragraphId x).
    { intros Heq. apply Hy. rewrite Heq. by apply list_elem_of_fmap_2. }
    destruct (cachedResult cache y) as [e|] eqn:He.
    + apply cachedResult_id in He.
      rewrite filter_cons_False by congruence. by apply IH.
    + by apply IH.
Qed.

Lemma filter_ids_fresh (l : list TranslateBatchItem) k pid :
  pid ∉ item_paragraphId <$> l -> filter (fun i => i = pid) (idsWithKey k l) = [].
Proof.
  unfold idsWithKey. induction l as [|y l IH]; intros Hfresh; [done|].
  rewrite fmap_cons, not_elem_of_cons in Hfresh. destruct Hfresh as [Hy Hl].
  destruct (decide (translateKey y = k)).
  - rewrite filter_cons_True by done. rewrite fmap_cons.
    rewrite filter_cons_False by congruence. by apply IH.
  - rewrite filter_cons_False by done. by apply IH.
Qed.

Lemma filter_ids_unique x k :
  x ∈ items ->
  filter (fun i => i = item_paragraphId x) (idsWithKey k items)
  = if decide (translateKey x = k) then [item_paragraphId x] else [].
Proof using ids_distinct.
  revert ids_distinct. unfold idsWithKey.
  induction items as [|y l IH]; intros Hnodup Hx.
  { by apply elem_of_nil in Hx. }
  rewrite fmap_cons in Hnodup. apply NoDup_cons in Hnodup as [Hy Hnodup].
  apply elem_of_cons in Hx as [->|Hx].
  - pose proof (filter_ids_fresh l k _ Hy) as Hfresh. unfold idsWithKey in Hfresh.
    destruct (decide (translateKey y = k)).
    + rewrite filter_cons_True by done. rewrite fmap_cons.
      rewrite filter_cons_True by done. by rewrite Hfresh.
    + rewrite filter_cons_False by done. done.
  - assert (Hid : item_paragraphId y <> item_paragraphId x).
    { intros Heq. apply Hy. rewrite Heq. by apply list_elem_of_fmap_2. }
    destruct (decide (translateKey y = k)).
    + rewrite filter_cons_True by done. rewrite fmap_cons.
      rewrite filter_cons_False by done. by apply IH.
    + rewrite filter_cons_False by done. by apply IH.
Qed.

Lemma filter_fmap_entries (ids : list jsstring) pid runs0 :
  filter (fun e => paragraphId e = pid)
         ((fun i => {| paragraphId := i; translatedRuns := runs0 |}) <$> ids)
  = (fun i => {| paragraphId := i; translatedRuns := runs0 |})
      <$> filter (fun i => i = pid) ids.
Proof.
  induction ids as [|i ids IH]; [done|]. rewrite fmap_cons.
  destruct (decide (i = pid)).
  - rewrite !filter_cons_True by done. by rewrite fmap_cons, IH.
  - rewrite !filter_cons_False by done. done.
Qed.

Variable d : Dedupe.
Hypothesis d_inv : dedupeInv cache items d.

Lemma fanEntries_filter x r :
  x ∈ items ->
  filter (fun e => paragraphId e = item_paragraphId x) (fanEntries d r)
  = if decide (idToKey d !! paragraphId r = Some (translateKey x))
    then match cache !! translateKey x with
         | None => [{| paragraphId := item_paragraphId x; translatedRuns := translatedRuns r |}]
         | Some _ => []
         end
    else [].
Proof using ids_distinct d_inv.
  intros Hx. destruct d_inv as (HK & _ & _ & _ & HV & _). unfold fanEntries.
  destruct (idToKey d !! paragraphId r) as [k|] eqn:Hk.
  2: { by rewrite decide_False. }
  assert (Hempty : isEmpty k = false).
  { specialize (HV _ _ Hk). by destruct k. }
  rewrite Hempty, HK.
  destruct (decide (k = translateKey x)) as [->|Hne].
  - rewrite decide_True by done.
    destruct (cache !! translateKey x); [done|].
    pose proof (filter_ids_unique x (translateKey x) Hx) as Hids.
    rewrite decide_True in Hids by done.
    destruct (idsWithKey (translateKey x) items) as [|i l] eqn:Hl; [done|].
    cbn [default]. etrans; [apply filter_fmap_entries|].
    exact (f_equal (fmap (fun i => {| paragraphId := i;
                                      translatedRuns := translatedRuns r |})) Hids).
  - rewrite decide_False by congruence.
    destruct (cache !! k); [done|].
    pose proof (filter_ids_unique x k Hx) as Hids.
    rewrite decide_False in Hids by congruence.
    destruct (idsWithKey k items) as [|i l] eqn:Hl; [done|].
    cbn [default]. etrans; [apply filter_fmap_entries|].
    exact (f_equal (fmap (fun i => {| paragraphId := i;
                                      translatedRuns := translatedRuns r |})) Hids).
Qed.

Lemma fanned_filter x translated :
  x ∈ items ->
  filter (fun e => paragraphId e = item_paragraphId x) (concat (fanEntries d <$> translated))
  = match cache !! translateKey x with
    | None => (fun r => {| paragraphId := item_paragraphId x;
                           translatedRuns := translatedRuns r |})
                <$> answersFor d (translateKey x) translated
    | Some _ => []
    end.
Proof using ids_distinct d_inv.
  intros Hx. unfold answersFor.
  induction translated as [|r translated IH].
  { by destruct (cache !! translateKey x). }
  cbn [fmap list_fmap concat]. rewrite filter_app, IH, fanEntries_filter by done.
  destruct (decide (idToKey d !! paragraphId r = Some (translateKey x))).
  - rewrite filter_cons_True by done. by destruct (cache !! translateKey x).
  - rewrite filter_cons_False by done. done.
Qed.

(** The entry of the mapping for an item: the cached runs if its
    fingerprint was cached, else the runs of the last result the provider
    returned for the fingerprint, if any. *)
Lemma resultMap_item x translated :
  x ∈ items ->
  translatedRuns <$> resultMap (fanOut d cache translated).2 !! item_paragraphId x
  = match cache !! translateKey x with
    | Some c => Some c
    | None => translatedRuns <$> last (answersFor d (translateKey x) translated)
    end.
Proof using ids_distinct d_inv.
  intros Hx. rewrite resultMap_lookup, fanOut_results, filter_app, fanned_filter by done.
  destruct d_inv as (_ & _ & _ & HR & _ & _).
  rewrite HR, filter_cached_unique by done. unfold cachedResult.
  destruct (cache !! translateKey x) as [c|]; [done|].
  cbn [fmap option_fmap option_map app]. rewrite fmap_last.
  by destruct (last _).
Qed.

(** The cache after the second loop. *)
Lemma fanOut_cache k translated :
  (fanOut d cache translated).1 !! k
  = match last (answersFor d k translated) with
    | Some r => Some (translatedRuns r)
    | None => cache !! k
    end.
Proof using d_inv.
  destruct d_inv as (_ & _ & _ & _ & HV & _). unfold fanOut, answersFor.
  induction translated as [|r translated IH] using rev_ind; [done|].
  rewrite foldl_snoc, filter_app. unfold fanOutStep at 1.
  destruct (idToKey d !! paragraphId r) as [key|] eqn:Hkey.
  - assert (Hempty : isEmpty key = false).
    { specialize (HV _ _ Hkey). by destruct key. }
    rewrite Hempty. cbn [fst]. destruct (decide (key = k)) as [->|Hne].
    + rewrite lookup_insert_eq, filter_cons_True by done.
      by rewrite filter_nil, last_snoc.
    + rewrite lookup_insert_ne, filter_cons_False by congruence.
      by rewrite filter_nil, app_nil_r.
  - rewrite filter_cons_False by (rewrite Hkey; done).
    by rewrite filter_nil, app_nil_r.
Qed.
End FanOutFacts.

(** ** Each chunk is sent at most once *)

Section RequestFacts.
Variable settings : Settings.

Lemma claimFrom_spec rest : forall i,
  let '(next, sent, _) := claimFrom settings rest i in
  i < next /\ forall j, sent = Some j -> i <= j /\ j < next /\ j < i + length rest.
Proof.
  induction rest as [|chunk rest IH]; intros i; cbn [claimFrom].
  - split; [lia | done].
  - destruct (isEmpty (apiKey settings)); [split; [lia | done]|].
    destruct (isEmpty chunk).
    + specialize (IH (S i)). destruct (claimFrom settings rest (S i)) as [[next sent] st].
      destruct IH as [Hnext Hsent]. split; [lia|].
      intros j Hj. destruct (Hsent j Hj) as (? & ? & ?). cbn [length]. lia.
    + split; [lia|]. intros j [= <-]. cbn [length]. lia.
Qed.

Lemma workerLoop_requestsInv aborted w run :
  requestsInv run -> requestsInv (workerLoop settings aborted w run).
Proof.
  intros [Hnodup Hall]. unfold workerLoop. destruct aborted; [done|].
  pose proof (claimFrom_spec (drop (cursor run) (chunks run)) (cursor run)) as Hspec.
  destruct (claimFrom _ _ _) as [[next sent] st]. destruct Hspec as [Hnext Hsent].
  unfold requestsInv. cbn [requests cursor chunks].
  destruct sent as [j|].
  - destruct (Hsent j eq_refl) as (Hj1 & Hj2 & Hj3). rewrite length_drop in Hj3.
    split.
    + apply NoDup_app. split; [done|]. split; [|apply NoDup_singleton].
      intros i Hi Hij. apply list_elem_of_singleton in Hij as ->.
      rewrite Forall_forall in Hall. destruct (Hall _ Hi). lia.
    + apply Forall_app. split.
      * eapply Forall_impl; [exact Hall|]. cbn. intros i [? ?]. lia.
      * constructor; [|constructor].
        rewrite Forall_forall in Hall. split; [lia|].
        destruct (decide (cursor run <= length (chunks run))); lia.
  - rewrite app_nil_r. split; [done|].
    eapply Forall_impl; [exact Hall|]. cbn. intros i [? ?]. lia.
Qed.

Lemma workerResume_requestsInv aborted w reply run :
  requestsInv run -> requestsInv (workerResume settings aborted w reply run).
Proof.
  intros Hinv. unfold workerResume. destruct (workers run !! w) as [[i| |e]|]; try done.
  destruct (translateBatchResult reply); [done|].
  by apply workerLoop_requestsInv.
Qed.

Lemma startChunks_requestsInv aborted chunks0 concurrency :
  requestsInv (startChunks settings aborted chunks0 concurrency).
Proof.
  unfold startChunks.
  assert (Hgen : forall ws run, requestsInv run ->
             requestsInv (foldl (fun run w => workerLoop settings aborted w run) run ws)).
  { induction ws as [|w ws IH]; intros run Hrun; cbn [foldl]; [done|].
    by apply IH, workerLoop_requestsInv. }
  apply Hgen. split; [apply NoDup_nil_2 | constructor].
Qed.

(** [translateChunks] never sends a chunk twice. *)
Lemma reachableRun_requests chunks0 run :
  reachableRun settings chunks0 run -> requestsInv run.
Proof.
  induction 1 as [aborted concurrency | run aborted w reply _ IH].
  - apply startChunks_requestsInv.
  - by apply workerResume_requestsInv.
Qed.
End RequestFacts.

(** *** Every chunk is sent once when nothing interrupts *)

Section SteadyFacts.
Variable settings : Settings.
Hypothesis hasKey : isEmpty (apiKey settings) = false.

Lemma nonEmptyIndices_app {A} (l1 l2 : list (list A)) : forall from,
  nonEmptyIndices from (l1 ++ l2)
  = nonEmptyIndices from l1 ++ nonEmptyIndices (from + length l1) l2.
Proof.
  induction l1 as [|c l1 IH]; intros from; cbn [nonEmptyIndices app length].
  - by rewrite Nat.add_0_r.
  - rewrite IH, Nat.add_succ_comm. by destruct (isEmpty c).
Qed.

Lemma nonEmptyIndices_all {A} (l : list (list A)) : forall from,
  Forall (fun chunk => chunk <> []) l -> nonEmptyIndices from l = seq from (length l).
Proof.
  induction l as [|c l IH]; intros from Hall; [done|].
  apply Forall_cons in Hall as [Hc Hall]. cbn [nonEmptyIndices length seq].
  destruct c; [done|]. cbn [isEmpty]. by rewrite IH.
Qed.

(** A claim reads [n >= 1] indices from the cursor on, sends the request for
    the non-empty chunk among them if there is one, and the worker returns
    only if these reach past the end. *)
Lemma claimFrom_steady rest : forall i,
  exists n, 1 <= n /\
    (claimFrom settings rest i).1.1 = i + n /\
    nonEmptyIndices i (take n rest)
    = match (claimFrom settings rest i).1.2 with Some j => [j] | None => [] end /\
    ((claimFrom settings rest i).2 = Returned -> length rest < n).
Proof using hasKey.
  induction rest as [|chunk rest IH]; intros i; cbn [claimFrom].
  - exists 1. cbn. repeat split; lia.
  - rewrite hasKey. destruct chunk as [|x chunk]; cbn [isEmpty].
    + destruct (IH (S i)) as (n & Hn & Hnext & Hsent & Hret).
      exists (S n). cbn [take nonEmptyIndices isEmpty length].
      repeat split; [lia | rewrite Hnext; lia | done |]. intros Hr. specialize (Hret Hr). lia.
    + exists 1. cbn. repeat split; [lia | lia | done].
Qed.

Lemma workerLoop_steady chunks0 k k' w run :
  (forall v, v < k' -> v < k \/ v = w) ->
  steadyInv chunks0 k run -> steadyInv chunks0 k' (workerLoop settings false w run).
Proof using hasKey.
  intros Hk (Hchunks & Hreq & Hret). unfold workerLoop.
  destruct (claimFrom_steady (drop (cursor run) (chunks run)) (cursor run))
    as (n & Hn & Hnext & Hsent & Hdone).
  destruct (claimFrom _ _ _) as [[next sent] st]. cbn [fst snd] in *.
  unfold steadyInv. cbn [chunks requests cursor workers]. subst next.
  split; [done|]. split.
  - rewrite Hreq, <- Hsent, Hchunks.
    rewrite <- (take_drop (cursor run) (take (cursor run + n) chunks0)).
    rewrite take_take, Nat.min_l by lia.
    rewrite nonEmptyIndices_app. f_equal.
    rewrite skipn_firstn_comm.
    replace (cursor run + n - cursor run) with n by lia.
    destruct (decide (cursor run <= length chunks0)) as [Hle|Hgt].
    + by rewrite length_take, Nat.min_l.
    + rewrite drop_ge by lia. by rewrite take_nil.
  - intros v Hv Hlook. destruct (decide (v = w)) as [->|Hne].
    + destruct (decide (w < length (workers run))) as [Hlt|Hge].
      * rewrite list_lookup_insert_eq in Hlook by done. injection Hlook as ->.
        specialize (Hdone eq_refl). rewrite length_drop, Hchunks in Hdone. lia.
      * apply lookup_lt_Some in Hlook. rewrite length_insert in Hlook. lia.
    + rewrite list_lookup_insert_ne in Hlook by done.
      destruct (Hk v Hv) as [Hvk|?]; [|done]. specialize (Hret v Hvk Hlook). lia.
Qed.

Lemma workerLoop_workers aborted w run :
  length (workers (workerLoop settings aborted w run)) = length (workers run).
Proof.
  unfold workerLoop. destruct aborted; cbn [workers]; [by rewrite length_insert|].
  destruct (claimFrom _ _ _) as [[next sent] st]. cbn [workers]. by rewrite length_insert.
Qed.

Lemma startChunks_steady chunks0 concurrency :
  let run := startChunks settings false chunks0 concurrency in
  steadyInv chunks0 (length (workers run)) run /\
  length (workers run) = Nat.min concurrency (length chunks0).
Proof using hasKey.
  cbv zeta. unfold startChunks.
  set (count := Nat.min concurrency (length chunks0)).
  set (loop := fun run w => workerLoop settings false w run).
  assert (Hgen : forall m k run,
             steadyInv chunks0 k run -> length (workers run) = count ->
             steadyInv chunks0 (k + m) (foldl loop run (seq k m)) /\
             length (workers (foldl loop run (seq k m))) = count).
  { induction m as [|m IH]; intros k run Hinv Hlen; cbn [seq foldl].
    - by rewrite Nat.add_0_r.
    - replace (k + S m) with (S k + m) by lia. apply IH.
      + apply (workerLoop_steady chunks0 k); [intros v ?; lia | done].
      + unfold loop. by rewrite workerLoop_workers. }
  destruct (Hgen count 0 {| chunks := chunks0; cursor := 0; results := [];
                            workers := replicate count Returned;
                            requests := []; rejection := None |}) as [Hinv Hlen].
  - unfold steadyInv. cbn. repeat split. lia.
  - cbn. by rewrite length_replicate.
  - rewrite Hlen. done.
Qed.

Lemma workerResume_steady chunks0 w reply run :
  steadyInv chunks0 (length (workers run)) run ->
  steadyInv chunks0 (length (workers (workerResume settings false w reply run)))
            (workerResume settings false w reply run) /\
  length (workers (workerResume settings false w reply run)) = length (workers run).
Proof using hasKey.
  intros Hinv. unfold workerResume.
  destruct (workers run !! w) as [[i| |e]|] eqn:Hw; try done.
  destruct (translateBatchResult reply) as [e|res].
  - cbn [workers]. rewrite length_insert. split; [|done].
    destruct Hinv as (Hchunks & Hreq & Hret). unfold steadyInv. cbn.
    split; [done|]. split; [done|]. intros v Hv Hlook.
    destruct (decide (v = w)) as [->|Hne].
    + rewrite list_lookup_insert_eq in Hlook by done. done.
    + rewrite list_lookup_insert_ne in Hlook by done. by apply (Hret v).
  - rewrite workerLoop_workers. cbn [workers]. split; [|done].
    apply (workerLoop_steady chunks0 (length (workers run))); [intros v ?; by left|].
    exact Hinv.
Qed.

Lemma steadyRun_inv chunks0 run :
  steadyRun settings chunks0 run ->
  steadyInv chunks0 (length (workers run)) run /\
  (chunks0 <> [] -> workers run <> []).
Proof using hasKey.
  induction 1 as [concurrency Hpos | run w reply _ [IH Hne]].
  - destruct (startChunks_steady chunks0 concurrency) as [Hinv Hlen]. split; [done|].
    intros Hchunks Hnil. rewrite Hnil in Hlen. cbn in Hlen.
    destruct chunks0; [done|]. cbn in Hlen. lia.
  - destruct (workerResume_steady chunks0 w reply run IH) as [Hinv Hlen]. split; [done|].
    intros Hchunks Hnil. rewrite Hnil in Hlen. cbn in Hlen.
    specialize (Hne Hchunks). by destruct (workers run).
Qed.

(** When [translateChunks] resolves, the requests sent are exactly those for
    the non-empty chunks, one each, in the order of the chunks. *)
Lemma steadyRun_resolved chunks0 run translated :
  steadyRun settings chunks0 run -> settle run = ResolvedWith translated ->
  requests run = nonEmptyIndices 0 chunks0.
Proof using hasKey.
  intros Hrun Hsettle. destruct (steadyRun_inv chunks0 run Hrun) as [(_ & Hreq & Hret) Hne].
  rewrite Hreq. destruct chunks0 as [|c chunks0]; [by rewrite take_nil|].
  unfold settle in Hsettle. destruct (rejection run); [done|].
  destruct (forallb hasReturned (workers run)) eqn:Hall; [|done].
  destruct (workers run) as [|st ws] eqn:Hws; [by destruct Hne|].
  cbn [forallb] in Hall. apply andb_true_iff in Hall as [Hst _].
  destruct st; try done.
  rewrite take_ge; [done|]. specialize (Hret 0). cbn [length lookup] in Hret.
  assert (length (c :: chunks0) < cursor run); [|lia].
  apply Hret; [lia | done].
Qed.
End SteadyFacts.

(** Among the items of a slide, whose paragraph ids are distinct, let two
    have the same ordered run texts. They have the same fingerprint.
    Exactly one item with that fingerprint is in the chunks sent for the
    slide if the fingerprint is not cached and none if it is;
    [translateChunks] never sends a chunk twice, and when it resolves, with
    an API key and without cancellation, it has sent every chunk once: so
    one provider call carries the fingerprint. Whatever the provider
    returns, the two paragraph ids get the same [translatedRuns] in the
    mapping of the slide: those of the cache for a cached fingerprint, else
    those of the last result returned for the queued item, which are also
    written to the cache for the slides that follow. *)
Lemma same_slide_items_once (settings : Settings) (cache : Cache)
    (items : list TranslateBatchItem) (a b : TranslateBatchItem)
    (translated : list TranslationResult) :
  NoDup (item_paragraphId <$> items) -> a ∈ items -> b ∈ items ->
  itext <$> item_runs a = itext <$> item_runs b ->
  let d := dedupe cache items in
  let chunks := chunkByChars (pending d) defaultMaxChars defaultMaxItems in
  let key := translateKey a in
  let out := fanOut d cache translated in
  let map := resultMap out.2 in
  translateKey b = key /\
  length (filter (fun x => translateKey x = key) (concat chunks))
  = match cache !! key with Some _ => 0 | None => 1 end /\
  (forall run, reachableRun settings chunks run -> NoDup (requests run)) /\
  (forall run res, isEmpty (apiKey settings) = false -> steadyRun settings chunks run ->
                   settle run = ResolvedWith res -> requests run = seq 0 (length chunks)) /\
  translatedRuns <$> map !! item_paragraphId a = translatedRuns <$> map !! item_paragraphId b /\
  (forall c, cache !! key = Some c ->
             translatedRuns <$> map !! item_paragraphId a = Some c) /\
  (forall p r, p ∈ pending d -> translateKey p = key ->
               r ∈ translated -> paragraphId r = item_paragraphId p ->
     exists r', r' ∈ translated /\
       translatedRuns <$> map !! item_paragraphId a = Some (translatedRuns r') /\
       translatedRuns <$> map !! item_paragraphId b = Some (translatedRuns r') /\
       out.1 !! key = Some (translatedRuns r')).
Proof.
  intros Hnodup Ha Hb Htexts. cbv zeta.
  pose proof (dedupe_inv cache items) as Hinv.
  assert (Hkey : translateKey b = translateKey a).
  { unfold translateKey. by rewrite Htexts. }
  pose proof (resultMap_item cache items Hnodup _ Hinv a translated Ha) as Hmap_a.
  pose proof (resultMap_item cache items Hnodup _ Hinv b translated Hb) as Hmap_b.
  rewrite Hkey in Hmap_b.
  destruct Hinv as (HK & HC & HS & HR & HV & HI).
  split; [done|]. split; [|split; [|split; [|split; [|split]]]].
  - destruct (chunkByChars_default_good (pending (dedupe cache items))) as [-> _].
    rewrite HC, HK. destruct (cache !! translateKey a); [done|].
    assert (Hin : item_paragraphId a ∈ idsWithKey (translateKey a) items).
    { unfold idsWithKey. apply list_elem_of_fmap_2, list_elem_of_filter. done. }
    destruct (idsWithKey (translateKey a) items); [by apply elem_of_nil in Hin | done].
  - intros run Hrun. by apply (reachableRun_requests settings _ run) in Hrun as [? _].
  - intros run res Hkey' Hrun Hres.
    rewrite (steadyRun_resolved settings Hkey' _ run res Hrun Hres).
    apply nonEmptyIndices_all.
    destruct (chunkByChars_default_good (pending (dedupe cache items))) as [_ Hgood].
    eapply Forall_impl; [exact Hgood|]. by intros chunk [? _].
  - by rewrite Hmap_a, Hmap_b.
  - intros c Hc. by rewrite Hmap_a, Hc.
  - intros p r Hp Hpkey Hr Hid.
    destruct (HS p Hp) as [_ Huncached]. rewrite Hpkey in Huncached.
    assert (Hanswer : r ∈ answersFor (dedupe cache items) (translateKey a) translated).
    { apply list_elem_of_filter. split; [|done]. rewrite Hid, <- Hpkey. by apply HI. }
    destruct (last (answersFor (dedupe cache items) (translateKey a) translated))
      as [r'|] eqn:Hlast.
    2: { apply last_None in Hlast. rewrite Hlast in Hanswer. by apply elem_of_nil in Hanswer. }
    exists r'. split.
    { apply last_elem_of in Hlast. by apply list_elem_of_filter in Hlast as [_ ?]. }
    rewrite Hmap_a, Hmap_b, Huncached.
    rewrite (fanOut_cache cache items (dedupe cache items) (dedupe_inv cache items)).
    by rewrite Hlast.
Qed.

(** ** Non-translatable content *)




Lemma NoDup_fmap_eq {A B} (f : A -> B) (l : list A) x y :
  NoDup (f <$> l) -> x ∈ l -> y ∈ l -> f x = f y -> x = y.
Proof.
  induction l as [|z l IH]; intros Hnodup Hx Hy Hf; [by apply elem_of_nil in Hx|].
  rewrite fmap_cons in Hnodup. apply NoDup_cons in Hnodup as [Hz Hnodup].
  apply elem_of_cons in Hx as [->|Hx]; apply elem_of_cons in Hy as [->|Hy]; try done.
  - exfalso. apply Hz. rewrite Hf. by apply list_elem_of_fmap_2.
  - exfalso. apply Hz. rewrite <- Hf. by apply list_elem_of_fmap_2.
  - by apply IH.
Qed.


Lemma idsWithKey_subset k items pid :
  pid ∈ idsWithKey k items -> pid ∈ item_paragraphId <$> items.
Proof.
  unfold idsWithKey. intros (x & -> & Hx)%list_elem_of_fmap.
  apply list_elem_of_filter in Hx as [_ Hx]. by apply list_elem_of_fmap_2.
Qed.

(** The mapping of a slide has entries for paragraph ids of its items only. *)
Lemma resultMap_ids (cache : Cache) items translated pid :
  is_Some (resultMap (fanOut (dedupe cache items) cache translated).2 !! pid) ->
  pid ∈ item_paragraphId <$> items.
Proof.
  destruct (dedupe_inv cache items) as (HK & _ & _ & HR & _ & _).
  rewrite resultMap_lookup, fanOut_results. intros [e He].
  apply last_elem_of, list_elem_of_filter in He as [<- He].
  apply elem_of_app in He as [He | He].
  - rewrite HR in He. apply list_elem_of_omap in He as (x & Hx & He).
    apply cachedResult_id in He. rewrite He. by apply list_elem_of_fmap_2.
  - apply elem_of_concat in He as (l & He & Hl).
    apply list_elem_of_fmap in Hl as (r & -> & _). unfold fanEntries in He.
    destruct (idToKey _ !! paragraphId r) as [k|]; [|by apply elem_of_nil in He].
    destruct (isEmpty k); [by apply elem_of_nil in He|].
    apply list_elem_of_fmap in He as (i & -> & Hi). cbn.
    rewrite HK in Hi. destruct (cache !! k); [by apply elem_of_nil in Hi|].
    destruct (idsWithKey k items) as [|j l] eqn:Hids; [by apply elem_of_nil in Hi|].
    cbn [default] in Hi. rewrite <- Hids in Hi. by eapply idsWithKey_subset.
Qed.






(* ===================================================================== *)
(** * Part III. Further properties of the code                            *)
(* ===================================================================== *)

(** ** More on [trim] and [preserveWhitespace] *)

Lemma trimStart_ws_app pre s : allWhitespace pre -> trimStart (pre ++ s) = trimStart s.
Proof. induction 1 as [|c pre Hc _ IH]; cbn [app trimStart]; [done|]. by rewrite Hc. Qed.

Lemma trimEnd_ws s : allWhitespace s -> trimEnd s = [].
Proof.
  induction 1 as [|c s Hc _ IH]; cbn [trimEnd]; [done|]. by rewrite IH, Hc.
Qed.

Lemma trimEnd_app_ws s suf : allWhitespace suf -> trimEnd (s ++ suf) = trimEnd s.
Proof.
  intros Hsuf. induction s as [|c s IH]; cbn [app trimEnd].
  - by apply trimEnd_ws.
  - by rewrite IH.
Qed.

Lemma trim_app_ws s suf : allWhitespace suf -> trim (s ++ suf) = trim s.
Proof.
  intros Hsuf. unfold trim. induction s as [|c s IH]; cbn [app trimStart].
  - rewrite <- (app_nil_r suf), trimStart_ws_app by done. done.
  - destruct (isWhiteSpace c); [done|].
    by rewrite (app_comm_cons s suf c), trimEnd_app_ws.
Qed.

(** Whitespace around a text does not change what [trim] returns. *)
Lemma trim_ws_around pre s suf :
  allWhitespace pre -> allWhitespace suf -> trim (pre ++ s ++ suf) = trim s.
Proof.
  intros Hpre Hsuf. unfold trim. rewrite trimStart_ws_app by done.
  by apply trim_app_ws.
Qed.

Lemma trimStart_id s :
  (forall c, head s = Some c -> isWhiteSpace c = false) -> trimStart s = s.
Proof. destruct s as [|c s]; [done|]. intros Hc. cbn. by rewrite (Hc c eq_refl). Qed.

Lemma trimEnd_id s :
  (forall c, last s = Some c -> isWhiteSpace c = false) -> trimEnd s = s.
Proof.
  induction s as [|c s IH]; [done|]. intros Hlast. cbn [trimEnd].
  destruct s as [|d s].
  - cbn. by rewrite (Hlast c eq_refl).
  - rewrite IH; [done|]. intros c' Hc'. apply Hlast. by rewrite last_cons_cons.
Qed.

Lemma trim_trim s : trim (trim s) = trim s.
Proof.
  destruct (trim_spec s) as (_ & _ & _ & _ & _ & Hhead & Hlast).
  unfold trim at 1. rewrite trimStart_id by done. by apply trimEnd_id.
Qed.

Lemma longestPrefix_trimStart s : s = longestPrefix isWhiteSpace s ++ trimStart s.
Proof.
  induction s as [|c s IH]; cbn [longestPrefix trimStart]; [done|].
  destruct (isWhiteSpace c); [|done]. cbn. by rewrite <- IH.
Qed.

Lemma trailing_trimEnd s :
  s = trimEnd s ++ default [] (matchTrailingPlus isWhiteSpace s).
Proof.
  induction s as [|c s IH]; [done|].
  cbn [matchTrailingPlus].
  destruct (allIn isWhiteSpace (c :: s)) eqn:Hall.
  - apply allIn_Forall in Hall. by rewrite trimEnd_ws.
  - cbn [trimEnd]. destruct (trimEnd s) as [|d t] eqn:Ht.
    + cbn [app] in IH. destruct (isWhiteSpace c) eqn:Hc.
      * exfalso. cbn [allIn] in Hall. rewrite Hc in Hall.
        destruct (matchTrailingPlus_spec isWhiteSpace s) as (_ & Hws & _).
        cbv zeta in Hws. rewrite <- IH in Hws. apply allIn_Forall in Hws. congruence.
      * cbn. by rewrite <- IH.
    + cbn [app]. rewrite <- app_comm_cons in IH. by rewrite <- IH.
Qed.

Lemma matchTrailingPlus_trimStart s :
  allIn isWhiteSpace s = false ->
  matchTrailingPlus isWhiteSpace (trimStart s) = matchTrailingPlus isWhiteSpace s.
Proof.
  induction s as [|c s IH]; [done|]. intros Hall.
  cbn [trimStart]. destruct (isWhiteSpace c) eqn:Hc; [|done].
  cbn [matchTrailingPlus]. rewrite Hall. apply IH.
  cbn [allIn] in Hall. by rewrite Hc in Hall.
Qed.

(** X1. [preserveWhitespace] gives the same result when it is applied again
    to its own result, and a text that has a character other than
    whitespace is what it returns when the translation is the text itself. *)
Theorem preserveWhitespace_idempotent (original translated : jsstring) :
  preserveWhitespace original (preserveWhitespace original translated)
  = preserveWhitespace original translated /\
  (allIn isWhiteSpace original = false -> preserveWhitespace original original = original).
Proof.
  unfold preserveWhitespace. cbv zeta. split.
  - do 2 f_equal. rewrite trim_ws_around, trim_trim; [done| |].
    + rewrite matchLeadingPlus_default. apply longestPrefix_all.
    + by destruct (matchTrailingPlus_spec isWhiteSpace original) as (_ & ? & _).
  - intros Hall. rewrite matchLeadingPlus_default.
    rewrite (longestPrefix_trimStart original) at 4. f_equal.
    rewrite <- (matchTrailingPlus_trimStart original Hall).
    unfold trim. by rewrite <- trailing_trimEnd.
Qed.

Lemma longestPrefix_ws_app pre s :
  allWhitespace pre ->
  longestPrefix isWhiteSpace (pre ++ s) = pre ++ longestPrefix isWhiteSpace s.
Proof.
  induction 1 as [|c pre Hc _ IH]; cbn [app longestPrefix]; [done|]. by rewrite Hc, IH.
Qed.

Lemma trailing_unique a suf c :
  last a = Some c -> isWhiteSpace c = false -> allWhitespace suf ->
  default [] (matchTrailingPlus isWhiteSpace (a ++ suf)) = suf.
Proof.
  intros Hlast Hc Hsuf. pose proof (trailing_trimEnd (a ++ suf)) as Hsplit.
  rewrite trimEnd_app_ws, trimEnd_id in Hsplit by (done || congruence).
  by apply app_inv_head in Hsplit.
Qed.

(** A translation applied to its own result gives that result again, when
    the result is still a text to translate. *)
Lemma preserveWhitespace_again original translated :
  isNonTranslatable (preserveWhitespace original translated) = false ->
  preserveWhitespace (preserveWhitespace original translated) translated
  = preserveWhitespace original translated.
Proof.
  intros Hnt. unfold preserveWhitespace in *. cbv zeta in *.
  rewrite !matchLeadingPlus_default in *.
  set (pre := longestPrefix isWhiteSpace original) in *.
  set (suf := default [] (matchTrailingPlus isWhiteSpace original)) in *.
  assert (Hpre : allWhitespace pre) by apply longestPrefix_all.
  assert (Hsuf : allWhitespace suf)
    by by destruct (matchTrailingPlus_spec isWhiteSpace original) as (_ & ? & _).
  destruct (trim_spec translated) as (_ & _ & _ & _ & _ & Hhead & Hlast).
  destruct (trim translated) as [|c core] eqn:Hcore.
  - exfalso. cbn [app] in Hnt. destruct (pre ++ suf) as [|x l] eqn:Hl; [done|].
    rewrite isNonTranslatable_whitespace in Hnt; [done | done |].
    rewrite <- Hl. by apply Forall_app.
  - f_equal; [|f_equal].
    + rewrite longestPrefix_ws_app by done. cbn [app longestPrefix].
      rewrite (Hhead c eq_refl). by rewrite app_nil_r.
    + destruct (last (c :: core)) as [z|] eqn:Hz; [|by apply last_None in Hz].
      rewrite (app_assoc pre). apply (trailing_unique _ _ z); [|by apply Hlast|done].
      rewrite last_app, Hz. done.
Qed.

(** X2. Applying a list of translated runs to the paragraph it has already
    been applied to changes nothing. *)
Theorem applyRunTranslations_idempotent (paragraph : Paragraph)
    (translatedRuns : list IndexedText) :
  applyRunTranslations (applyRunTranslations paragraph translatedRuns) translatedRuns
  = applyRunTranslations paragraph translatedRuns.
Proof.
  assert (Hruns : runs (applyRunTranslations (applyRunTranslations paragraph translatedRuns)
                          translatedRuns)
                  = runs (applyRunTranslations paragraph translatedRuns)).
  { apply list_eq. intros i. rewrite applyRunTranslations_lookup.
    rewrite applyRunTranslations_lookup.
    destruct (runs paragraph !! i) as [r|]; [|done]. cbn [fmap option_fmap option_map].
    f_equal. destruct (isNonTranslatable (text r)) eqn:Hr; [by rewrite Hr|].
    destruct (translationFor i translatedRuns) as [t|]; [|by rewrite Hr].
    cbn [text font].
    destruct (isNonTranslatable (preserveWhitespace (text r) t)) eqn:Hnt; [done|].
    by rewrite preserveWhitespace_again. }
  unfold applyRunTranslations at 1 3. unfold applyRunTranslations at 1 in Hruns.
  cbn [runs id originalCharCount paragraphFormat] in *. by rewrite Hruns.
Qed.

(** ** Which paragraphs and cells are sent *)

Lemma allIn_app cls a b : allIn cls (a ++ b) = allIn cls a && allIn cls b.
Proof. induction a as [|c a IH]; cbn; [done|]. by destruct (cls c). Qed.

(** [isNonTranslatable] holds of the texts whose code units are all
    whitespace, digits or protected symbols; the first two tests of the
    source are cases of the third. *)
Lemma isNonTranslatable_allIn s : isNonTranslatable s = allIn isProtectedChar s.
Proof.
  unfold isNonTranslatable. case_bool_decide as Hs; [by subst|].
  destruct s as [|c s]; [done|]. cbn [testAllPlus].
  destruct (allIn isWhiteSpace (c :: s)) eqn:Hws; [|by destruct (allIn isProtectedChar _)].
  symmetry. apply allIn_Forall. apply allIn_Forall in Hws.
  eapply Forall_impl; [exact Hws|]. intros x Hx. unfold isProtectedChar. by rewrite Hx.
Qed.

Lemma isSkippable_concat rs :
  isSkippable rs = isNonTranslatable (concat (itext <$> rs)).
Proof.
  rewrite isNonTranslatable_allIn. unfold isSkippable.
  induction rs as [|r rs IH]; cbn; [done|].
  by rewrite allIn_app, IH, isNonTranslatable_allIn.
Qed.

Lemma mapi_texts {A} (textOf : A -> jsstring) (l : list A) :
  itext <$> mapi (fun r idx => {| index := Z.of_nat idx; itext := textOf r |}) l
  = textOf <$> l.
Proof.
  unfold mapi. apply list_eq. intros i.
  rewrite !list_lookup_fmap, list_lookup_imap. by destruct (l !! i).
Qed.

Lemma mapi_indices {A} (textOf : A -> jsstring) (l : list A) :
  index <$> mapi (fun r idx => {| index := Z.of_nat idx; itext := textOf r |}) l
  = Z.of_nat <$> seq 0 (length l).
Proof.
  unfold mapi. apply list_eq. intros i.
  rewrite !list_lookup_fmap, list_lookup_imap.
  destruct (l !! i) eqn:Hi.
  - cbn. rewrite lookup_seq_lt; [done|]. by eapply lookup_lt_Some.
  - cbn. rewrite lookup_seq_ge; [done|]. by apply lookup_ge_None.
Qed.

(** X3. Whether a paragraph or a table cell is sent depends on its whole
    text only, not on how the text is cut into runs: every item built has a
    text that is not non-translatable and runs numbered from 0 in order, and
    every paragraph or cell whose concatenated run texts are not
    non-translatable has an item, with its id, its character count and all
    its run texts. *)
Theorem translatable_blocks_are_sent (targets : SlideTargets) :
  (forall item, item ∈ buildTranslateItems targets ->
     isNonTranslatable (concat (itext <$> item_runs item)) = false /\
     index <$> item_runs item = Z.of_nat <$> seq 0 (length (item_runs item))) /\
  (forall t p, t ∈ shapeTextTargets targets -> p ∈ paragraphs t ->
     isNonTranslatable (paragraphText p) = false ->
     exists item, item ∈ buildTranslateItems targets /\
       item_paragraphId item = id p /\ originalChars item = originalCharCount p /\
       itext <$> item_runs item = text <$> runs p) /\
  (forall tc, tc ∈ tableCellTargets targets ->
     isNonTranslatable (concat (tr_text <$> tc_runs tc)) = false ->
     exists item, item ∈ buildTranslateItems targets /\
       item_paragraphId item = tc_paragraphId tc /\
       originalChars item = tc_originalChars tc /\
       itext <$> item_runs item = tr_text <$> tc_runs tc).
Proof.
  split; [|split].
  - intros item Hitem. unfold buildTranslateItems in Hitem.
    apply elem_of_app in Hitem as [Hitem | Hitem].
    + apply list_elem_of_bind in Hitem as (t & Hitem & Ht).
      apply list_elem_of_bind in Hitem as (p & Hitem & Hp).
      destruct (isSkippable _) eqn:Hskip; [by apply elem_of_nil in Hitem|].
      apply list_elem_of_singleton in Hitem as ->. cbn [item_runs].
      rewrite <- isSkippable_concat. split; [done|].
      rewrite mapi_indices. unfold mapi. by rewrite length_imap.
    + apply list_elem_of_bind in Hitem as (tc & Hitem & Htc).
      destruct (isSkippable _) eqn:Hskip; [by apply elem_of_nil in Hitem|].
      apply list_elem_of_singleton in Hitem as ->. cbn [item_runs].
      rewrite <- isSkippable_concat. split; [done|].
      rewrite mapi_indices. unfold mapi. by rewrite length_imap.
  - intros t p Ht Hp Hnt. eexists. split; [|split; [|split]].
    + unfold buildTranslateItems. apply elem_of_app. left.
      apply list_elem_of_bind. exists t. split; [|done].
      apply list_elem_of_bind. exists p. split; [|done].
      rewrite isSkippable_concat, mapi_texts. unfold paragraphText in Hnt. rewrite Hnt.
      apply list_elem_of_singleton. reflexivity.
    + done.
    + done.
    + cbn [item_runs]. apply mapi_texts.
  - intros tc Htc Hnt. eexists. split; [|split; [|split]].
    + unfold buildTranslateItems. apply elem_of_app. right.
      apply list_elem_of_bind. exists tc. split; [|done].
      rewrite isSkippable_concat, mapi_texts, Hnt.
      apply list_elem_of_singleton. reflexivity.
    + done.
    + done.
    + cbn [item_runs]. apply mapi_texts.
Qed.

Lemma translatable_blocks_are_sent_witness :
  item_paragraphId <$> buildTranslateItems mixedSlide
  = [js "s0_shape2_p0"; js "s0_shape7_cell0_0"] /\
  exists item, item ∈ buildTranslateItems mixedSlide /\
    item_paragraphId item = js "s0_shape7_cell0_0" /\
    originalChars item = 9%Z /\
    itext <$> item_runs item = [js "Total "; js "42%"].
Proof.
  split; [vm_compute; reflexivity|].
  destruct (tableCellTargets mixedSlide !! 0) as [tc|] eqn:Htc; [|discriminate Htc].
  destruct (translatable_blocks_are_sent mixedSlide) as (_ & _ & Hcells).
  destruct (Hcells tc (list_elem_of_lookup_2 _ _ _ Htc)) as (item & Hitem & Hid & Hchars & Htexts).
  { injection Htc as <-. vm_compute. reflexivity. }
  injection Htc as <-. exists item. split; [done|]. split; [done|]. split; done.
Defined.

(** ** Chunks are closed only when they must be *)

Section Greedy.
Context `{HasOriginalChars T}.
Variables maxChars maxItems : Z.

Lemma greedyChain_grow (l : list (list T)) c x :
  c <> [] -> greedyChain maxChars maxItems (l ++ [c]) ->
  greedyChain maxChars maxItems (l ++ [c ++ [x]]).
Proof.
  intros Hc. induction l as [|a l IH]; [done|].
  cbn [app greedyChain]. destruct l as [|b l].
  - cbn [app]. intros [Hpair _]. split; [|done].
    destruct c as [|y c]; [done|]. exact Hpair.
  - cbn [app] in *. intros [Hpair Hrest]. split; [done|]. by apply IH.
Qed.

Lemma greedyChain_close (l : list (list T)) c x :
  closedForCause maxChars maxItems c [x] ->
  greedyChain maxChars maxItems (l ++ [c]) ->
  greedyChain maxChars maxItems ((l ++ [c]) ++ [[x]]).
Proof.
  intros Hcause. induction l as [|a l IH]; [done|].
  cbn [app greedyChain]. destruct l as [|b l].
  - cbn [app]. intros [Hpair _]. split; [done|]. split; [done|]. done.
  - cbn [app] in *. intros [Hpair Hrest]. split; [done|]. by apply IH.
Qed.

Lemma chunkStep_greedy st item :
  greedyInv maxChars maxItems st ->
  greedyInv maxChars maxItems (chunkStep maxChars maxItems st item).
Proof.
  destruct st as [[chunks current] sum]. intros [Hsum Hchain]. unfold chunkStep.
  destruct ((Z.of_nat (length current) >=? maxItems)%Z
            || (sum + originalCharsOf item >? maxChars)%Z) eqn:Hflush.
  - destruct current as [|x current]; cbn [isEmpty app greedyInv].
    + subst chunks. split; [cbn; lia | done].
    + split; [cbn; lia|]. apply greedyChain_close; [|done].
      cbn [closedForCause]. apply orb_true_iff in Hflush as [Hitems | Hchars].
      * left. rewrite Z.geb_leb in Hitems. by apply Z.leb_le in Hitems.
      * right. rewrite Z.gtb_ltb in Hchars. apply Z.ltb_lt in Hchars. by rewrite <- Hsum.
  - cbn [greedyInv]. split.
    + rewrite Hsum. clear. induction current as [|y current IH]; cbn; [lia|].
      fold (totalChars (current ++ [item])). fold (totalChars current). lia.
    + destruct current as [|x current]; cbn [app].
      * by subst chunks.
      * rewrite (app_comm_cons current [item] x). by apply greedyChain_grow.
Qed.

Lemma chunkByChars_greedy (items : list T) :
  greedyChain maxChars maxItems (chunkByChars items maxChars maxItems).
Proof.
  unfold chunkByChars.
  assert (Hgen : forall l st, greedyInv maxChars maxItems st ->
             greedyInv maxChars maxItems (foldl (chunkStep maxChars maxItems) st l)).
  { induction l as [|x l IH]; intros st Hst; cbn [foldl]; [done|].
    by apply IH, chunkStep_greedy. }
  specialize (Hgen items ([], [], 0%Z)).
  destruct (foldl (chunkStep maxChars maxItems) ([], [], 0%Z) items) as [[chunks current] sum].
  destruct Hgen as [_ Hchain]; [by split|].
  destruct current as [|x current]; cbn [isEmpty]; [by subst chunks | done].
Qed.

Lemma greedyChain_adjacent (l1 l2 : list (list T)) c1 c2 :
  greedyChain maxChars maxItems (l1 ++ c1 :: c2 :: l2) ->
  closedForCause maxChars maxItems c1 c2.
Proof.
  induction l1 as [|a l1 IH]; cbn [app greedyChain]; [by intros [? _]|].
  destruct l1 as [|b l1]; cbn [app] in *; intros [_ Hrest]; by apply IH.
Qed.

Lemma totalChars_app (a b : list T) :
  totalChars (a ++ b) = (totalChars a + totalChars b)%Z.
Proof.
  unfold totalChars. induction a as [|x a IH]; cbn; [lia|]. rewrite IH. lia.
Qed.

Lemma totalChars_nonneg (a : list T) :
  Forall (fun x => (0 <= originalCharsOf x)%Z) a -> (0 <= totalChars a)%Z.
Proof.
  induction 1 as [|x a Hx _ IH]; cbn; [lia|]. fold (totalChars a). lia.
Qed.
End Greedy.

(** X4. [chunkByChars] closes a chunk only for a reason: of two chunks that
    follow each other, the first holds [maxItems] items or more, or adding
    the first item of the second would have taken its total over
    [maxChars]. *)
Theorem chunkByChars_closes_for_cause `{HasOriginalChars T} (items : list T)
    (maxChars maxItems : Z) (k : nat) (c1 c2 : list T) :
  chunkByChars items maxChars maxItems !! k = Some c1 ->
  chunkByChars items maxChars maxItems !! S k = Some c2 ->
  exists x rest, c2 = x :: rest /\
    ((maxItems <= Z.of_nat (length c1))%Z
     \/ (maxChars < totalChars c1 + originalCharsOf x)%Z).
Proof.
  intros H1 H2. pose proof (chunkByChars_greedy maxChars maxItems items) as Hchain.
  apply list_elem_of_split_length in H1 as (l1 & l2 & Heq & Hk).
  rewrite Heq in H2, Hchain.
  rewrite lookup_app_r in H2 by lia.
  replace (S k - length l1) with 1 in H2 by lia.
  destruct l2 as [|c l2]; [done|]. injection H2 as ->.
  apply greedyChain_adjacent in Hchain.
  destruct c2 as [|x rest]; [done|]. by exists x, rest.
Qed.

Lemma chunkByChars_closes_for_cause_witness :
  let a := {| item_paragraphId := js "a"; originalChars := 7000; item_runs := [] |} in
  let b := {| item_paragraphId := js "b"; originalChars := 7000; item_runs := [] |} in
  chunkByChars [a; b] defaultMaxChars defaultMaxItems = [[a]; [b]] /\
  exists x rest, [b] = x :: rest /\
    ((defaultMaxItems <= Z.of_nat (length [a]))%Z
     \/ (defaultMaxChars < totalChars [a] + originalCharsOf x)%Z).
Proof.
  cbv zeta. split; [reflexivity|].
  apply (chunkByChars_closes_for_cause
           [{| item_paragraphId := js "a"; originalChars := 7000; item_runs := [] |};
            {| item_paragraphId := js "b"; originalChars := 7000; item_runs := [] |}]
           defaultMaxChars defaultMaxItems 0); reflexivity.
Defined.

(** X5. Items that fit together are not separated: a non-empty list of
    items with non-negative character counts, at most [maxItems] items and
    at most [maxChars] characters in total is one chunk; no item gives no
    chunk. *)
Theorem chunkByChars_single_chunk `{HasOriginalChars T} (items : list T)
    (maxChars maxItems : Z) :
  items <> [] ->
  Forall (fun x => (0 <= originalCharsOf x)%Z) items ->
  (Z.of_nat (length items) <= maxItems)%Z ->
  (totalChars items <= maxChars)%Z ->
  chunkByChars items maxChars maxItems = [items]
  /\ chunkByChars ([] : list T) maxChars maxItems = [].
Proof.
  intros Hne Hpos Hlen Htotal. split; [|done].
  assert (Hitems : (1 <= maxItems)%Z) by (destruct items; [done | cbn in Hlen; lia]).
  destruct (chunkByChars_partition maxChars maxItems Hitems items) as [Hcat Hgood].
  pose proof (chunkByChars_greedy maxChars maxItems items) as Hchain.
  destruct (chunkByChars items maxChars maxItems) as [|c1 [|c2 l]].
  - cbn in Hcat. by subst items.
  - cbn in Hcat. rewrite app_nil_r in Hcat. by subst c1.
  - exfalso. destruct Hchain as [Hcause _].
    destruct c2 as [|x rest]; [done|]. cbn [concat] in Hcat. subst items.
    rewrite !length_app in Hlen. cbn [length] in Hlen.
    rewrite !totalChars_app in Htotal.
    apply Forall_app in Hpos as [_ Hpos]. apply Forall_app in Hpos as [Hpos1 Hpos2].
    apply Forall_cons in Hpos1 as [Hx Hrest].
    apply totalChars_nonneg in Hrest, Hpos2. cbn in Htotal. fold (totalChars rest) in Htotal.
    destruct Hcause as [Hfull | Hover]; lia.
Qed.

Lemma chunkByChars_single_chunk_witness :
  chunkByChars sampleItems defaultMaxChars defaultMaxItems = [sampleItems]
  /\ chunkByChars ([] : list TranslateBatchItem) defaultMaxChars defaultMaxItems = [].
Proof.
  apply chunkByChars_single_chunk.
  - discriminate.
  - repeat constructor; vm_compute; discriminate.
  - vm_compute. discriminate.
  - vm_compute. discriminate.
Defined.

(** ** The fingerprint loses nothing *)

Lemma unhex_hexDigit d : (d < 16)%N -> unhex (hexDigit d) = d.
Proof.
  intros Hd. unfold unhex, hexDigit.
  destruct (N.ltb_spec d 10).
  - destruct (N.ltb_spec (48 + d) 58); lia.
  - destruct (N.ltb_spec (87 + d) 58); lia.
Qed.

Lemma hex_digits c :
  (c < 65536)%N ->
  (4096 * (c / 4096 mod 16) + 256 * (c / 256 mod 16) + 16 * (c / 16 mod 16) + c mod 16 = c)%N.
Proof.
  intros Hc.
  assert (E1 : (c / 16 / 16 = c / 256)%N) by (by rewrite N.Div0.div_div).
  assert (E2 : (c / 256 / 16 = c / 4096)%N) by (by rewrite N.Div0.div_div).
  assert (E3 : (c / 4096 / 16 = 0)%N)
    by (rewrite N.Div0.div_div; by apply N.div_small).
  pose proof (N.div_mod c 16 ltac:(done)) as H0.
  pose proof (N.div_mod (c / 16) 16 ltac:(done)) as H1.
  pose proof (N.div_mod (c / 256) 16 ltac:(done)) as H2.
  pose proof (N.div_mod (c / 4096) 16 ltac:(done)) as H3.
  rewrite E1 in H1. rewrite E2 in H2. rewrite E3 in H3.
  lia.
Qed.

Lemma unquote_unicodeEscape c rest :
  (c < 65536)%N ->
  unquoteJSONBody (unicodeEscape c ++ rest) = prepend c (unquoteJSONBody rest).
Proof.
  intros Hc. unfold unicodeEscape. cbn [app unquoteJSONBody].
  change (92 =? 34)%N with false. change (92 =? 92)%N with true.
  change (117 =? 117)%N with true. cbv iota.
  rewrite !unhex_hexDigit by (apply N.mod_upper_bound; done).
  by rewrite hex_digits.
Qed.

Lemma unquote_raw c rest :
  c <> 34%N -> c <> 92%N ->
  unquoteJSONBody (c :: rest) = prepend c (unquoteJSONBody rest).
Proof.
  intros H34 H92. cbn [unquoteJSONBody].
  apply N.eqb_neq in H34, H92. by rewrite H34, H92.
Qed.

Lemma unquote_quoteJSONUnit c rest :
  unquoteJSONBody (quoteJSONUnit c ++ rest) = prepend c (unquoteJSONBody rest).
Proof.
  unfold quoteJSONUnit.
  destruct (N.eqb_spec c 8) as [->|H8]; [done|].
  destruct (N.eqb_spec c 9) as [->|H9]; [done|].
  destruct (N.eqb_spec c 10) as [->|H10]; [done|].
  destruct (N.eqb_spec c 12) as [->|H12]; [done|].
  destruct (N.eqb_spec c 13) as [->|H13]; [done|].
  destruct (N.eqb_spec c 34) as [->|H34]; [done|].
  destruct (N.eqb_spec c 92) as [->|H92]; [done|].
  destruct ((c <? 32)%N || isLeadSurrogate c || isTrailSurrogate c) eqn:Hesc.
  - apply unquote_unicodeEscape.
    unfold isLeadSurrogate, isTrailSurrogate in Hesc.
    destruct (N.ltb_spec c 32); [lia|]. cbn [orb] in Hesc.
    apply orb_true_iff in Hesc as [Hs | Hs];
      apply andb_true_iff in Hs as [_ Hs]; apply N.leb_le in Hs; lia.
  - by apply unquote_raw.
Qed.

Lemma unquote_quoteJSONBody s : forall rest,
  unquoteJSONBody (quoteJSONBody s ++ 34%N :: rest) = Some (s, rest).
Proof.
  assert (Hgen : forall n s, length s <= n -> forall rest,
             unquoteJSONBody (quoteJSONBody s ++ 34%N :: rest) = Some (s, rest)).
  { induction n as [|n IH]; intros [|c [|d r]] Hlen rest; cbn [length] in Hlen;
      try lia; try reflexivity.
    - cbn [quoteJSONBody]. rewrite unquote_quoteJSONUnit. done.
    - change (quoteJSONBody (c :: d :: r))
        with (if isLeadSurrogate c && isTrailSurrogate d
              then c :: d :: quoteJSONBody r
              else quoteJSONUnit c ++ quoteJSONBody (d :: r)).
      destruct (isLeadSurrogate c && isTrailSurrogate d) eqn:Hpair.
      + apply andb_true_iff in Hpair as [Hc Hd].
        unfold isLeadSurrogate in Hc. unfold isTrailSurrogate in Hd.
        apply andb_true_iff in Hc as [Hc _]. apply andb_true_iff in Hd as [Hd _].
        apply N.leb_le in Hc, Hd.
        cbn [app]. rewrite unquote_raw by lia. rewrite unquote_raw by lia.
        rewrite IH by lia. done.
      + rewrite <- app_assoc, unquote_quoteJSONUnit, IH by (cbn [length]; lia). done. }
  intros rest. by apply (Hgen (length s)).
Qed.

(** Two quoted strings followed by anything are equal only if the strings
    and what follows are. *)
Lemma quoteJSONString_inj s t rest rest' :
  quoteJSONString s ++ rest = quoteJSONString t ++ rest' -> s = t /\ rest = rest'.
Proof.
  unfold quoteJSONString. rewrite <- !app_assoc. cbn [app]. intros [= Heq].
  pose proof (unquote_quoteJSONBody s rest) as Hs.
  rewrite Heq, unquote_quoteJSONBody in Hs. by injection Hs as -> ->.
Qed.

Lemma join_quoted_inj l : forall l' rest rest',
  head rest = Some 93%N -> head rest' = Some 93%N ->
  join (js ",") (quoteJSONString <$> l) ++ rest
  = join (js ",") (quoteJSONString <$> l') ++ rest' ->
  l = l'.
Proof.
  induction l as [|s l IH]; intros [|s' l'] rest rest' Hr Hr' Heq.
  - done.
  - exfalso. destruct rest as [|x rest]; [done|]. injection Hr as ->.
    cbn in Heq. destruct l'; cbn in Heq; discriminate Heq.
  - exfalso. destruct rest' as [|x rest']; [done|]. injection Hr' as ->.
    cbn in Heq. destruct l; cbn in Heq; discriminate Heq.
  - rewrite !fmap_cons in Heq. cbn [join] in Heq.
    destruct l as [|s2 l]; destruct l' as [|s2' l'].
    + cbn [fmap list_fmap] in Heq. by apply quoteJSONString_inj in Heq as [-> _].
    + exfalso. cbn [fmap list_fmap] in Heq. rewrite <- app_assoc in Heq.
      apply quoteJSONString_inj in Heq as [_ Heq].
      destruct rest as [|x rest]; [done|]. injection Hr as ->. discriminate Heq.
    + exfalso. cbn [fmap list_fmap] in Heq. rewrite <- app_assoc in Heq.
      apply quoteJSONString_inj in Heq as [_ Heq].
      destruct rest' as [|x rest']; [done|]. injection Hr' as ->. discriminate Heq.
    + rewrite !fmap_cons in Heq. rewrite <- !app_assoc in Heq.
      apply quoteJSONString_inj in Heq as [-> Heq].
      cbn [js app] in Heq. injection Heq as Heq.
      f_equal. apply (IH _ rest rest' Hr Hr'). by rewrite !fmap_cons.
Qed.

Lemma JSON_stringify_inj l l' : JSON_stringify l = JSON_stringify l' -> l = l'.
Proof.
  unfold JSON_stringify. cbn [js app]. intros [= Heq].
  by apply (join_quoted_inj l l' [93%N] [93%N]).
Qed.

(** X6. Two items have the same fingerprint exactly when they have the same
    run texts in the same order: [JSON.stringify] of an array of strings
    can be read back, so texts that differ never share a cache entry or a
    provider call. *)
Theorem translateKey_injective (a b : TranslateBatchItem) :
  translateKey a = translateKey b <-> itext <$> item_runs a = itext <$> item_runs b.
Proof.
  unfold translateKey. split; [apply JSON_stringify_inj | by intros ->].
Qed.

(** ** The glossary text *)

Lemma trim_subset s c : c ∈ trim s -> c ∈ s.
Proof.
  destruct (trim_spec s) as (pre & suf & Hs & _). intros Hc.
  rewrite Hs. apply elem_of_app. right. apply elem_of_app. by left.
Qed.

Lemma pushHead_elem c ls l :
  l ∈ pushHead c ls -> (exists l', l = c :: l' /\ (l' ∈ ls \/ (ls = [] /\ l' = []))) \/ l ∈ ls.
Proof.
  destruct ls as [|l0 rest]; cbn.
  - intros ->%list_elem_of_singleton. left. exists []. split; [done|]. by right.
  - intros [->|Hl]%elem_of_cons.
    + left. exists l0. split; [done|]. left. by left.
    + right. by right.
Qed.

Lemma splitLines_no_newline s : forall l, l ∈ splitLines s -> 10%N ∉ l.
Proof.
  assert (Hgen : forall n s, length s <= n -> forall l, l ∈ splitLines s -> 10%N ∉ l).
  { induction n as [|n IH]; intros [|c r] Hlen l Hl; cbn [length] in Hlen; try lia.
    - apply list_elem_of_singleton in Hl as ->. by intros ?%elem_of_nil.
    - apply list_elem_of_singleton in Hl as ->. by intros ?%elem_of_nil.
    - cbn [splitLines] in Hl. destruct (N.eqb_spec c 10) as [->|Hc].
      + apply elem_of_cons in Hl as [->|Hl]; [by intros ?%elem_of_nil|].
        apply (IH r); [lia | done].
      + assert (Hpush : l ∈ pushHead c (splitLines r) -> 10%N ∉ l).
        { intros [(l' & -> & Hl') | Hl']%pushHead_elem.
          - intros [?|Hin]%elem_of_cons; [done|]. destruct Hl' as [Hl' | [_ ->]].
            + by apply (IH r ltac:(lia) l').
            + by apply elem_of_nil in Hin.
          - by apply (IH r ltac:(lia)). }
        destruct r as [|d r']; [by apply Hpush|].
        destruct ((c =? 13)%N && (d =? 10)%N); [|by apply Hpush].
        apply elem_of_cons in Hl as [->|Hl]; [by intros ?%elem_of_nil|].
        apply (IH r'); [cbn [length] in Hlen; lia | done]. }
  by apply (Hgen (length s)).
Qed.

Lemma indexOf_Some c s i :
  indexOf c s = Some i -> s = take i s ++ c :: drop (S i) s /\ c ∉ take i s.
Proof.
  revert i. induction s as [|x s IH]; intros i; cbn [indexOf]; [done|].
  destruct (N.eqb_spec x c) as [->|Hx].
  - intros [= <-]. cbn. split; [by rewrite drop_0 | by intros ?%elem_of_nil].
  - destruct (indexOf c s) as [j|]; [|done]. cbn. intros [= <-].
    destruct (IH j eq_refl) as [Hs Hnot]. cbn [take drop]. split; [cbn [app]; by f_equal|].
    intros [?|?]%elem_of_cons; [congruence | done].
Qed.

Lemma indexOf_app c k rest : c ∉ k -> indexOf c (k ++ c :: rest) = Some (length k).
Proof.
  induction k as [|x k IH]; intros Hk; cbn [app indexOf length].
  - by rewrite N.eqb_refl.
  - destruct (N.eqb_spec x c) as [->|Hx]; [exfalso; apply Hk; by left|].
    rewrite IH; [done|]. intros ?. apply Hk. by right.
Qed.

Lemma parseGlossaryLine_lookup input out line0 k v :
  line0 ∈ splitLines input ->
  (forall k v, out !! k = Some v -> cleanEntry (k, v) /\ readFromLine input (k, v)) ->
  parseGlossaryLine out (trim line0) !! k = Some v ->
  cleanEntry (k, v) /\ readFromLine input (k, v).
Proof.
  intros Hline Hout. unfold parseGlossaryLine.
  destruct (indexOf 61 (trim line0)) as [[|idx]|] eqn:Hidx; try by apply Hout.
  cbv zeta. set (pre := slice 0 (S idx) (trim line0)).
  set (post := drop (S idx + 1) (trim line0)).
  destruct (isEmpty (trim pre) || isEmpty (trim post)) eqn:Hempty; [by apply Hout|].
  unfold setProperty. case_bool_decide as Hproto; [by apply Hout|].
  destruct (decide (k = trim pre)) as [->|Hk].
  2: { rewrite lookup_insert_ne by done. by apply Hout. }
  rewrite lookup_insert_eq. intros [= <-].
  apply orb_false_elim in Hempty as [Hk Hv].
  apply indexOf_Some in Hidx as [Hsplit Hnot].
  assert (Hpre : pre = take (S idx) (trim line0)).
  { unfold pre, slice. by rewrite Nat.sub_0_r, drop_0. }
  assert (Hpost : post = drop (S (S idx)) (trim line0)).
  { unfold post. f_equal. lia. }
  assert (Hnl : forall c, c ∈ trim line0 -> c <> 10%N).
  { intros c Hc ->. apply trim_subset in Hc. by apply (splitLines_no_newline input line0). }
  split.
  - unfold cleanEntry. cbn [fst snd].
    split; [by destruct (trim pre)|]. split; [by destruct (trim post)|].
    split; [apply trim_trim|]. split; [apply trim_trim|].
    split; [|split; [|split]]; try done.
    + intros Hin. apply trim_subset in Hin. by rewrite Hpre in Hin.
    + intros Hin. apply trim_subset in Hin. apply (Hnl 10%N); [|done].
      rewrite Hpre in Hin. rewrite Hsplit. apply elem_of_app. by left.
    + intros Hin. apply trim_subset in Hin. apply (Hnl 10%N); [|done].
      rewrite Hpost in Hin. rewrite Hsplit. apply elem_of_app. right. by right.
  - exists line0, pre, post. split; [done|]. split; [|split; [|done]].
    + by rewrite Hpre, Hpost.
    + by rewrite Hpre.
Qed.

(** X7. Every entry of the glossary [parseGlossaryText] returns is read from
    a line of the input: the key is what stands before the first [=] of the
    line and the value what stands after it, both without the whitespace
    around them. Key and value are not empty and hold no line feed, the key
    holds no [=] and is not [__proto__]. *)
Theorem parseGlossaryText_entries (input k v : jsstring) :
  parseGlossaryText input !! k = Some v ->
  cleanEntry (k, v) /\ readFromLine input (k, v).
Proof.
  unfold parseGlossaryText.
  assert (Hgen : forall lines out,
             Forall (fun l => exists line0, line0 ∈ splitLines input /\ l = trim line0) lines ->
             (forall k v, out !! k = Some v -> cleanEntry (k, v) /\ readFromLine input (k, v)) ->
             forall k v, foldl parseGlossaryLine out lines !! k = Some v ->
                         cleanEntry (k, v) /\ readFromLine input (k, v)).
  { induction lines as [|l lines IH]; intros out Hlines Hout k' v'; cbn [foldl].
    - apply Hout.
    - apply Forall_cons in Hlines as [(line0 & Hline0 & ->) Hlines].
      apply IH; [done|]. intros k2 v2. by apply parseGlossaryLine_lookup. }
  apply Hgen; [|by intros ? ? ?%lookup_empty_Some].
  apply Forall_forall. intros l Hl. apply list_elem_of_filter in Hl as [_ Hl].
  apply list_elem_of_fmap in Hl as (line0 & -> & Hline0). by exists line0.
Qed.

Lemma parseGlossaryText_entries_witness :
  parseGlossaryText (js "  API key = cle API ") !! js "API key" = Some (js "cle API") /\
  cleanEntry (js "API key", js "cle API") /\
  readFromLine (js "  API key = cle API ") (js "API key", js "cle API").
Proof.
  assert (H : parseGlossaryText (js "  API key = cle API ") !! js "API key"
              = Some (js "cle API")) by (vm_compute; reflexivity).
  split; [exact H|]. exact (parseGlossaryText_entries _ _ _ H).
Defined.

Lemma splitLines_plain l : 10%N ∉ l -> splitLines l = [l].
Proof.
  induction l as [|c r IH]; intros Hl; [done|]. cbn [splitLines].
  destruct (N.eqb_spec c 10) as [->|Hc]; [exfalso; apply Hl; by left|].
  assert (Hr : 10%N ∉ r) by (intros ?; apply Hl; by right).
  rewrite IH by done. destruct r as [|d r']; [done|].
  destruct (N.eqb_spec d 10) as [->|Hd]; [exfalso; apply Hr; by left|].
  by rewrite andb_false_r.
Qed.

Lemma splitLines_line l rest :
  10%N ∉ l -> last l <> Some 13%N ->
  splitLines (l ++ 10%N :: rest) = l :: splitLines rest.
Proof.
  induction l as [|c r IH]; intros Hl Hlast; [done|]. cbn [app splitLines].
  destruct (N.eqb_spec c 10) as [->|Hc]; [exfalso; apply Hl; by left|].
  assert (Hr : 10%N ∉ r) by (intros ?; apply Hl; by right).
  destruct r as [|d r'].
  - cbn [app]. destruct (N.eqb_spec c 13) as [->|Hc13]; [done|]. done.
  - rewrite IH; [|done|by rewrite last_cons_cons in Hlast].
    cbn [app]. destruct (N.eqb_spec d 10) as [->|Hd]; [exfalso; apply Hr; by left|].
    by rewrite andb_false_r.
Qed.

Lemma splitLines_join ls :
  ls <> [] -> Forall (fun l => (10%N ∉ l) /\ last l <> Some 13%N) ls ->
  splitLines (join [10%N] ls) = ls.
Proof.
  induction ls as [|l ls IH]; intros Hne Hall; [done|].
  apply Forall_cons in Hall as [[Hl Hlast] Hall].
  destruct ls as [|l2 ls]; [by apply splitLines_plain|].
  change (join [10%N] (l :: l2 :: ls)) with (l ++ 10%N :: join [10%N] (l2 :: ls)).
  rewrite splitLines_line by done. f_equal. by apply IH.
Qed.

Lemma trim_fixed_ends s :
  trim s = s -> s <> [] ->
  (exists c, head s = Some c /\ isWhiteSpace c = false) /\
  (exists c, last s = Some c /\ isWhiteSpace c = false).
Proof.
  intros Hs Hne. destruct (trim_spec s) as (_ & _ & _ & _ & _ & Hhead & Hlast).
  rewrite Hs in Hhead, Hlast. split.
  - destruct s as [|c s]; [done|]. exists c. split; [done|]. by apply Hhead.
  - destruct (last s) as [c|] eqn:Hc; [|by apply last_None in Hc].
    exists c. split; [done|]. by apply Hlast.
Qed.

Lemma glossaryLine_trimmed kv :
  cleanEntry kv -> trim (kv.1 ++ [61%N] ++ kv.2) = kv.1 ++ [61%N] ++ kv.2.
Proof.
  intros (Hk & Hv & Htk & Htv & _).
  destruct (trim_fixed_ends _ Htk Hk) as [(c & Hc & Hcws) _].
  destruct (trim_fixed_ends _ Htv Hv) as [_ (z & Hz & Hzws)].
  unfold trim. rewrite trimStart_id, trimEnd_id; [done| |].
  - intros c'. rewrite app_assoc, last_app, Hz. by intros [= <-].
  - intros c'. destruct (kv.1) as [|x k]; [done|]. cbn in *. congruence.
Qed.

Lemma parseGlossaryLine_clean out kv :
  cleanEntry kv ->
  parseGlossaryLine out (kv.1 ++ [61%N] ++ kv.2) = <[kv.1 := kv.2]> out.
Proof.
  intros (Hk & Hv & Htk & Htv & Heq & _ & _ & Hproto).
  unfold parseGlossaryLine. cbn [app]. rewrite indexOf_app by done.
  destruct (length kv.1) as [|n] eqn:Hlen; [by destruct (kv.1)|].
  cbv zeta. unfold slice. rewrite Nat.sub_0_r, drop_0, <- Hlen.
  rewrite take_app_length.
  replace (length kv.1 + 1) with (length (kv.1 ++ [61%N]))
    by (rewrite length_app; cbn; lia).
  replace (kv.1 ++ 61%N :: kv.2) with ((kv.1 ++ [61%N]) ++ kv.2)
    by (by rewrite <- app_assoc).
  rewrite drop_app_length, Htk, Htv.
  destruct (kv.1) as [|x k]; [done|]. destruct (kv.2) as [|y v]; [done|].
  cbn [isEmpty orb]. unfold setProperty. by rewrite bool_decide_eq_false_2.
Qed.

Lemma filter_all {A} (P : A -> Prop) `{forall x, Decision (P x)} (l : list A) :
  Forall P l -> filter P l = l.
Proof.
  induction 1 as [|x l Hx _ IH]; [done|]. by rewrite filter_cons_True, IH.
Qed.

(** What [parseGlossaryText] makes of the text [writeUI] shows for entries of
    the form [parseGlossaryText] stores: an object with these entries, a
    later one replacing an earlier one with the same key. *)
Lemma parseGlossaryText_glossaryText entries :
  Forall cleanEntry entries ->
  parseGlossaryText (glossaryText entries) = mapOfEntries entries.
Proof.
  intros Hclean. unfold parseGlossaryText, glossaryText.
  destruct entries as [|kv entries]; [done|].
  set (lines := (fun kv => kv.1 ++ [61%N] ++ kv.2) <$> kv :: entries).
  assert (Hlines : Forall (fun l => (10%N ∉ l) /\ last l <> Some 13%N) lines).
  { apply Forall_fmap. eapply Forall_impl; [exact Hclean|]. cbn.
    intros e He. pose proof He as (Hk & Hv & Htk & Htv & _ & Hnk & Hnv & _). split.
    - intros [?|[?|?]%elem_of_cons]%elem_of_app; done.
    - destruct (trim_fixed_ends _ Htv Hv) as [_ (z & Hz & Hzws)].
      rewrite last_app. destruct (e.2) as [|y v]; [done|].
      rewrite last_cons_cons, Hz. intros [= ->]. done. }
  rewrite splitLines_join by done.
  assert (Htrim : trim <$> lines = lines).
  { unfold lines. rewrite <- list_fmap_compose. apply Forall_fmap_ext_1.
    eapply Forall_impl; [exact Hclean|]. intros e He. by apply glossaryLine_trimmed. }
  rewrite Htrim.
  assert (Hfilter : filter (fun l => isEmpty l = false) lines = lines).
  { apply filter_all. unfold lines. apply Forall_fmap.
    eapply Forall_impl; [exact Hclean|]. cbn. intros e (Hk & _). by destruct (e.1). }
  rewrite Hfilter. unfold lines, mapOfEntries.
  generalize (∅ : Glossary). clear -Hclean.
  induction (kv :: entries) as [|e l IH]; intros out; [done|].
  apply Forall_cons in Hclean as [He Hl]. rewrite fmap_cons. cbn [foldl].
  rewrite parseGlossaryLine_clean by done. by apply IH.
Qed.

Lemma mapOfEntries_permutation `{Countable K} {V} (entries : list (K * V)) (m : gmap K V) :
  entries ≡ₚ map_to_list m -> mapOfEntries entries = m.
Proof.
  intros Hperm. apply map_eq. intros k. rewrite mapOfEntries_lookup.
  assert (Hin : forall v, (k, v) ∈ entries <-> m !! k = Some v).
  { intros v. rewrite Hperm. apply elem_of_map_to_list. }
  destruct (m !! k) as [v|] eqn:Hk.
  - destruct (last (filter (fun kv => kv.1 = k) entries)) as [[k' v']|] eqn:Hlast.
    + apply last_elem_of, list_elem_of_filter in Hlast as [Hk' Hv']. cbn in Hk'. subst k'.
      apply Hin in Hv'. cbn. congruence.
    + exfalso. apply last_None in Hlast.
      apply (filter_nil_not_elem_of _ _ (k, v) Hlast); [done | by apply Hin].
  - destruct (last (filter (fun kv => kv.1 = k) entries)) as [[k' v']|] eqn:Hlast; [|done].
    apply last_elem_of, list_elem_of_filter in Hlast as [Hk' Hv']. cbn in Hk'. subst k'.
    apply Hin in Hv'. congruence.
Qed.

(** X8. A glossary read by [parseGlossaryText], shown as text by [writeUI]
    and read again is the same glossary, in whatever order [Object.keys]
    lists its entries. *)
Theorem glossary_round_trip (input : jsstring) (entries : list (jsstring * jsstring)) :
  entries ≡ₚ map_to_list (parseGlossaryText input) ->
  parseGlossaryText (glossaryText entries) = parseGlossaryText input.
Proof.
  intros Hperm. rewrite parseGlossaryText_glossaryText.
  - by apply mapOfEntries_permutation.
  - apply Forall_forall. intros [k v] Hkv. rewrite Hperm in Hkv.
    apply elem_of_map_to_list in Hkv. by apply (parseGlossaryText_entries input).
Qed.

Lemma glossary_round_trip_witness :
  let input := js "slide = diapositive" ++ [13; 10]%N ++ js "= nothing" ++ [10%N]
               ++ js "deck=jeu=de diapositives" in
  parseGlossaryText input
  = {[ js "slide" := js "diapositive"; js "deck" := js "jeu=de diapositives" ]} /\
  glossaryText (map_to_list (parseGlossaryText input)) <> input /\
  parseGlossaryText (glossaryText (map_to_list (parseGlossaryText input)))
  = parseGlossaryText input.
Proof.
  cbv zeta. split; [vm_compute; reflexivity|]. split; [vm_compute; discriminate|].
  by apply glossary_round_trip.
Defined.

(** ** The response of the provider *)

Lemma trim_ws s : allWhitespace s -> trim s = [].
Proof.
  intros Hs. unfold trim. rewrite <- (app_nil_r s), trimStart_ws_app by done. done.
Qed.

Lemma join_ws sep ls :
  allWhitespace sep -> Forall allWhitespace ls -> allWhitespace (join sep ls).
Proof.
  intros Hsep. induction 1 as [|l ls Hl Hls IH]; [constructor|].
  destruct ls as [|l2 ls]; [done|].
  change (join sep (l :: l2 :: ls)) with (l ++ sep ++ join sep (l2 :: ls)).
  apply Forall_app. split; [done|]. apply Forall_app. by split.
Qed.

(** X9. The output text [translateBatch] reads from a response never starts
    or ends with whitespace. A response that is not [ok] is the HTTP error
    whatever its body holds. An [ok] response is the empty-output error when
    its body is not JSON, has no [output] array, or holds only whitespace in
    its message texts. Items are returned only from an [ok] response whose
    output text parses to a value with an [items] array. *)
Theorem readResponse_cases (parseJSON : jsstring -> option JSONValue)
    (res : HttpResponse) :
  let json := default (JObject []) (res_body res) in
  (forall c, head (extractOutputText json) = Some c
             \/ last (extractOutputText json) = Some c -> isWhiteSpace c = false) /\
  (res_ok res = false ->
   exists m, readResponse parseJSON res = ReadHttpError (res_status res) m) /\
  (res_ok res = true ->
   res_body res = None
   \/ (forall outputs, getProp (js "output") json <> Some (JArray outputs))
   \/ Forall allWhitespace (outputTexts json) ->
   readResponse parseJSON res = ReadEmptyOutput (res_status res)) /\
  (forall items, readResponse parseJSON res = ReadItems items ->
     res_ok res = true /\
     exists parsed, parseJSON (extractOutputText json) = Some parsed /\
                    getProp (js "items") parsed = Some (JArray items)).
Proof.
  cbv zeta. split; [|split; [|split]].
  - intros c Hc. unfold extractOutputText in *.
    destruct (trim_spec (join [10%N] (outputTexts (default (JObject []) (res_body res)))))
      as (_ & _ & _ & _ & _ & Hhead & Hlast).
    destruct Hc; [by apply Hhead | by apply Hlast].
  - intros Hok. unfold readResponse. rewrite Hok. cbn [negb]. by eexists.
  - intros Hok Hcase. unfold readResponse. rewrite Hok. cbn [negb].
    assert (Hempty : extractOutputText (default (JObject []) (res_body res)) = []).
    { unfold extractOutputText. apply trim_ws. apply join_ws; [by repeat constructor|].
      destruct Hcase as [-> | [Hno | Hws]]; [constructor | | done].
      unfold outputTexts.
      destruct (getProp (js "output") _) as [[| | | |outputs|]|]; try constructor.
      by destruct (Hno outputs). }
    by rewrite Hempty.
  - intros items. unfold readResponse. destruct (res_ok res); cbn [negb]; [|done].
    destruct (isEmpty _); [done|].
    destruct (parseJSON _) as [parsed|] eqn:Hparsed; [|done].
    destruct (getProp (js "items") parsed) as [[| | | |items'|]|] eqn:Hitems; try done.
    intros [= <-]. split; [done|]. by exists parsed.
Qed.

Lemma readResponse_cases_witness :
  extractOutputText (messageBody [js " {}"; js "  "]) = js "{}" /\
  readResponse (fun _ => None) {| res_ok := true; res_status := 200; res_body := None |}
  = ReadEmptyOutput 200 /\
  readResponse (fun _ => None)
    {| res_ok := true; res_status := 200; res_body := Some (messageBody [js " "; js ""]) |}
  = ReadEmptyOutput 200.
Proof.
  split; [vm_compute; reflexivity|]. split.
  - apply (readResponse_cases (fun _ => None)
             {| res_ok := true; res_status := 200; res_body := None |}); [done|]. by left.
  - apply (readResponse_cases (fun _ => None)
             {| res_ok := true; res_status := 200;
                res_body := Some (messageBody [js " "; js ""]) |}); [done|].
    right. right. vm_compute. repeat constructor.
Defined.

(** ** Paragraph extraction *)

Lemma join_splitOn sep s : join [sep] (splitOn sep s) = s.
Proof.
  induction s as [|c r IH]; [done|]. cbn [splitOn].
  destruct (N.eqb_spec c sep) as [->|Hc].
  - destruct (splitOn sep r) as [|l ls] eqn:Hsplit; [by destruct r; cbn in Hsplit|].
    change (join [sep] ([] :: l :: ls)) with ([] ++ [sep] ++ join [sep] (l :: ls)).
    by rewrite IH.
  - destruct (splitOn sep r) as [|l ls] eqn:Hsplit.
    + exfalso. destruct r as [|d r]; [done|]. cbn in Hsplit.
      destruct (d =? sep)%N; [done|]. by destruct (splitOn sep r).
    + cbn [pushHead]. rewrite <- IH. by destruct ls.
Qed.

Lemma splitOn_not_nil sep s : splitOn sep s <> [].
Proof.
  destruct s as [|c r]; [done|]. cbn. destruct (c =? sep)%N; [done|].
  by destruct (splitOn sep r).
Qed.

Lemma splitOn_no_sep sep s : Forall (fun l => sep ∉ l) (splitOn sep s).
Proof.
  induction s as [|c r IH]; cbn [splitOn].
  - constructor; [by intros ?%elem_of_nil | constructor].
  - destruct (N.eqb_spec c sep) as [->|Hc].
    + constructor; [by intros ?%elem_of_nil | done].
    + destruct (splitOn sep r) as [|l ls]; cbn [pushHead].
      * constructor; [|constructor]. by intros [?|?%elem_of_nil]%elem_of_cons.
      * apply Forall_cons in IH as [Hl Hls]. constructor; [|done].
        by intros [?|?]%elem_of_cons.
Qed.

Lemma js_inj s t : js s = js t -> s = t.
Proof.
  revert t. induction s as [|a s IH]; intros [|b t]; cbn; try done.
  intros [= Hab Hst]. f_equal; [|by apply IH].
  apply (f_equal Ascii.ascii_of_N) in Hab. by rewrite !Ascii.ascii_N_embedding in Hab.
Qed.

Lemma paragraphIdOf_inj slideIndex shapeId p q :
  paragraphIdOf slideIndex shapeId p = paragraphIdOf slideIndex shapeId q -> p = q.
Proof.
  unfold paragraphIdOf, decimal. intros Heq.
  do 5 apply app_inv_head in Heq. apply js_inj in Heq. by apply (inj pretty).
Qed.

Section ShapeTextParagraphsFacts.
Variable numberToString : number -> jsstring.
Variable hostFont : nat -> nat -> ShapeFont.
Variable hostParagraphFormat : nat -> nat -> option ParagraphFormatSnapshot.
Variable slideIndex : Z.
Variable shapeId : jsstring.

Local Abbreviation extractParagraphs :=
  (extractShapeTextParagraphs numberToString hostFont hostParagraphFormat slideIndex shapeId).
Local Abbreviation closedForm :=
  (paragraphsFrom numberToString hostFont hostParagraphFormat slideIndex shapeId).

Lemma foldl_paragraphStep count paras : forall i out cursor,
  foldl (paragraphStep numberToString hostFont hostParagraphFormat slideIndex shapeId count)
        (out, cursor) (imap (fun p t => (i + p, t)) paras)
  = (out ++ closedForm count i cursor paras,
     (foldl (paragraphStep numberToString hostFont hostParagraphFormat slideIndex shapeId count)
            (out, cursor) (imap (fun p t => (i + p, t)) paras)).2).
Proof.
  induction paras as [|t paras IH]; intros i out cursor.
  - cbn. by rewrite app_nil_r.
  - cbn [imap foldl paragraphStep paragraphsFrom]. rewrite Nat.add_0_r.
    rewrite (imap_ext _ (fun p t => (S i + p, t))) by (intros; cbn; f_equal; lia).
    rewrite IH. cbn [fst snd]. by rewrite <- app_assoc.
Qed.

Lemma extractParagraphs_closed hostText knownText :
  let text := match knownText with Some t => t | None => default [] hostText end in
  extractParagraphs hostText knownText
  = if isEmpty text then []
    else closedForm (length (splitOn 10 text)) 0 0 (splitOn 10 text).
Proof.
  cbv zeta. unfold extractShapeTextParagraphs.
  destruct (isEmpty _); [done|].
  rewrite (foldl_paragraphStep _ _ 0). done.
Qed.

Lemma closedForm_texts count paras : forall i off,
  paragraphText <$> closedForm count i off paras = paras.
Proof.
  induction paras as [|t paras IH]; intros i off; [done|].
  cbn [paragraphsFrom fmap list_fmap]. f_equal; [|apply IH].
  unfold paragraphText. cbn [runs]. apply extractRunsByFont_lossless.
Qed.

Lemma closedForm_lookup count paras : forall i off j p,
  closedForm count i off paras !! j = Some p ->
  id p = paragraphIdOf slideIndex shapeId (i + j) /\
  exists t, paras !! j = Some t /\ originalCharCount p = Z.of_nat (length t).
Proof.
  induction paras as [|t paras IH]; intros i off j p; [done|].
  destruct j as [|j]; cbn [paragraphsFrom lookup list_lookup].
  - intros [= <-]. cbn. rewrite Nat.add_0_r. split; [done|]. by exists t.
  - intros Hp. destruct (IH _ _ _ _ Hp) as [Hid Ht].
    rewrite Hid. split; [f_equal; lia | done].
Qed.

(** The paragraph spans of the recomposition are where the paragraphs were
    read. *)
Lemma closedForm_layout settings count paras : forall i off j p sp,
  closedForm count i off paras !! j = Some p ->
  paragraphSpans (layout settings count i off (closedForm count i off paras)) !! j = Some sp ->
  runs p = extractRunsByFont numberToString hostFont (start sp) (paragraphText p) /\
  paragraphFormat p = hostParagraphFormat (start sp) (len sp) /\
  fmt sp = paragraphFormat p /\
  len sp = length (paragraphText p).
Proof.
  induction paras as [|t paras IH]; intros i off j p sp; [done|].
  cbn [paragraphsFrom layout paragraphSpans].
  set (p0 := {| id := paragraphIdOf slideIndex shapeId i |}).
  assert (Htext : paragraphText p0 = t).
  { unfold paragraphText. cbn [runs p0]. apply extractRunsByFont_lossless. }
  destruct j as [|j]; cbn [lookup list_lookup].
  - intros [= <-] [= <-]. cbn [start len fmt]. rewrite Htext. done.
  - rewrite Htext. unfold joinerAt.
    replace (length (if i <? count - 1
                     then if keepLineBreaks settings then [10%N] else js " " else []))
      with (if i <? count - 1 then 1 else 0)
      by (destruct (i <? count - 1); [by destruct (keepLineBreaks settings) | done]).
    apply IH.
Qed.
End ShapeTextParagraphsFacts.

(** What [extractShapeTextParagraphs] returns for a known text that is not
    empty: the text is the paragraph texts joined by line feeds, and the
    ids are numbered in order. *)
Lemma extractShapeTextParagraphs_closed_text (numberToString : number -> jsstring)
    (hostFont : nat -> nat -> ShapeFont)
    (hostParagraphFormat : nat -> nat -> option ParagraphFormatSnapshot)
    (slideIndex : Z) (shapeId : jsstring) (hostText : option jsstring) (known : jsstring) :
  known <> [] ->
  let ps := extractShapeTextParagraphs numberToString hostFont hostParagraphFormat
              slideIndex shapeId hostText (Some known) in
  join [10%N] (paragraphText <$> ps) = known /\
  forall j p, ps !! j = Some p -> id p = paragraphIdOf slideIndex shapeId j.
Proof.
  intros Hne. cbv zeta. rewrite extractParagraphs_closed.
  assert (isEmpty known = false) as -> by by destruct known.
  split.
  - rewrite closedForm_texts. apply join_splitOn.
  - intros j p Hp. by destruct (closedForm_lookup _ _ _ _ _ _ _ _ _ _ _ Hp) as [-> _].
Qed.

(** X10. [extractShapeTextParagraphs] cuts a non-empty text at its line
    feeds and loses nothing: there is one paragraph per line, in order, its
    id ends with its position, its character count is the length of its
    line, which holds no line feed; the ids are distinct; the run texts of
    the paragraphs, joined by line feeds, are the text, which is therefore
    what [composeText] writes back when line breaks are kept. An empty text
    gives no paragraph. *)
Theorem extractShapeTextParagraphs_round_trip (numberToString : number -> jsstring)
    (hostFont : nat -> nat -> ShapeFont)
    (hostParagraphFormat : nat -> nat -> option ParagraphFormatSnapshot)
    (slideIndex : Z) (shapeId : jsstring) (hostText knownText : option jsstring)
    (settings : Settings) :
  let text := match knownText with Some t => t | None => default [] hostText end in
  let ps := extractShapeTextParagraphs numberToString hostFont hostParagraphFormat
              slideIndex shapeId hostText knownText in
  (text = [] -> ps = []) /\
  (text <> [] ->
   paragraphText <$> ps = splitOn 10 text /\
   join [10%N] (paragraphText <$> ps) = text /\
   (forall j p, ps !! j = Some p ->
      id p = paragraphIdOf slideIndex shapeId j /\
      originalCharCount p = Z.of_nat (length (paragraphText p)) /\
      10%N ∉ paragraphText p) /\
   NoDup (id <$> ps) /\
   (keepLineBreaks settings = true -> fullText (composeText ps settings) = text)).
Proof.
  cbv zeta. rewrite extractParagraphs_closed.
  set (text := match knownText with Some t => t | None => default [] hostText end).
  split; [by intros ->|]. intros Hne.
  assert (isEmpty text = false) as -> by by destruct text.
  set (paras := splitOn 10 text).
  set (ps := paragraphsFrom _ _ _ _ _ (length paras) 0 0 paras).
  assert (Htexts : paragraphText <$> ps = paras) by apply closedForm_texts.
  assert (Hlookup : forall j p, ps !! j = Some p ->
            id p = paragraphIdOf slideIndex shapeId j /\
            originalCharCount p = Z.of_nat (length (paragraphText p)) /\
            10%N ∉ paragraphText p).
  { intros j p Hp. destruct (closedForm_lookup _ _ _ _ _ _ _ _ _ _ _ Hp) as (Hid & t & Ht & Hcount).
    assert (Hpt : paragraphText p = t).
    { assert (Hj : (paragraphText <$> ps) !! j = Some (paragraphText p))
        by by rewrite list_lookup_fmap, Hp.
      rewrite Htexts, Ht in Hj. by injection Hj. }
    rewrite Hpt. split; [done|]. split; [done|].
    pose proof (splitOn_no_sep 10%N text) as Hall. rewrite Forall_forall in Hall.
    apply Hall. by eapply list_elem_of_lookup_2. }
  split; [done|]. split; [by rewrite Htexts; apply join_splitOn|]. split; [done|]. split.
  - apply NoDup_alt. intros i j x Hi Hj.
    rewrite list_lookup_fmap in Hi, Hj.
    destruct (ps !! i) as [pi|] eqn:Hpi; [|done]. destruct (ps !! j) as [pj|] eqn:Hpj; [|done].
    cbn in Hi, Hj. destruct (Hlookup _ _ Hpi) as [Hidi _]. destruct (Hlookup _ _ Hpj) as [Hidj _].
    apply (paragraphIdOf_inj slideIndex shapeId). congruence.
  - intros Hkeep. rewrite composeText_fullText, Hkeep, Htexts. apply join_splitOn.
Qed.

Lemma extractShapeTextParagraphs_round_trip_witness :
  let text := js "Agenda" ++ [10%N] ++ [10%N] ++ js "Q&A" in
  let ps := extractShapeTextParagraphs (fun _ => js "12") (fun _ _ => Build_ShapeFont
              None None None None None None None None None None None None)
              (fun _ _ => None) 3 (js "7") None (Some text) in
  paragraphText <$> ps = [js "Agenda"; js ""; js "Q&A"] /\
  id <$> ps = [js "s3_shape7_p0"; js "s3_shape7_p1"; js "s3_shape7_p2"] /\
  fullText (composeText ps (sampleSettings true ModeApply)) = text.
Proof.
  cbv zeta.
  destruct (extractShapeTextParagraphs_round_trip (fun _ => js "12")
              (fun _ _ => Build_ShapeFont None None None None None None None None None None None None)
              (fun _ _ => None) 3 (js "7") None
              (Some (js "Agenda" ++ [10%N] ++ [10%N] ++ js "Q&A"))
              (sampleSettings true ModeApply)) as [_ Hround].
  destruct Hround as (_ & _ & _ & _ & Hfull); [discriminate|].
  split; [vm_compute; reflexivity|]. split; [vm_compute; reflexivity|].
  by apply Hfull.
Defined.

(** X11. When the paragraphs of a shape are recomposed as they were
    extracted, every paragraph span starts at the offset at which the fonts
    and the paragraph format of that paragraph were read from the host, with
    either joiner. *)
Theorem extraction_offsets_match_recomposition (numberToString : number -> jsstring)
    (hostFont : nat -> nat -> ShapeFont)
    (hostParagraphFormat : nat -> nat -> option ParagraphFormatSnapshot)
    (slideIndex : Z) (shapeId : jsstring) (hostText knownText : option jsstring)
    (settings : Settings) (j : nat) (p : Paragraph)
    (sp : Span (option ParagraphFormatSnapshot)) :
  let ps := extractShapeTextParagraphs numberToString hostFont hostParagraphFormat
              slideIndex shapeId hostText knownText in
  ps !! j = Some p ->
  paragraphSpans (composeText ps settings) !! j = Some sp ->
  runs p = extractRunsByFont numberToString hostFont (start sp) (paragraphText p) /\
  paragraphFormat p = hostParagraphFormat (start sp) (len sp) /\
  fmt sp = paragraphFormat p /\
  len sp = length (paragraphText p).
Proof.
  cbv zeta. rewrite composeText_layout, extractParagraphs_closed.
  destruct (isEmpty _); [done|]. intros Hp Hsp.
  set (paras := splitOn 10 _) in *.
  assert (Hlen : length (paragraphsFrom numberToString hostFont hostParagraphFormat
                           slideIndex shapeId (length paras) 0 0 paras) = length paras).
  { rewrite <- (length_fmap paragraphText), closedForm_texts. done. }
  rewrite Hlen in Hsp.
  exact (closedForm_layout _ _ _ _ _ settings _ _ _ _ _ _ _ Hp Hsp).
Qed.

Lemma extraction_offsets_match_recomposition_witness :
  let text := js "Agenda" ++ [10%N] ++ js "Q&A" in
  let probe := fun (from _ : nat) =>
                 Build_ShapeFont (Some false) (Some (from <? 7)) (Some (js "#000000"))
                   (Some false) (Some false) (Some (js "Arial")) (Some 18%float)
                   (Some false) (Some false) (Some false) (Some false) (Some (js "None")) in
  let ps := extractShapeTextParagraphs (fun _ => js "18") probe (fun _ _ => None)
              0 (js "2") None (Some text) in
  exists p sp,
    ps !! 1 = Some p /\
    paragraphSpans (composeText ps (sampleSettings false ModeApply)) !! 1 = Some sp /\
    start sp = 7 /\ len sp = 3 /\
    runs p = extractRunsByFont (fun _ => js "18") probe 7 (js "Q&A").
Proof.
  cbv zeta.
  set (probe := fun (from _ : nat) => Build_ShapeFont _ _ _ _ _ _ _ _ _ _ _ _).
  set (ps := extractShapeTextParagraphs _ probe _ _ _ _ _).
  destruct (ps !! 1) as [p|] eqn:Hp; [|discriminate Hp].
  destruct (paragraphSpans (composeText ps (sampleSettings false ModeApply)) !! 1)
    as [sp|] eqn:Hsp; [|discriminate Hsp].
  exists p, sp. split; [done|]. split; [done|].
  destruct (extraction_offsets_match_recomposition (fun _ => js "18") probe (fun _ _ => None)
              0 (js "2") None (Some (js "Agenda" ++ [10%N] ++ js "Q&A"))
              (sampleSettings false ModeApply) 1 p sp Hp Hsp) as (Hruns & _ & _ & Hlen).
  assert (Hstart : start sp = 7) by (injection Hsp as <-; vm_compute; reflexivity).
  assert (Htext : paragraphText p = js "Q&A") by (injection Hp as <-; vm_compute; reflexivity).
  rewrite Hstart, Htext in Hruns. rewrite Htext in Hlen. done.
Defined.

(** ** Runs are maximal stretches of one font *)

Lemma lookup_snoc_cases {A} (l : list A) x k r :
  (l ++ [x]) !! k = Some r ->
  (k < length l /\ l !! k = Some r) \/ (k = length l /\ r = x).
Proof.
  intros Hk. destruct (decide (k < length l)) as [Hlt|Hge].
  - left. split; [done|]. by rewrite lookup_app_l in Hk.
  - right. rewrite lookup_app_r in Hk by lia.
    destruct (k - length l) as [|n] eqn:Hn; [|done]. injection Hk as <-. split; [lia | done].
Qed.

Lemma runOffset_snoc rs r k : k <= length rs -> runOffset (rs ++ [r]) k = runOffset rs k.
Proof. intros Hk. unfold runOffset. by rewrite take_app_le. Qed.

Lemma runOffset_all rs : runOffset rs (length rs) = length (concat (text <$> rs)).
Proof. unfold runOffset. by rewrite firstn_all. Qed.

Section MaximalRuns.
Variable numberToString : number -> jsstring.
Variable hostFont : nat -> nat -> ShapeFont.
Variable paragraphStart : nat.

Local Abbreviation key := (fontKey numberToString).
Local Abbreviation follow := (runsFollowFonts numberToString hostFont paragraphStart).
Local Abbreviation differ := (adjacentKeysDiffer numberToString).
Local Abbreviation F := (charFont hostFont paragraphStart).

Lemma differ_snoc_new rs a b :
  differ (rs ++ [a]) -> key (font a) <> key (font b) -> differ ((rs ++ [a]) ++ [b]).
Proof.
  intros Hold Hab k x y Hx Hy.
  apply lookup_snoc_cases in Hy as [[Hlt Hy] | [Hk ->]].
  - apply (Hold k x y); [|done]. rewrite lookup_app_l in Hx by lia. done.
  - rewrite length_app in Hk. cbn in Hk.
    rewrite lookup_app_l in Hx by (rewrite length_app; cbn; lia).
    apply lookup_snoc_cases in Hx as [[Hlt _] | [_ ->]]; [lia | done].
Qed.

Lemma differ_snoc_same rs a a' :
  differ (rs ++ [a]) -> font a' = font a -> differ (rs ++ [a']).
Proof.
  intros Hold Hfont k x y Hx Hy.
  apply lookup_snoc_cases in Hy as [[Hlt Hy] | [Hk ->]].
  - apply (Hold k x y).
    + rewrite lookup_app_l by lia. rewrite lookup_app_l in Hx by lia. done.
    + rewrite lookup_app_l by lia. done.
  - rewrite lookup_app_l in Hx by lia. rewrite Hfont.
    apply (Hold k x a); [by rewrite lookup_app_l by lia|].
    rewrite lookup_app_r by lia. by replace (S k - length rs) with 0 by lia.
Qed.

Lemma follow_snoc_new rs r :
  follow rs -> text r <> [] ->
  font r = F (length (concat (text <$> rs))) ->
  (forall i, i < length (text r) ->
             key (F (length (concat (text <$> rs)) + i)) = key (font r)) ->
  follow (rs ++ [r]).
Proof.
  intros Hold Hne Hfont Hall k x Hx.
  apply lookup_snoc_cases in Hx as [[Hlt Hx] | [-> ->]].
  - rewrite runOffset_snoc by lia. by apply Hold.
  - rewrite runOffset_snoc, runOffset_all by lia. done.
Qed.

Lemma follow_snoc_extend rs r c :
  follow (rs ++ [r]) ->
  key (F (length (concat (text <$> rs ++ [r])))) = key (font r) ->
  follow (rs ++ [{| text := text r ++ [c]; font := font r |}]).
Proof.
  intros Hold Hc k x Hx.
  apply lookup_snoc_cases in Hx as [[Hlt Hx] | [-> ->]].
  - rewrite runOffset_snoc by lia.
    specialize (Hold k x). rewrite lookup_app_l, runOffset_snoc in Hold by lia. by apply Hold.
  - rewrite runOffset_snoc by lia.
    specialize (Hold (length rs) r).
    rewrite lookup_app_r, Nat.sub_diag, runOffset_snoc in Hold by lia.
    destruct (Hold eq_refl) as (Hne & Hfont & Hall). cbn [text font].
    split; [by destruct (text r)|]. split; [done|].
    intros i Hi. rewrite length_app in Hi. cbn in Hi.
    destruct (decide (i < length (text r))) as [Hlt|Hge]; [by apply Hall|].
    replace i with (length (text r)) by lia.
    rewrite fmap_app, concat_app, length_app in Hc. cbn in Hc.
    rewrite app_nil_r in Hc. by rewrite runOffset_all.
Qed.

Lemma scanStep_inv m st c :
  scanInv numberToString hostFont paragraphStart m st ->
  scanInv numberToString hostFont paragraphStart (S m)
          (scanStep numberToString st (c, F m)).
Proof.
  destruct st as [rs [[curFont curText]|]]; unfold scanInv, scanRuns, scanStep;
    cbn [fst snd]; intros (Hlen & Hnone & Hfollow & Hdiffer).
  - case_bool_decide as Hkey; cbn [fst snd].
    + split; [|split; [done|split]].
      * rewrite fmap_app, concat_app, !length_app in *. cbn in *.
        rewrite app_nil_r in *. rewrite length_app. cbn. lia.
      * apply (follow_snoc_extend rs {| text := curText; font := curFont |} c); [done|].
        cbn [font]. by rewrite Hlen.
      * by apply (differ_snoc_same rs {| text := curText; font := curFont |}).
    + split; [|split; [done|split]].
      * rewrite fmap_app, concat_app, length_app. cbn. lia.
      * apply follow_snoc_new; [done | done | by rewrite Hlen |].
        intros i Hi. cbn in Hi. replace i with 0 by lia. by rewrite Nat.add_0_r, Hlen.
      * by apply differ_snoc_new.
  - rewrite (Hnone eq_refl) in *. cbn in Hlen. subst m. cbn [app].
    split; [done|]. split; [done|]. split.
    + apply (follow_snoc_new []); [done | done | done |].
      intros i Hi. cbn in Hi. by replace i with 0 by lia.
    + intros k a b Ha Hb. by destruct k.
Qed.

Lemma charScan_inv paragraphText :
  scanInv numberToString hostFont paragraphStart (length paragraphText)
    (foldl (scanStep numberToString) ([], None)
       (zip paragraphText
            (safeFontSnapshot <$> ((fun i => hostFont (paragraphStart + i) 1)
                                     <$> seq 0 (length paragraphText))))).
Proof.
  induction paragraphText as [|c t IH] using rev_ind.
  - cbn. split; [done|]. split; [done|]. split; [by intros k r ?|by intros k a b ?].
  - rewrite length_app. cbn [length]. rewrite seq_app, !fmap_app. cbn [seq fmap list_fmap].
    rewrite zip_with_app by (rewrite !length_fmap, length_seq; done).
    rewrite foldl_app. cbn [zip_with foldl].
    replace (length t + 1) with (S (length t)) by lia. by apply scanStep_inv.
Qed.

Lemma extractRunsByCharScan_runs paragraphText :
  extractRunsByCharScan numberToString hostFont paragraphStart paragraphText
  = scanRuns (foldl (scanStep numberToString) ([], None)
       (zip paragraphText
            (safeFontSnapshot <$> ((fun i => hostFont (paragraphStart + i) 1)
                                     <$> seq 0 (length paragraphText))))).
Proof.
  unfold extractRunsByCharScan, scanRuns.
  destruct (foldl _ _ _) as [rs [[f t]|]]; cbn [fst snd]; [done | by rewrite app_nil_r].
Qed.

Lemma split_len_pos from length_ :
  1 <= length_ -> Forall (fun sp => 1 <= len sp) (split hostFont from length_).
Proof.
  funelim (split hostFont from length_); intros Hpos.
  - by repeat constructor.
  - clear Heqcall.
    pose proof (orb_false_elim _ _ Hsplit) as [_ Hlen]. apply Nat.leb_gt in Hlen.
    assert (Hmid : 1 <= length_ / 2) by (apply Nat.div_str_pos; lia).
    assert (Hmid' : length_ / 2 < length_) by (apply Nat.div_lt; lia).
    apply Forall_app. split.
    + match goal with IH : 1 <= length_ / 2 -> _ |- _ => by apply IH end.
    + match goal with IH : 1 <= length_ - length_ / 2 -> _ |- _ => apply IH; lia end.
Qed.

Lemma tiles_bounds {A} (l : list (Span A)) : forall from to,
  tiles from to l ->
  from <= to /\ Forall (fun sp => from <= start sp /\ start sp + len sp <= to) l.
Proof.
  induction l as [|sp l IH]; intros from to; cbn [tiles].
  - intros ->. split; [done | constructor].
  - intros [Hstart Hrest]. destruct (IH _ _ Hrest) as [Hle Hall].
    split; [lia|]. constructor; [lia|].
    eapply Forall_impl; [exact Hall|]. cbn. intros x [? ?]. lia.
Qed.

Lemma slice_nonempty a b (s : jsstring) : a < length s -> a < b -> slice a b s <> [].
Proof.
  intros Ha Hab. unfold slice. intros Hnil.
  apply (f_equal length) in Hnil. rewrite length_take, length_drop in Hnil. cbn in Hnil. lia.
Qed.

Lemma mergeStep_inv paragraphText st s :
  paragraphStart <= start s -> start s + len s <= paragraphStart + length paragraphText ->
  1 <= len s ->
  mergeInv numberToString st ->
  mergeInv numberToString (mergeStep numberToString paragraphStart paragraphText st s).
Proof.
  intros Hlo Hhi Hlen. set (piece := slice (start s - paragraphStart)
                                            (start s - paragraphStart + len s) paragraphText).
  assert (Hpiece : piece <> []) by (apply slice_nonempty; lia).
  destruct st as [out [l|]]; unfold mergeInv, mergeRuns, mergeStep; cbn [fst snd];
    fold piece; intros (Hnone & Hne & Hdiffer).
  - case_bool_decide as Hkey; cbn [fst snd].
    + split; [done|]. split.
      * apply Forall_app in Hne as [Hout Hl]. apply Forall_app. split; [done|].
        constructor; [|constructor]. cbn. apply Forall_cons in Hl as [Hl _]. by destruct (text l).
      * by apply (differ_snoc_same out l).
    + split; [done|]. split.
      * apply Forall_app. split; [done|]. by repeat constructor.
      * by apply differ_snoc_new.
  - rewrite (Hnone eq_refl). cbn [app]. split; [done|]. split; [by repeat constructor|].
    intros k a b Ha Hb. by destruct k.
Qed.

Lemma binarySplit_inv paragraphText :
  1 <= length paragraphText ->
  let rs := extractRunsByBinarySplit numberToString hostFont paragraphStart paragraphText in
  Forall (fun r => text r <> []) rs /\ differ rs.
Proof.
  intros Hpos. cbv zeta. unfold extractRunsByBinarySplit.
  pose proof (split_tiles hostFont paragraphStart (length paragraphText)) as Htiles.
  rewrite (sortByStart_tiles _ _ _ Htiles).
  apply tiles_bounds in Htiles as [_ Hbounds].
  pose proof (split_len_pos paragraphStart (length paragraphText) Hpos) as Hlens.
  assert (Hgen : forall spans st,
             Forall (fun sp => paragraphStart <= start sp /\
                               start sp + len sp <= paragraphStart + length paragraphText) spans ->
             Forall (fun sp => 1 <= len sp) spans ->
             mergeInv numberToString st ->
             mergeInv numberToString
               (foldl (mergeStep numberToString paragraphStart paragraphText) st spans)).
  { induction spans as [|sp spans IH]; intros st Hb Hl Hst; cbn [foldl]; [done|].
    apply Forall_cons in Hb as [[Hlo Hhi] Hb]. apply Forall_cons in Hl as [Hlen Hl].
    apply IH; [done | done |]. by apply mergeStep_inv. }
  specialize (Hgen _ ([], None) Hbounds Hlens).
  destruct (foldl _ _ _) as [out [l|]]; unfold mergeInv, mergeRuns in Hgen; cbn [fst snd] in Hgen.
  - destruct Hgen as (_ & Hne & Hd); [|done].
    split; [done|]. split; [constructor|]. intros k a b Ha. by destruct k.
  - destruct Hgen as (_ & Hne & Hd).
    + split; [done|]. split; [constructor|]. intros k a b Ha. by destruct k.
    + by rewrite app_nil_r in *.
Qed.
End MaximalRuns.

(** X12. The runs [extractRunsByFont] returns are as long as they can be:
    two runs that follow each other never have the same font key. There is
    always at least one run, and for a non-empty paragraph no run is
    empty. *)
Theorem extractRunsByFont_runs_maximal (numberToString : number -> jsstring)
    (hostFont : nat -> nat -> ShapeFont) (paragraphStart : nat) (paragraphText : jsstring) :
  let rs := extractRunsByFont numberToString hostFont paragraphStart paragraphText in
  rs <> [] /\
  (paragraphText <> [] -> Forall (fun r => text r <> []) rs) /\
  adjacentKeysDiffer numberToString rs.
Proof.
  cbv zeta.
  assert (Hparts : (paragraphText <> [] ->
                    Forall (fun r => text r <> [])
                      (extractRunsByFont numberToString hostFont paragraphStart paragraphText)) /\
                   adjacentKeysDiffer numberToString
                     (extractRunsByFont numberToString hostFont paragraphStart paragraphText)).
  { unfold extractRunsByFont.
    destruct (length paragraphText =? 0) eqn:Hn.
    - apply Nat.eqb_eq in Hn. split; [by destruct paragraphText|].
      intros k a b Ha Hb. by destruct k.
    - apply Nat.eqb_neq in Hn. destruct (length paragraphText <=? MAX_CHAR_SCAN).
      + rewrite extractRunsByCharScan_runs.
        destruct (charScan_inv numberToString hostFont paragraphStart paragraphText)
          as (_ & _ & Hfollow & Hdiffer).
        split; [|done]. intros _. apply Forall_forall. intros r Hr.
        apply list_elem_of_lookup in Hr as [k Hk]. by destruct (Hfollow k r Hk).
      + destruct (binarySplit_inv numberToString hostFont paragraphStart paragraphText)
          as [Hne Hdiffer]; [lia|]. split; [done | done]. }
  split; [|exact Hparts].
  intros Hnil.
  pose proof (extractRunsByFont_lossless numberToString hostFont paragraphStart paragraphText)
    as Hlossless.
  rewrite Hnil in Hlossless. cbn in Hlossless. subst paragraphText.
  by vm_compute in Hnil.
Qed.

(** X13. On the character scan (paragraphs of at most 1500 characters)
    every run is a stretch of characters that all have the font key of the
    first one, and it bears the font of the first one. *)
Theorem extractRunsByFont_follows_fonts (numberToString : number -> jsstring)
    (hostFont : nat -> nat -> ShapeFont) (paragraphStart : nat) (paragraphText : jsstring)
    (k : nat) (r : Run) :
  0 < length paragraphText <= MAX_CHAR_SCAN ->
  let rs := extractRunsByFont numberToString hostFont paragraphStart paragraphText in
  rs !! k = Some r ->
  text r <> [] /\
  font r = charFont hostFont paragraphStart (runOffset rs k) /\
  forall i, i < length (text r) ->
    fontKey numberToString (charFont hostFont paragraphStart (runOffset rs k + i))
    = fontKey numberToString (font r).
Proof.
  intros [Hpos Hmax]. cbv zeta. unfold extractRunsByFont.
  assert ((length paragraphText =? 0) = false) as -> by (apply Nat.eqb_neq; lia).
  assert ((length paragraphText <=? MAX_CHAR_SCAN) = true) as -> by by apply Nat.leb_le.
  rewrite extractRunsByCharScan_runs.
  destruct (charScan_inv numberToString hostFont paragraphStart paragraphText)
    as (_ & _ & Hfollow & _).
  apply Hfollow.
Qed.

Lemma extractRunsByFont_follows_fonts_witness :
  let probe := fun (from _ : nat) =>
                 Build_ShapeFont (Some false) (Some (from <? 3)) (Some (js "#000000"))
                   (Some false) (Some false) (Some (js "Arial")) (Some 18%float)
                   (Some false) (Some false) (Some false) (Some false) (Some (js "None")) in
  let rs := extractRunsByFont (fun _ => js "18") probe 0 (js "Hello") in
  text <$> rs = [js "Hel"; js "lo"] /\
  exists r, rs !! 1 = Some r /\ text r <> [] /\ font r = charFont probe 0 3 /\
            bold (font r) = false.
Proof.
  cbv zeta.
  set (probe := fun (from _ : nat) => Build_ShapeFont _ _ _ _ _ _ _ _ _ _ _ _).
  split; [vm_compute; reflexivity|].
  destruct (extractRunsByFont (fun _ => js "18") probe 0 (js "Hello") !! 1) as [r|] eqn:Hr;
    [|discriminate Hr].
  exists r. split; [done|].
  destruct (extractRunsByFont_follows_fonts (fun _ => js "18") probe 0 (js "Hello") 1 r)
    as (Hne & Hfont & _); [vm_compute; lia | exact Hr |].
  split; [done|]. split.
  - rewrite Hfont. f_equal.
  - injection Hr as <-. vm_compute. reflexivity.
Defined.

(** ** What is queued on the recomposed text *)

Lemma Forall2_filter_omap {A B C} (R : A -> B -> Prop) (S : A -> C -> Prop)
    (P : A -> Prop) `{forall x, Decision (P x)} (f : B -> option C) l k :
  Forall2 R l k ->
  (forall x y, R x y -> match f y with
                        | Some z => P x /\ S x z
                        | None => ~ P x
                        end) ->
  Forall2 S (filter P l) (omap f k).
Proof.
  intros Hlk Hf. induction Hlk as [|x y l k Hxy _ IH]; [constructor|].
  specialize (Hf x y Hxy).
  change (omap f (y :: k))
    with (match f y with Some z => z :: omap f k | None => omap f k end).
  destruct (f y) as [z|].
  - destruct Hf as [HP HS]. rewrite filter_cons_True by done. by constructor.
  - by rewrite filter_cons_False.
Qed.

(** X14. After [composeText], [queueFontRuns] queues one request per
    non-empty run, in order, and none for an empty run: the request covers,
    in the new text, exactly the characters of the run and carries the
    run's font, the name and the size only when they are set and the
    underline only when [applyUnderline] is on. *)
Theorem queueFontRuns_covers_runs (paragraphs : list Paragraph) (settings : Settings) :
  let composed := composeText paragraphs settings in
  Forall2 (requestsFont settings (fullText composed))
          (filter (fun r => text r <> []) (concat (runs <$> paragraphs)))
          (queueFontRuns (runSpans composed) settings).
Proof.
  cbv zeta. rewrite composeText_layout. unfold queueFontRuns.
  pose proof (layout_runs_occur settings (length paragraphs) paragraphs 0 0 [] eq_refl)
    as Hoccur.
  cbn [app] in Hoccur.
  eapply Forall2_filter_omap; [exact Hoccur|].
  intros r sp [Hocc Hfmt]. unfold fontRequest.
  pose proof (occursAt_spanText _ _ _ Hocc) as Hslice.
  destruct Hocc as (pre & post & _ & _ & Hlen).
  destruct (len sp =? 0) eqn:Hzero.
  - apply Nat.eqb_eq in Hzero. intros Hne. apply Hne. destruct (text r); [done|].
    cbn in Hlen. lia.
  - apply Nat.eqb_neq in Hzero. split.
    + intros Hnil. rewrite Hnil in Hlen. cbn in Hlen. lia.
    + unfold requestsFont. cbn. rewrite Hfmt. repeat split; done.
Qed.

(** X15. After [composeText], [queueParagraphFormats] queues one request
    per paragraph that has a format snapshot, in order: it covers, in the
    new text, exactly the text of the paragraph (joiner excluded) and
    carries the alignment, the indent level and the bullet visibility of
    the snapshot; bullet type and style are never assigned on a host without
    API set 1.10. *)
Theorem queueParagraphFormats_covers_paragraphs (paragraphs : list Paragraph)
    (settings : Settings) (isApiSupported_1_10 : bool) :
  let composed := composeText paragraphs settings in
  let requests := queueParagraphFormats isApiSupported_1_10 (paragraphSpans composed) in
  Forall2 (requestsFormat (fullText composed))
          (filter (fun p => paragraphFormat p <> None) paragraphs) requests /\
  (isApiSupported_1_10 = false ->
   Forall (fun req => pr_bulletType req = None /\ pr_bulletStyle req = None) requests).
Proof.
  cbv zeta. rewrite composeText_layout. unfold queueParagraphFormats. split.
  - pose proof (layout_paragraphs_occur settings (length paragraphs) paragraphs 0 0 [] eq_refl)
      as Hoccur.
    cbn [app] in Hoccur.
    eapply Forall2_filter_omap; [exact Hoccur|].
    intros p sp [Hocc Hfmt]. unfold paragraphRequest. rewrite Hfmt.
    pose proof (occursAt_spanText _ _ _ Hocc) as Hslice.
    destruct (paragraphFormat p) as [format|] eqn:Hformat; [|intros Hn; by apply Hn].
    split; [done|]. unfold requestsFormat. cbn. split; [done|]. by exists format.
  - intros ->. apply Forall_forall. intros req Hreq.
    apply list_elem_of_omap in Hreq as (sp & _ & Hreq). unfold paragraphRequest in Hreq.
    destruct (fmt sp); [|done]. by injection Hreq as <-.
Qed.

Lemma queueFontRuns_covers_runs_witness :
  let composed := composeText helloWorldParagraphs (sampleSettings true ModeApply) in
  (fun req => (fr_start req, fr_length req, fr_bold req))
    <$> queueFontRuns (runSpans composed) (sampleSettings true ModeApply)
  = [(0, 3, true); (3, 2, false); (6, 5, false); (12, 1, false)] /\
  Forall2 (requestsFont (sampleSettings true ModeApply) (fullText composed))
          (filter (fun r => text r <> []) (concat (runs <$> helloWorldParagraphs)))
          (queueFontRuns (runSpans composed) (sampleSettings true ModeApply)).
Proof.
  split; [vm_compute; reflexivity|].
  apply (queueFontRuns_covers_runs helloWorldParagraphs (sampleSettings true ModeApply)).
Defined.

(** ** Shape keys *)

Lemma join_snoc sep (l : list jsstring) x :
  l <> [] -> join sep (l ++ [x]) = join sep l ++ sep ++ x.
Proof.
  induction l as [|a l IH]; [done|]. intros _. destruct l as [|b l]; [done|].
  change (join sep ((a :: b :: l) ++ [x])) with (a ++ sep ++ join sep ((b :: l) ++ [x])).
  rewrite IH by done.
  change (join sep (a :: b :: l)) with (a ++ sep ++ join sep (b :: l)).
  by rewrite <- !app_assoc.
Qed.

Lemma shapeKey_join shapeId groupPath :
  shapeKey shapeId groupPath = join (js "::") (groupPath ++ [shapeId]).
Proof.
  unfold shapeKey. destruct groupPath as [|g gp]; [done|]. cbn [isEmpty].
  by rewrite join_snoc.
Qed.

(** Two texts without a colon that are followed by [::] or by nothing are
    equal when what they start is equal. *)
Lemma colon_free_prefix (a b x y : jsstring) :
  58%N ∉ a -> 58%N ∉ b ->
  (x = [] \/ exists x', x = 58%N :: x') -> (y = [] \/ exists y', y = 58%N :: y') ->
  a ++ x = b ++ y -> a = b /\ x = y.
Proof.
  revert b. induction a as [|c a IH]; intros [|d b] Ha Hb Hx Hy Heq.
  - done.
  - exfalso. cbn in Heq. destruct Hx as [-> | [x' ->]]; [done|].
    injection Heq as <- _. apply Hb. by left.
  - exfalso. cbn in Heq. destruct Hy as [-> | [y' ->]]; [done|].
    injection Heq as -> _. apply Ha. by left.
  - cbn in Heq. injection Heq as -> Heq.
    destruct (IH b) as [-> ->]; try done.
    + intros ?. apply Ha. by right.
    + intros ?. apply Hb. by right.
Qed.

Lemma join_colons_inj (l l' : list jsstring) :
  l <> [] -> l' <> [] ->
  Forall (fun s => 58%N ∉ s) l -> Forall (fun s => 58%N ∉ s) l' ->
  join (js "::") l = join (js "::") l' -> l = l'.
Proof.
  revert l'. induction l as [|a l IH]; [done|]. intros [|b l'] _ Hne' Hl Hl' Heq; [done|].
  apply Forall_cons in Hl as [Ha Hl]. apply Forall_cons in Hl' as [Hb Hl'].
  destruct l as [|a2 l]; destruct l' as [|b2 l'].
  - cbn in Heq. by subst.
  - exfalso. change (join (js "::") (b :: b2 :: l'))
      with (b ++ js "::" ++ join (js "::") (b2 :: l')) in Heq.
    cbn [join] in Heq. rewrite <- (app_nil_r a) in Heq.
    destruct (colon_free_prefix a b [] (js "::" ++ join (js "::") (b2 :: l'))) as [_ Hx];
      try done; [by left | right; by eexists].
  - exfalso. change (join (js "::") (a :: a2 :: l))
      with (a ++ js "::" ++ join (js "::") (a2 :: l)) in Heq.
    cbn [join] in Heq. rewrite <- (app_nil_r b) in Heq.
    destruct (colon_free_prefix a b (js "::" ++ join (js "::") (a2 :: l)) []) as [_ Hx];
      try done; [right; by eexists | by left].
  - change (join (js "::") (a :: a2 :: l))
      with (a ++ js "::" ++ join (js "::") (a2 :: l)) in Heq.
    change (join (js "::") (b :: b2 :: l'))
      with (b ++ js "::" ++ join (js "::") (b2 :: l')) in Heq.
    destruct (colon_free_prefix a b (js "::" ++ join (js "::") (a2 :: l))
                (js "::" ++ join (js "::") (b2 :: l')) Ha Hb) as [-> Hrest];
      [right; by eexists | right; by eexists | exact Heq |].
    cbn [js app] in Hrest. injection Hrest as Hrest.
    f_equal. by apply IH.
Qed.

(** X16. [shapeKey] tells shapes apart when no id holds a colon: two shapes
    with the same key have the same id and lie in the same groups. With a
    colon in an id two different places can share a key. *)
Theorem shapeKey_injective (shapeId shapeId' : jsstring) (groupPath groupPath' : list jsstring) :
  Forall (fun s => 58%N ∉ s) (shapeId :: groupPath) ->
  Forall (fun s => 58%N ∉ s) (shapeId' :: groupPath') ->
  shapeKey shapeId groupPath = shapeKey shapeId' groupPath' ->
  shapeId = shapeId' /\ groupPath = groupPath'.
Proof.
  intros Hl Hl'. rewrite !shapeKey_join. intros Heq.
  apply Forall_cons in Hl as [Hid Hpath]. apply Forall_cons in Hl' as [Hid' Hpath'].
  apply join_colons_inj in Heq.
  - apply app_inj_tail in Heq as [-> ->]. done.
  - by destruct groupPath.
  - by destruct groupPath'.
  - apply Forall_app. split; [done|]. by constructor.
  - apply Forall_app. split; [done|]. by constructor.
Qed.

Lemma shapeKey_injective_witness :
  shapeKey (js "12") [js "4"; js "9"] = js "4::9::12" /\
  (js "12" = js "12" /\ [js "4"; js "9"] = [js "4"; js "9"]) /\
  shapeKey (js "9::12") [js "4"] = shapeKey (js "12") [js "4"; js "9"].
Proof.
  split; [vm_compute; reflexivity|]. split; [|vm_compute; reflexivity].
  apply (shapeKey_injective (js "12") (js "12") [js "4"; js "9"] [js "4"; js "9"]);
    [| |reflexivity];
    repeat constructor; vm_compute;
    intros H; repeat (apply elem_of_cons in H as [H|H]; [discriminate H|]);
    by apply elem_of_nil in H.
Defined.

(** ** Walking the shapes of a slide *)

Lemma HostShape_induction (P : HostShape -> Prop) :
  (forall shapeId shapeName viaGroup viaShapes viaGroupItems,
     Forall P viaGroup -> Forall P viaShapes -> Forall P viaGroupItems ->
     P (GroupShape shapeId shapeName viaGroup viaShapes viaGroupItems)) ->
  (forall shapeId shapeName table, P (TableShape shapeId shapeName table)) ->
  (forall shapeId shapeName textFrame, P (OtherShape shapeId shapeName textFrame)) ->
  forall shape, P shape.
Proof.
  intros Hgroup Htable Hother. fix go 1. intros [i n c1 c2 c3 | i n t | i n tf].
  - apply Hgroup.
    + revert c1. fix goList 1. intros [|x r]; constructor; [apply go | apply goList].
    + revert c2. fix goList 1. intros [|x r]; constructor; [apply go | apply goList].
    + revert c3. fix goList 1. intros [|x r]; constructor; [apply go | apply goList].
  - apply Htable.
  - apply Hother.
Qed.

Lemma walkShape_group ignore gp gnp shapeId shapeName c1 c2 c3 :
  walkShape ignore gp gnp (GroupShape shapeId shapeName c1 c2 c3)
  = if ignores ignore (default [] shapeName) then []
    else walkShapeItems ignore (gp ++ [shapeId])
           (gnp ++ [if isEmpty (default [] shapeName) then shapeId else default [] shapeName])
           (getGroupChildShapes c1 c2 c3).
Proof.
  cbn [walkShape hostShapeName]. destruct (ignores ignore (default [] shapeName)); [done|].
  unfold walkShapeItems. fold (getGroupChildShapes c1 c2 c3).
  induction (getGroupChildShapes c1 c2 c3) as [|child rest IH]; [done|].
  cbn [mbind list_bind]. by rewrite <- IH.
Qed.

Lemma getGroupChildShapes_Forall (P : HostShape -> Prop) c1 c2 c3 :
  Forall P c1 -> Forall P c2 -> Forall P c3 -> Forall P (getGroupChildShapes c1 c2 c3).
Proof. intros H1 H2 H3. unfold getGroupChildShapes. destruct c1; [destruct c2|]; done. Qed.

(** The walk calls the visitor on shapes that are not groups and whose name
    the expression does not match, and on nothing the walk without an
    expression does not reach at the same place. *)
Lemma walkShape_visits ignore shape : forall gp gnp v,
  v ∈ walkShape ignore gp gnp shape ->
  isGroup (visited v) = false /\
  ignores ignore (hostShapeName (visited v)) = false /\
  v ∈ walkShape None gp gnp shape.
Proof.
  induction shape as [i n c1 c2 c3 IH1 IH2 IH3 | i n t | i n tf] using HostShape_induction;
    intros gp gnp v.
  - rewrite !walkShape_group. cbn [ignores].
    destruct (ignores ignore (default [] n)); [by intros ?%elem_of_nil|].
    unfold walkShapeItems. intros (child & Hv & Hchild)%list_elem_of_bind.
    pose proof (getGroupChildShapes_Forall _ _ _ _ IH1 IH2 IH3) as Hall.
    rewrite Forall_forall in Hall. destruct (Hall child Hchild _ _ _ Hv) as (? & ? & ?).
    split; [done|]. split; [done|]. apply list_elem_of_bind. by exists child.
  - cbn [walkShape hostShapeName ignores].
    destruct (ignores ignore (default [] n)) eqn:Hn; [by intros ?%elem_of_nil|].
    intros ->%list_elem_of_singleton. cbn. split; [done|]. split; [done|]. by left.
  - cbn [walkShape hostShapeName ignores].
    destruct (ignores ignore (default [] n)) eqn:Hn; [by intros ?%elem_of_nil|].
    intros ->%list_elem_of_singleton. cbn. split; [done|]. split; [done|]. by left.
Qed.

Lemma walkShapes_visits ignore slideShapes v :
  v ∈ walkShapes ignore slideShapes ->
  isGroup (visited v) = false /\
  ignores ignore (hostShapeName (visited v)) = false /\
  v ∈ walkShapes None slideShapes.
Proof.
  unfold walkShapes, walkShapeItems. intros (shape & Hv & Hshape)%list_elem_of_bind.
  destruct (walkShape_visits _ _ _ _ _ Hv) as (? & ? & ?).
  split; [done|]. split; [done|]. apply list_elem_of_bind. by exists shape.
Qed.

Lemma mapOfEntries_is_Some `{Countable K} {V} (entries : list (K * V)) k x :
  (k, x) ∈ entries -> is_Some (mapOfEntries entries !! k).
Proof.
  intros Hin. rewrite mapOfEntries_lookup.
  destruct (last (filter (fun kv => kv.1 = k) entries)) as [kv|] eqn:Hlast; [by eexists|].
  apply last_None in Hlast.
  exfalso. by apply (filter_nil_not_elem_of _ _ (k, x) Hlast).
Qed.

Lemma mapOfEntries_NoDup `{Countable K} {V} (entries : list (K * V)) k x :
  NoDup (fst <$> entries) -> (k, x) ∈ entries -> mapOfEntries entries !! k = Some x.
Proof.
  intros Hnodup Hin. destruct (mapOfEntries_is_Some entries k x Hin) as [y Hy].
  rewrite Hy. rewrite mapOfEntries_lookup in Hy.
  destruct (last (filter (fun kv => kv.1 = k) entries)) as [[k' y']|] eqn:Hlast; [|done].
  cbn in Hy. injection Hy as ->.
  apply last_elem_of, list_elem_of_filter in Hlast as [Hk Hin']. cbn in Hk. subst k'.
  assert ((k, y) = (k, x)) as [= ->]; [|done].
  by apply (NoDup_fmap_eq fst entries).
Qed.

Section ExtractionFacts.
Variable compileRegExp : jsstring -> option (jsstring -> bool).
Variable numberToString : number -> jsstring.
Variable slideIndex : Z.
Variable settings : Settings.
Variable slideShapes : list HostShape.

Local Abbreviation ignore := (compileIgnoreRegex compileRegExp (ignoreRegex settings)).
Local Abbreviation targets :=
  (extractSlideTargets compileRegExp numberToString slideIndex settings slideShapes).

Lemma shapeTextTargets_visit st :
  st ∈ shapeTextTargets targets ->
  exists v name tf,
    v ∈ walkShapes ignore slideShapes /\
    visited v = OtherShape (st_shapeId st) name (Some tf) /\
    shapeTextTarget numberToString slideIndex v tf = Some st.
Proof.
  cbn [extractSlideTargets shapeTextTargets].
  intros (v & Hst & Hv)%list_elem_of_bind. unfold visitShapeTexts in Hst.
  destruct (visited v) as [| |i n [tf|]] eqn:Hvisited; try by apply elem_of_nil in Hst.
  destruct (shapeTextTarget numberToString slideIndex v tf) as [st'|] eqn:Htarget;
    [|by apply elem_of_nil in Hst].
  apply list_elem_of_singleton in Hst as ->.
  exists v, n, tf. split; [done|]. split; [|done].
  unfold shapeTextTarget in Htarget. rewrite Hvisited in Htarget.
  destruct (negb (hasText tf)); [done|]. destruct (negb _); [done|].
  by injection Htarget as <-.
Qed.

Lemma tableCellTargets_visit tc :
  tc ∈ tableCellTargets targets ->
  exists v name table r c,
    v ∈ walkShapes ignore slideShapes /\
    visited v = TableShape (tc_shapeId tc) name table /\
    r < rowCount table /\ c < columnCount table /\
    cellTarget slideIndex v table (r, c) = Some tc.
Proof.
  cbn [extractSlideTargets tableCellTargets].
  intros (v & Htc & Hv)%list_elem_of_bind. unfold visitCells in Htc.
  destruct (visited v) as [|i n table|] eqn:Hvisited; try by apply elem_of_nil in Htc.
  apply list_elem_of_omap in Htc as ([r c] & Hrc & Htarget).
  unfold cellCoordinates in Hrc. apply list_elem_of_bind in Hrc as (r' & Hc & Hr).
  apply list_elem_of_fmap in Hc as (c' & [= -> ->] & Hc).
  apply elem_of_seq in Hr, Hc.
  exists v, n, table, r', c'. split; [done|]. split; [|split; [lia|split; [lia|done]]].
  unfold cellTarget in Htarget. rewrite Hvisited in Htarget. cbn [fst snd] in Htarget.
  destruct (cellAt table r' c'); [|done]. destruct (_ || _); [done|].
  by injection Htarget as <-.
Qed.
End ExtractionFacts.

(** X17. Whatever [extractSlideTargets] extracts, [applySlideTranslations]
    finds again: the key of every text-shape target and of every table-cell
    target is in the index [buildShapeIndex] builds from the same shapes,
    although the extraction skips the shapes the exclusion expression
    matches and the index does not. When the keys of the shapes of the slide
    are distinct, the index gives back the very shape the target was
    extracted from: a shape with that id, a text frame that has text, or a
    table that has the cell. *)
Theorem extracted_targets_are_indexed (compileRegExp : jsstring -> option (jsstring -> bool))
    (numberToString : number -> jsstring) (slideIndex : Z) (settings : Settings)
    (slideShapes : list HostShape) :
  let targets :=
    extractSlideTargets compileRegExp numberToString slideIndex settings slideShapes in
  let index := buildShapeIndex slideShapes in
  (forall st, st ∈ shapeTextTargets targets ->
     is_Some (index !! shapeKey (st_shapeId st) (st_groupPath st))) /\
  (forall tc, tc ∈ tableCellTargets targets ->
     is_Some (index !! shapeKey (tc_shapeId tc) (tc_groupPath tc))) /\
  (NoDup (visitKey <$> walkShapes None slideShapes) ->
   (forall st, st ∈ shapeTextTargets targets ->
      exists name tf,
        index !! shapeKey (st_shapeId st) (st_groupPath st)
        = Some (OtherShape (st_shapeId st) name (Some tf)) /\
        hasText tf = true /\ default [] name = st_shapeName st) /\
   (forall tc, tc ∈ tableCellTargets targets ->
      exists name table r c,
        index !! shapeKey (tc_shapeId tc) (tc_groupPath tc)
        = Some (TableShape (tc_shapeId tc) name table) /\
        row tc = Z.of_nat r /\ col tc = Z.of_nat c /\
        r < rowCount table /\ c < columnCount table /\
        is_Some (cellAt table r c))).
Proof.
  cbv zeta.
  assert (Hentry : forall v,
            v ∈ walkShapes (compileIgnoreRegex compileRegExp (ignoreRegex settings)) slideShapes ->
            (visitKey v, visited v)
              ∈ (fun v => (visitKey v, visited v)) <$> walkShapes None slideShapes).
  { intros v Hv. apply walkShapes_visits in Hv as (_ & _ & Hv).
    apply list_elem_of_fmap. by exists v. }
  assert (Hkeys : NoDup (visitKey <$> walkShapes None slideShapes) ->
            NoDup (fst <$> ((fun v => (visitKey v, visited v)) <$> walkShapes None slideShapes))).
  { intros Hnodup. by rewrite <- list_fmap_compose. }
  split; [|split; [|intros Hnodup; split]].
  - intros st Hst.
    destruct (shapeTextTargets_visit _ _ _ _ _ _ Hst) as (v & name & tf & Hv & Hvisited & Htarget).
    unfold shapeTextTarget in Htarget. destruct (negb (hasText tf)); [done|].
    destruct (negb _); [done|]. injection Htarget as <-. cbn [st_shapeId st_groupPath].
    apply (mapOfEntries_is_Some _ _ (visited v)). by apply Hentry.
  - intros tc Htc.
    destruct (tableCellTargets_visit _ _ _ _ _ _ Htc)
      as (v & name & table & r & c & Hv & Hvisited & Hr & Hc & Htarget).
    unfold cellTarget in Htarget. cbn [fst snd] in Htarget.
    destruct (cellAt table r c); [|done]. destruct (_ || _); [done|].
    injection Htarget as <-. cbn [tc_shapeId tc_groupPath].
    apply (mapOfEntries_is_Some _ _ (visited v)). by apply Hentry.
  - intros st Hst.
    destruct (shapeTextTargets_visit _ _ _ _ _ _ Hst) as (v & name & tf & Hv & Hvisited & Htarget).
    exists name, tf. unfold shapeTextTarget in Htarget.
    destruct (hasText tf) eqn:Htext; [|done]. cbn [negb] in Htarget.
    destruct (negb _); [done|]. injection Htarget as <-.
    cbn [st_shapeId st_groupPath st_shapeName] in *.
    split; [|split; [done | by rewrite Hvisited]].
    rewrite <- Hvisited. unfold buildShapeIndex.
    apply mapOfEntries_NoDup; [by apply Hkeys | by apply Hentry].
  - intros tc Htc.
    destruct (tableCellTargets_visit _ _ _ _ _ _ Htc)
      as (v & name & table & r & c & Hv & Hvisited & Hr & Hc & Htarget).
    exists name, table, r, c. unfold cellTarget in Htarget. cbn [fst snd] in Htarget.
    destruct (cellAt table r c) as [cell|] eqn:Hcell; [|done]. destruct (_ || _); [done|].
    injection Htarget as <-. cbn [tc_shapeId tc_groupPath row col] in *.
    split; [|by repeat split].
    rewrite <- Hvisited. unfold buildShapeIndex.
    apply mapOfEntries_NoDup; [by apply Hkeys | by apply Hentry].
Qed.

(** X18. What [extractSlideTargets] keeps. A text-shape target comes from a
    shape that is not a table, whose name the exclusion expression does not
    match and whose frame has text; its paragraphs are cut from the string
    passed as [knownText], which is the shape's name: joined by line feeds
    their texts are the name, and one of its runs holds a character that is
    not whitespace. A table-cell target comes from a cell whose text is not
    blank: it has at least one run, its character count is the length of
    the cell text and is positive, and its id names the slide, the key of
    the table, the row and the column. *)
Theorem extractSlideTargets_keeps (compileRegExp : jsstring -> option (jsstring -> bool))
    (numberToString : number -> jsstring) (slideIndex : Z) (settings : Settings)
    (slideShapes : list HostShape) :
  let targets :=
    extractSlideTargets compileRegExp numberToString slideIndex settings slideShapes in
  let ignore := compileIgnoreRegex compileRegExp (ignoreRegex settings) in
  (forall st, st ∈ shapeTextTargets targets ->
     ignores ignore (st_shapeName st) = false /\
     join [10%N] (paragraphText <$> paragraphs st) = st_shapeName st /\
     (exists p r, p ∈ paragraphs st /\ r ∈ runs p /\ trim (text r) <> []) /\
     forall j p, paragraphs st !! j = Some p ->
       id p = paragraphIdOf slideIndex (shapeKey (st_shapeId st) (st_groupPath st)) j) /\
  (forall tc, tc ∈ tableCellTargets targets ->
     ignores ignore (tc_shapeName tc) = false /\
     tc_runs tc <> [] /\ (0 < tc_originalChars tc)%Z /\
     exists r c, row tc = Z.of_nat r /\ col tc = Z.of_nat c /\
       tc_paragraphId tc
       = cellIdOf slideIndex (shapeKey (tc_shapeId tc) (tc_groupPath tc)) r c).
Proof.
  cbv zeta. split.
  - intros st Hst.
    destruct (shapeTextTargets_visit _ _ _ _ _ _ Hst) as (v & name & tf & Hv & Hvisited & Htarget).
    apply walkShapes_visits in Hv as (_ & Hignore & _).
    unfold shapeTextTarget in Htarget. destruct (negb (hasText tf)); [done|].
    destruct (existsb _ _) eqn:Huseful; [|done]. cbn [negb] in Htarget.
    injection Htarget as <-. cbn [st_shapeName st_shapeId st_groupPath paragraphs].
    set (ps := extractShapeTextParagraphs _ _ _ _ _ _ _) in *.
    apply existsb_exists in Huseful as (p & Hp & Hruns).
    apply existsb_exists in Hruns as (r & Hr & Hlen).
    apply Nat.ltb_lt in Hlen.
    assert (Hname : hostShapeName (visited v) <> []).
    { intros Hnil. unfold ps in Hp. rewrite Hnil in Hp.
      by apply list_elem_of_In, elem_of_nil in Hp. }
    destruct (extractShapeTextParagraphs_closed_text numberToString (frameFont tf)
                (frameFormat tf) slideIndex (visitKey v) (frameText tf)
                (hostShapeName (visited v)) Hname) as (Hjoin & Hids).
    split; [done|]. split; [done|]. split; [|done].
    exists p, r. split; [by apply list_elem_of_In|]. split; [by apply list_elem_of_In|].
    intros Hnil. rewrite Hnil in Hlen. cbn in Hlen. lia.
  - intros tc Htc.
    destruct (tableCellTargets_visit _ _ _ _ _ _ Htc)
      as (v & name & table & r & c & Hv & Hvisited & Hr & Hc & Htarget).
    apply walkShapes_visits in Hv as (_ & Hignore & _).
    unfold cellTarget in Htarget. cbn [fst snd] in Htarget.
    destruct (cellAt table r c) as [cell|]; [|done].
    destruct (isEmpty (cell_text cell) || _) eqn:Hblank; [done|].
    injection Htarget as <-. cbn. split; [done|]. split; [|split].
    + destruct (cell_textRuns cell) as [[|tr trs]|]; done.
    + apply orb_false_elim in Hblank as [Hblank _]. destruct (cell_text cell); [done|]. cbn. lia.
    + by exists r, c.
Qed.

(** ** The paragraph ids of a slide are distinct *)

Lemma sep_free_prefix (sep : N) (a b x y : jsstring) :
  sep ∉ a -> sep ∉ b ->
  (x = [] \/ exists x', x = sep :: x') -> (y = [] \/ exists y', y = sep :: y') ->
  a ++ x = b ++ y -> a = b /\ x = y.
Proof.
  revert b. induction a as [|c a IH]; intros [|d b] Ha Hb Hx Hy Heq.
  - done.
  - exfalso. cbn in Heq. destruct Hx as [-> | [x' ->]]; [done|].
    injection Heq as <- _. apply Hb. by left.
  - exfalso. cbn in Heq. destruct Hy as [-> | [y' ->]]; [done|].
    injection Heq as -> _. apply Ha. by left.
  - cbn in Heq. injection Heq as -> Heq.
    destruct (IH b) as [-> ->]; try done.
    + intros ?. apply Ha. by right.
    + intros ?. apply Hb. by right.
Qed.

Lemma pretty_N_char_digit y : N_of_ascii (pretty_N_char y) <> 95%N.
Proof. unfold pretty_N_char. repeat case_match; by vm_compute. Qed.

Lemma pretty_N_go_no_underscore x : forall s, 95%N ∉ js s -> 95%N ∉ js (pretty_N_go x s).
Proof.
  induction (N.lt_wf_0 x) as [x _ IH]. intros s Hs.
  destruct (decide (x = 0%N)) as [->|Hx]; [by rewrite pretty_N_go_0|].
  rewrite pretty_N_go_step by lia. apply IH; [apply N.div_lt; lia|].
  cbn [js]. intros [Hc|?]%elem_of_cons; [|done].
  by apply (pretty_N_char_digit (x mod 10)).
Qed.

Lemma decimal_nat_no_underscore (n : nat) : 95%N ∉ decimal n.
Proof.
  unfold decimal, pretty, pretty_nat, pretty, pretty_N.
  case_decide; [vm_compute; by intros [?|?%elem_of_nil]%elem_of_cons|].
  apply pretty_N_go_no_underscore. by intros ?%elem_of_nil.
Qed.

Lemma decimal_nat_inj (n m : nat) : decimal n = decimal m -> n = m.
Proof. unfold decimal. intros Heq%js_inj. by apply (inj pretty). Qed.

Lemma blockId_inj slideIndex key key' tail tail' :
  95%N ∉ key -> 95%N ∉ key' ->
  blockId slideIndex key tail = blockId slideIndex key' tail' ->
  key = key' /\ tail = tail'.
Proof.
  intros Hk Hk'. unfold blockId. intros Heq. do 3 apply app_inv_head in Heq.
  destruct (sep_free_prefix 95%N key key' (95%N :: tail) (95%N :: tail') Hk Hk')
    as [-> Htail]; [right; by eexists | right; by eexists | done |].
  by injection Htail as ->.
Qed.

Lemma paragraphIdOf_blockId slideIndex key j :
  paragraphIdOf slideIndex key j = blockId slideIndex key (112%N :: decimal j).
Proof. unfold paragraphIdOf, blockId. reflexivity. Qed.

Lemma cellIdOf_blockId slideIndex key r c :
  cellIdOf slideIndex key r c
  = blockId slideIndex key (99%N :: js "ell" ++ decimal r ++ js "_" ++ decimal c).
Proof. unfold cellIdOf, blockId. reflexivity. Qed.

Lemma cellIdOf_inj slideIndex key r c r' c' :
  cellIdOf slideIndex key r c = cellIdOf slideIndex key r' c' -> r = r' /\ c = c'.
Proof.
  unfold cellIdOf. intros Heq. do 5 apply app_inv_head in Heq.
  destruct (sep_free_prefix 95%N (decimal r) (decimal r') (js "_" ++ decimal c)
              (js "_" ++ decimal c')) as [Hr Hc]; try done.
  - apply decimal_nat_no_underscore.
  - apply decimal_nat_no_underscore.
  - right. by eexists.
  - right. by eexists.
  - apply decimal_nat_inj in Hr. cbn in Hc. injection Hc as Hc.
    apply decimal_nat_inj in Hc. done.
Qed.

Lemma fmap_by_index {A B} (f : A -> B) (g : nat -> B) (l : list A) :
  (forall j x, l !! j = Some x -> f x = g j) -> f <$> l = g <$> seq 0 (length l).
Proof.
  intros Hfg. apply list_eq. intros j. rewrite !list_lookup_fmap.
  destruct (l !! j) as [x|] eqn:Hx.
  - rewrite lookup_seq_lt by by eapply lookup_lt_Some. cbn. f_equal. by apply Hfg.
  - rewrite lookup_seq_ge; [done|]. by apply lookup_ge_None.
Qed.

Lemma NoDup_fmap_omap {A B C} (f : A -> option B) (g : B -> C) (h : A -> C) (l : list A) :
  NoDup l -> (forall a b, f a = Some b -> g b = h a) ->
  (forall a a', h a = h a' -> a = a') ->
  NoDup (g <$> omap f l) /\ forall x, x ∈ g <$> omap f l -> exists a, a ∈ l /\ x = h a.
Proof.
  intros Hnodup Hgh Hinj. induction Hnodup as [|a l Ha Hl [IH1 IH2]].
  - split; [constructor | by intros x ?%elem_of_nil].
  - change (omap f (a :: l))
      with (match f a with Some b => b :: omap f l | None => omap f l end).
    destruct (f a) as [b|] eqn:Hfa.
    + rewrite fmap_cons. split.
      * constructor; [|done]. intros Hin. destruct (IH2 _ Hin) as (a' & Ha' & Heq).
        rewrite (Hgh a b Hfa) in Heq. apply Hinj in Heq. by subst.
      * intros x [->|Hx]%elem_of_cons.
        -- exists a. split; [by left | by apply Hgh].
        -- destruct (IH2 x Hx) as (a' & Ha' & ->). exists a'. split; [by right | done].
    + split; [done|]. intros x Hx. destruct (IH2 x Hx) as (a' & Ha' & ->).
      exists a'. split; [by right | done].
Qed.

Section DistinctIds.
Variable compileRegExp : jsstring -> option (jsstring -> bool).
Variable numberToString : number -> jsstring.
Variable slideIndex : Z.

(** The ids [l] are ids of blocks of the shape of [v], with tails that
    start with [c]. *)
Local Abbreviation shaped c v l :=
  (forall x, x ∈ l -> exists tail, x = blockId slideIndex (visitKey v) (c :: tail)).

Lemma visit_paragraph_ids v :
  let ids := id <$> (visitShapeTexts numberToString slideIndex v ≫= paragraphs) in
  NoDup ids /\ shaped 112%N v ids.
Proof.
  cbv zeta.
  assert (Hids : forall j p,
            (visitShapeTexts numberToString slideIndex v ≫= paragraphs) !! j = Some p ->
            id p = paragraphIdOf slideIndex (visitKey v) j).
  { unfold visitShapeTexts. destruct (visited v) as [| |i n [tf|]]; try done.
    unfold shapeTextTarget. destruct (negb (hasText tf)); [done|].
    destruct (negb _); [done|]. unfold option_list. cbn [option_rect].
    rewrite bind_cons. cbn [mbind list_bind]. rewrite app_nil_r.
    cbn [paragraphs]. intros j p Hp.
    destruct (decide (hostShapeName (visited v) = [])) as [Hnil|Hne].
    - rewrite Hnil in Hp. done.
    - by apply (extractShapeTextParagraphs_closed_text _ _ _ _ _ _ _ Hne) in Hp. }
  rewrite (fmap_by_index _ _ _ Hids). split.
  - apply NoDup_fmap_2; [|apply NoDup_seq].
    intros j j' Heq. by apply paragraphIdOf_inj in Heq.
  - intros x (j & -> & _)%list_elem_of_fmap. rewrite paragraphIdOf_blockId. by eexists.
Qed.

Lemma NoDup_cellCoordinates table : NoDup (cellCoordinates table).
Proof.
  unfold cellCoordinates. generalize (columnCount table) as n. intros n.
  assert (Hgen : forall rows : list nat, NoDup rows ->
            NoDup (rows ≫= fun r : nat => (fun c : nat => (r, c)) <$> seq 0 n)).
  { induction 1 as [|r rows Hr Hrows IH]; [constructor|].
    cbn [mbind list_bind]. apply NoDup_app. split; [|split; [|done]].
    - apply NoDup_fmap_2; [by intros c c' [= ->] | apply NoDup_seq].
    - intros rc (c & -> & _)%list_elem_of_fmap (r' & Hc & Hr')%list_elem_of_bind.
      apply list_elem_of_fmap in Hc as (c' & [= <- _] & _). done. }
  apply Hgen, NoDup_seq.
Qed.

Lemma visit_cell_ids v :
  let ids := tc_paragraphId <$> visitCells slideIndex v in
  NoDup ids /\ shaped 99%N v ids.
Proof.
  cbv zeta. unfold visitCells.
  destruct (visited v) as [|i n table|] eqn:Hvisited;
    try (split; [constructor | by intros x ?%elem_of_nil]).
  destruct (NoDup_fmap_omap (cellTarget slideIndex v table) tc_paragraphId
              (fun rc => cellIdOf slideIndex (visitKey v) rc.1 rc.2)
              (cellCoordinates table) (NoDup_cellCoordinates table)) as [Hnodup Hshape].
  - intros [r c] tc. unfold cellTarget. cbn [fst snd].
    destruct (cellAt table r c); [|done]. destruct (_ || _); [done|]. by intros [= <-].
  - intros [r c] [r' c'] Heq. cbn [fst snd] in Heq. by apply cellIdOf_inj in Heq as [-> ->].
  - split; [done|]. intros x Hx. destruct (Hshape x Hx) as ([r c] & _ & ->).
    rewrite cellIdOf_blockId. by eexists.
Qed.

Lemma NoDup_bind_keyed (c : N) (ids : Visit -> list jsstring) (vs : list Visit) :
  NoDup (visitKey <$> vs) -> Forall (fun v => 95%N ∉ visitKey v) vs ->
  (forall v, NoDup (ids v) /\ shaped c v (ids v)) ->
  NoDup (vs ≫= ids) /\
  forall x, x ∈ vs ≫= ids ->
    exists v tail, v ∈ vs /\ x = blockId slideIndex (visitKey v) (c :: tail).
Proof.
  intros Hkeys Hfree Hids. induction vs as [|v vs IH].
  - split; [constructor | by intros x ?%elem_of_nil].
  - rewrite fmap_cons in Hkeys. apply NoDup_cons in Hkeys as [Hv Hkeys].
    apply Forall_cons in Hfree as [Hvfree Hfree].
    destruct (IH Hkeys Hfree) as [IH1 IH2]. destruct (Hids v) as [Hnodup Hshape].
    cbn [mbind list_bind]. split.
    + apply NoDup_app. split; [done|]. split; [|done].
      intros x Hx Hx'. destruct (Hshape x Hx) as (tail & ->).
      destruct (IH2 _ Hx') as (v' & tail' & Hv' & Heq).
      rewrite Forall_forall in Hfree.
      apply blockId_inj in Heq as [Hkey _]; [|done|by apply Hfree].
      apply Hv. rewrite Hkey. by apply list_elem_of_fmap_2.
    + intros x [Hx|Hx]%elem_of_app.
      * destruct (Hshape x Hx) as (tail & ->). exists v, tail. split; [by left | done].
      * destruct (IH2 x Hx) as (v' & tail & Hv' & ->). exists v', tail. split; [by right | done].
Qed.

Lemma fmap_bind_bind {A B C D} (f : C -> D) (g : B -> list C) (h : A -> list B) (l : list A) :
  f <$> ((l ≫= h) ≫= g) = l ≫= fun a => f <$> (h a ≫= g).
Proof.
  induction l as [|a l IH]; [done|]. cbn [mbind list_bind].
  change (list_bind _ _ g (h a ++ list_bind _ _ h l)) with ((h a ++ (l ≫= h)) ≫= g).
  by rewrite bind_app, fmap_app, IH.
Qed.

Lemma fmap_bind {A B C} (f : B -> C) (h : A -> list B) (l : list A) :
  f <$> (l ≫= h) = l ≫= fun a => f <$> h a.
Proof.
  induction l as [|a l IH]; [done|]. cbn [mbind list_bind].
  change (list_bind _ _ h l) with (l ≫= h). by rewrite fmap_app, IH.
Qed.
End DistinctIds.

(** X19. The paragraph ids [extractSlideTargets] gives on a slide are all
    different, those of the paragraphs of the text shapes and those of the
    table cells together, when the shapes it visits have distinct keys and
    no key holds an underscore. *)
Theorem extractSlideTargets_ids_distinct (compileRegExp : jsstring -> option (jsstring -> bool))
    (numberToString : number -> jsstring) (slideIndex : Z) (settings : Settings)
    (slideShapes : list HostShape) :
  let visits := walkShapes (compileIgnoreRegex compileRegExp (ignoreRegex settings))
                  slideShapes in
  NoDup (visitKey <$> visits) ->
  Forall (fun v => 95%N ∉ visitKey v) visits ->
  NoDup (targetIds
           (extractSlideTargets compileRegExp numberToString slideIndex settings slideShapes)).
Proof.
  cbv zeta. intros Hkeys Hfree. unfold targetIds.
  cbn [extractSlideTargets shapeTextTargets tableCellTargets].
  rewrite fmap_bind_bind, fmap_bind.
  destruct (NoDup_bind_keyed slideIndex 112%N _ _ Hkeys Hfree
              (visit_paragraph_ids numberToString slideIndex)) as [Hp Hpshape].
  destruct (NoDup_bind_keyed slideIndex 99%N _ _ Hkeys Hfree
              (visit_cell_ids slideIndex)) as [Hc Hcshape].
  apply NoDup_app. split; [done|]. split; [|done].
  intros x Hx Hx'.
  destruct (Hpshape x Hx) as (v & tail & Hv & ->).
  destruct (Hcshape _ Hx') as (v' & tail' & Hv' & Heq).
  rewrite Forall_forall in Hfree.
  apply blockId_inj in Heq as [_ Heq]; [done | by apply Hfree | by apply Hfree].
Qed.

Lemma extractSlideTargets_ids_distinct_witness :
  let targets := extractSlideTargets sampleRegExp (fun _ => js "18") 0
                   sampleIgnoreSettings sampleHostShapes in
  targetIds targets
  = [js "s0_shape2_p0"; js "s0_shape4::5_cell0_0"; js "s0_shape4::5_cell0_2"] /\
  NoDup (targetIds targets).
Proof.
  cbv zeta. split; [vm_compute; reflexivity|].
  apply extractSlideTargets_ids_distinct.
  - apply (bool_decide_unpack _). vm_compute. reflexivity.
  - apply (bool_decide_unpack _). vm_compute. reflexivity.
Defined.

Lemma extracted_targets_are_indexed_witness :
  let targets := extractSlideTargets sampleRegExp (fun _ => js "18") 0
                   sampleIgnoreSettings sampleHostShapes in
  (st_shapeId <$> shapeTextTargets targets = [js "2"]) /\
  (tc_groupPath <$> tableCellTargets targets = [[js "4"]; [js "4"]]) /\
  Forall (fun tc => is_Some (buildShapeIndex sampleHostShapes
                               !! shapeKey (tc_shapeId tc) (tc_groupPath tc)))
         (tableCellTargets targets) /\
  is_Some (buildShapeIndex sampleHostShapes !! js "3").
Proof.
  cbv zeta. split; [vm_compute; reflexivity|]. split; [vm_compute; reflexivity|]. split.
  - apply Forall_forall. intros tc Htc.
    by apply (extracted_targets_are_indexed sampleRegExp (fun _ => js "18") 0
                sampleIgnoreSettings sampleHostShapes).
  - vm_compute. by eexists.
Defined.

Lemma extractSlideTargets_keeps_witness :
  let targets := extractSlideTargets sampleRegExp (fun _ => js "18") 0
                   sampleIgnoreSettings sampleHostShapes in
  ((fun st => paragraphText <$> paragraphs st) <$> shapeTextTargets targets
   = [[js "Title"]]) /\
  Forall (fun st => join [10%N] (paragraphText <$> paragraphs st) = st_shapeName st)
         (shapeTextTargets targets) /\
  ((fun tc => tr_text <$> tc_runs tc) <$> tableCellTargets targets
   = [[js "Total"]; [js "42"; js ""]]).
Proof.
  cbv zeta. split; [vm_compute; reflexivity|]. split; [|vm_compute; reflexivity].
  apply Forall_forall. intros st Hst.
  destruct (extractSlideTargets_keeps sampleRegExp (fun _ => js "18") 0
              sampleIgnoreSettings sampleHostShapes) as [Hshapes _].
  by destruct (Hshapes st Hst) as (_ & Hjoin & _).
Defined.

(** ** [translateScope] between two turns *)

Ltac scope_unfold :=
  unfold scopeStep, slideExtracted, chunksSettled, chunksResolved, slideReturned,
         slideLoop, finish in *.

Ltac scope_fields :=
  cbn [aborted phase cache translatedTotal preview progress extracted sent mappings
       written setAborted setPhase onProgress startExtraction addSent recordMapping
       startApplying addResult] in *.

(** Case analysis on the innermost test of the goal. *)
Ltac inner_case :=
  match goal with
  | |- context [match ?x with _ => _ end] =>
      lazymatch x with
      | context [match _ with _ => _ end] => fail
      | _ => destruct x eqn:?
      end
  end.

(** All the ways one turn of [translateScope] can go from the state [s]. *)
Ltac scope_cases s ev Hph :=
  destruct ev; cbn [scopeStep]; destruct (phase s) eqn:Hph; scope_unfold;
  scope_fields; rewrite ?Hph;
  repeat (inner_case; scope_fields; rewrite ?Hph).

Section ScopeInvariantFacts.
Variable settings : Settings.
Variable hostHasText : ShapeTextTarget -> bool.
Variable slides : list SlideTargets.

Local Abbreviation step := (scopeStep settings hostHasText slides).
Local Abbreviation run := (runScope settings hostHasText slides).

Lemma scopeStep_phaseInv s ev : phaseInv slides s -> phaseInv slides (step s ev).
Proof.
  unfold phaseInv. intros Hs. scope_cases s ev Hph; try done; by destruct Hs.
Qed.

Lemma runScope_snoc events ev : run (events ++ [ev]) = step (run events) ev.
Proof. unfold runScope. by rewrite foldl_snoc. Qed.

Lemma runScope_phaseInv events : phaseInv slides (run events).
Proof.
  induction events as [|ev events IH] using rev_ind; [done|].
  rewrite runScope_snoc. by apply scopeStep_phaseInv.
Qed.

Lemma nondecreasing_snoc l x :
  nondecreasing l -> Forall (fun a => a <= x) l -> nondecreasing (l ++ [x]).
Proof.
  intros Hl Hx j k a b Hjk Ha Hb.
  destruct (decide (k < length l)) as [Hk|Hk].
  - rewrite lookup_app_l in Ha, Hb by lia. eauto.
  - assert (b = x) as ->.
    { rewrite lookup_app_r in Hb by lia.
      by apply list_lookup_singleton_Some in Hb as [_ ->]. }
    destruct (decide (j < length l)) as [Hj|Hj].
    + rewrite lookup_app_l in Ha by lia.
      rewrite Forall_forall in Hx. apply Hx. by eapply list_elem_of_lookup_2.
    + rewrite lookup_app_r in Ha by lia.
      by apply list_lookup_singleton_Some in Ha as [_ ->].
Qed.

Lemma reportsUpTo_step n k m reports label :
  reportsUpTo slides n reports -> n <= k -> k <= m ->
  reportsUpTo slides m (reports ++ [(k, length slides, label)]).
Proof.
  intros [Hall Hmono] Hnk Hkm. split.
  - apply Forall_app. split.
    + eapply Forall_impl; [exact Hall|]. cbn. intros r [? ?]. split; [done | lia].
    + apply Forall_singleton. cbn. split; [done | lia].
  - rewrite fmap_app. apply nondecreasing_snoc; [done|].
    apply Forall_fmap. eapply Forall_impl; [exact Hall|]. cbn. intros r [_ ?].
    unfold doneOf in *. cbn. lia.
Qed.

Lemma reportsUpTo_mono n m reports :
  reportsUpTo slides n reports -> n <= m -> reportsUpTo slides m reports.
Proof.
  intros [Hall Hmono] Hnm. split; [|done].
  eapply Forall_impl; [exact Hall|]. cbn. intros r [? ?]. split; [done | lia].
Qed.

Ltac reports_inner :=
  first [ eassumption
        | eapply reportsUpTo_step; [reports_inner | cbn; lia | reflexivity] ].

Ltac reports :=
  first [ eassumption
        | eapply reportsUpTo_step; [reports_inner | cbn; lia | cbn; lia]
        | eapply reportsUpTo_mono; [eassumption | cbn; lia] ].

Lemma scopeStep_progressInv s ev :
  phaseInv slides s -> progressInv slides s -> progressInv slides (step s ev).
Proof.
  unfold phaseInv, progressInv. intros Hp [Hs Hdone].
  scope_cases s ev Hph; cbn [slidesPassed] in *;
    repeat match goal with
           | H : _ /\ _ |- _ => destruct H
           | H : is_Some _ |- _ => destruct H
           | H : slides !! _ = Some _ |- _ => apply lookup_lt_Some in H
           | H : slides !! _ = None |- _ => apply lookup_ge_None in H
           end.
  all: split; [reports|].
  all: try (intros ? ? [=]); try done.
  all: unfold finalReport in *; scope_fields; rewrite ?last_snoc; eauto.
Qed.

(** What the tests of a turn tell about the position of the loop. *)
Ltac scope_bounds :=
  repeat match goal with
         | H : _ /\ _ |- _ => destruct H
         | H : is_Some _ |- _ => destruct H
         | H : slides !! _ = Some _ |- _ => apply lookup_lt_Some in H
         | H : slides !! _ = None |- _ => apply lookup_ge_None in H
         end.

Lemma scopeStep_extractionInv s ev :
  phaseInv slides s -> extractionInv slides s -> extractionInv slides (step s ev).
Proof.
  unfold phaseInv, extractionInv. intros Hp Hs.
  scope_cases s ev Hph; scope_bounds; rewrite ?last_snoc; try done.
  all: try (rewrite Hs, <- seq_S; done).
  all: try (split; [|intros [=]]).
  all: try (eexists; split; [|eassumption]; lia).
  all: try (exists 0; split; [lia | by rewrite Hs]).
  all: rewrite Hs; try done.
  all: first [ by replace (length slides) with 0 by lia
             | f_equal; lia ].
Qed.

Lemma scopeStep_modeInv s ev :
  phaseInv slides s -> modeInv settings hostHasText slides s ->
  modeInv settings hostHasText slides (step s ev).
Proof.
  unfold phaseInv, modeInv. intros Hp Hs.
  scope_cases s ev Hph;
    repeat match goal with H : _ /\ _ |- _ => destruct H end;
    try done; try congruence.
  all: split; try done; try congruence.
  all: apply Forall2_app; [done|]; constructor; [|constructor].
  all: match goal with
       | H : slides !! _ = Some ?t |- _ =>
           exists t; split; [by eapply list_elem_of_lookup_2 | done]
       end.
Qed.

Lemma size_keys_le `{Countable K} {V} (m : gmap K V) (l : list K) :
  (forall k, is_Some (m !! k) -> k ∈ l) -> base.size m <= length l.
Proof.
  intros Hm. rewrite <- (size_dom (D:=gset K)).
  transitivity (base.size (list_to_set (remove_dups l) : gset K)).
  - apply subseteq_size. intros k Hk%elem_of_dom.
    apply elem_of_list_to_set, elem_of_remove_dups. auto.
  - rewrite size_list_to_set by apply NoDup_remove_dups.
    clear Hm. induction l as [|x l IH]; cbn; [done|].
    destruct (decide_rel _ _ _); cbn; lia.
Qed.

Lemma mappingOfSlide_resultMap (i : nat) (targets : SlideTargets) (cache : Cache)
    (translated : list TranslationResult) :
  slides !! i = Some targets ->
  mappingOfSlide slides
    (slideIndex targets,
     resultMap (fanOut (dedupe cache (buildTranslateItems targets)) cache translated).2).
Proof.
  intros Hi. exists targets. split; [by eapply list_elem_of_lookup_2|]. split; [done|].
  cbn [fst snd].
  assert (Hids : forall pid,
             is_Some (resultMap (fanOut (dedupe cache (buildTranslateItems targets))
                                        cache translated).2 !! pid) ->
             pid ∈ item_paragraphId <$> buildTranslateItems targets)
    by (intros pid; apply resultMap_ids).
  split; [done|]. rewrite <- (length_fmap item_paragraphId). by apply size_keys_le.
Qed.

Lemma scopeStep_countInv s ev :
  phaseInv slides s -> countInv slides s -> countInv slides (step s ev).
Proof.
  unfold phaseInv, countInv, mappedCount. intros Hp (Hcount & Hmaps & Hdone).
  scope_cases s ev Hph;
    repeat match goal with
           | H : _ /\ _ |- _ => destruct H
           | H : fanOut ?d ?c ?t = (?g, ?l) |- _ =>
               assert (l = (fanOut d c t).2) as -> by (by rewrite H); clear H
           end;
    subst; rewrite ?fmap_app, ?sum_list_with_app;
    cbn [fmap list_fmap sum_list_with fst snd] in *.
  all: split; [unfold Datatypes.id in *; lia|].
  all: split;
    [|intros ? ? Heq;
      first [ discriminate Heq
            | injection Heq as <- <-; first [by split | by eapply Hdone] ]].
  all: try done.
  all: apply Forall_app; split; [done|]; apply Forall_singleton.
  all: by eapply mappingOfSlide_resultMap.
Qed.

Lemma dedupe_idToKey_uncached (cache : Cache) items pid k :
  idToKey (dedupe cache items) !! pid = Some k -> cache !! k = None.
Proof.
  unfold dedupe.
  assert (Hgen : forall d,
             (forall pid k, idToKey d !! pid = Some k -> cache !! k = None) ->
             forall pid k, idToKey (foldl (dedupeStep cache) d items) !! pid = Some k ->
                           cache !! k = None).
  { induction items as [|x items IH]; intros d Hd; cbn [foldl]; [done|].
    apply IH. unfold dedupeStep.
    destruct (cache !! translateKey x) eqn:Hx; [done|].
    destruct (keyToIds d !! translateKey x); [done|]. cbn [idToKey].
    intros pid' k' Hk. apply lookup_insert_Some in Hk as [[_ <-] | [_ Hk]]; eauto. }
  apply Hgen. intros pid' k' Hk. cbn [idToKey] in Hk. by rewrite lookup_empty in Hk.
Qed.

(** The second loop of [translateAndMaybeApplySlide] leaves the entries the
    cache had alone. *)
Lemma fanOut_keeps (cache : Cache) items translated k v :
  cache !! k = Some v ->
  (fanOut (dedupe cache items) cache translated).1 !! k = Some v.
Proof.
  intros Hk. unfold fanOut.
  induction translated as [|r translated IH] using rev_ind; [done|].
  rewrite foldl_snoc. unfold fanOutStep at 1.
  destruct (idToKey _ !! paragraphId r) as [key|] eqn:Hkey; [|done].
  destruct (isEmpty key); [done|]. cbn [fst].
  rewrite lookup_insert_ne; [done|].
  intros ->. apply dedupe_idToKey_uncached in Hkey. congruence.
Qed.

Lemma scopeStep_cache s ev k v :
  phaseInv slides s -> cache s !! k = Some v -> cache (step s ev) !! k = Some v.
Proof.
  unfold phaseInv. intros Hp Hk.
  scope_cases s ev Hph;
    repeat match goal with
           | H : _ /\ _ |- _ => destruct H
           | H : fanOut ?d ?c ?t = (?g, ?l) |- _ =>
               assert (g = (fanOut d c t).1) as -> by (by rewrite H); clear H
           end;
    subst; try done.
  all: by apply fanOut_keeps.
Qed.

Lemma run_cache events : forall s k v,
  phaseInv slides s -> cache s !! k = Some v -> cache (foldl step s events) !! k = Some v.
Proof.
  induction events as [|ev events IH]; intros s k v Hp Hk; cbn [foldl]; [done|].
  apply IH; [by apply scopeStep_phaseInv | by apply scopeStep_cache].
Qed.

Lemma claimFrom_nokey rest i :
  isEmpty (apiKey settings) = true -> (claimFrom settings rest i).1.2 = None.
Proof. intros Hkey. destruct rest; cbn; [done|]. by rewrite Hkey. Qed.

Lemma workerLoop_nokey a w r :
  isEmpty (apiKey settings) = true ->
  requests (workerLoop settings a w r) = requests r.
Proof.
  intros Hkey. unfold workerLoop. destruct a; [done|].
  pose proof (claimFrom_nokey (drop (cursor r) (chunks r)) (cursor r) Hkey) as Hc.
  destruct (claimFrom _ _ _) as [[next sentNow] state]. cbn in Hc. subst sentNow.
  cbn. apply app_nil_r.
Qed.

Lemma startChunks_nokey a chunks0 concurrency :
  isEmpty (apiKey settings) = true ->
  requests (startChunks settings a chunks0 concurrency) = [].
Proof.
  intros Hkey. unfold startChunks.
  generalize (seq 0 (Nat.min concurrency (length chunks0))).
  assert (Hgen : forall ws r, requests r = [] ->
             requests (foldl (fun r w => workerLoop settings a w r) r ws) = []).
  { induction ws as [|w ws IH]; intros r Hr; cbn [foldl]; [done|].
    apply IH. by rewrite workerLoop_nokey. }
  intros ws. by apply Hgen.
Qed.

Lemma workerResume_nokey a w reply r :
  isEmpty (apiKey settings) = true ->
  requests (workerResume settings a w reply r) = requests r.
Proof.
  intros Hkey. unfold workerResume.
  destruct (workers r !! w) as [[k| |e]|]; try done.
  destruct (translateBatchResult reply); [done|]. by rewrite workerLoop_nokey.
Qed.

Lemma scopeStep_nothingSent s ev :
  isEmpty (apiKey settings) = true -> nothingSent s -> nothingSent (step s ev).
Proof.
  unfold nothingSent. intros Hkey [Hsent Hreq].
  scope_cases s ev Hph; rewrite ?Hsent; cbn [app]; unfold requestedChunks;
    rewrite ?workerResume_nokey, ?startChunks_nokey, ?Hreq by done; try done.
Qed.

Lemma runScope_nothingSent events :
  isEmpty (apiKey settings) = true -> nothingSent (run events).
Proof.
  intros Hkey. induction events as [|ev events IH] using rev_ind; [done|].
  rewrite runScope_snoc. by apply scopeStep_nothingSent.
Qed.

Lemma runScope_progressInv events : progressInv slides (run events).
Proof.
  induction events as [|ev events IH] using rev_ind.
  - split; [|done]. split; [constructor|]. by intros j k a b _ Ha.
  - rewrite runScope_snoc. apply scopeStep_progressInv; [apply runScope_phaseInv | done].
Qed.

Lemma runScope_extractionInv events : extractionInv slides (run events).
Proof.
  induction events as [|ev events IH] using rev_ind; [done|].
  rewrite runScope_snoc. apply scopeStep_extractionInv; [apply runScope_phaseInv | done].
Qed.

Lemma runScope_modeInv events : modeInv settings hostHasText slides (run events).
Proof.
  induction events as [|ev events IH] using rev_ind.
  - unfold modeInv, runScope. cbn.
    destruct (mode settings); [split; [done | constructor] | by split].
  - rewrite runScope_snoc. apply scopeStep_modeInv; [apply runScope_phaseInv | done].
Qed.

Lemma runScope_countInv events : countInv slides (run events).
Proof.
  induction events as [|ev events IH] using rev_ind.
  - split; [done|]. split; [by apply Forall_nil | done].
  - rewrite runScope_snoc. apply scopeStep_countInv; [apply runScope_phaseInv | done].
Qed.

Lemma slidesPassed_le s : phaseInv slides s -> slidesPassed slides (phase s) <= length slides.
Proof.
  unfold phaseInv. destruct (phase s); cbn; try lia.
  - intros [t Ht]. apply lookup_lt_Some in Ht. lia.
  - intros [Ht _]. apply lookup_lt_Some in Ht. lia.
  - intros Ht. apply lookup_lt_Some in Ht. lia.
Qed.
End ScopeInvariantFacts.

(** X20. The progress [translateScope] reports never runs backwards and
    never passes the end: every [onProgress] call gives the number of slides
    of the scope as total and at most that number as done, and done never
    decreases from one call to the next. When [translateScope] has returned,
    its last report is (total, total), labelled cancelled or completed. *)
Theorem translateScope_progress (settings : Settings)
    (hostHasText : ShapeTextTarget -> bool) (slides : list SlideTargets)
    (events : list Event) :
  let s := runScope settings hostHasText slides events in
  Forall (fun report => totalOf report = length slides /\
                        doneOf report <= length slides) (progress s) /\
  nondecreasing (doneOf <$> progress s) /\
  (forall translated pv, phase s = Completed translated pv -> finalReport slides s).
Proof.
  cbv zeta.
  destruct (runScope_progressInv settings hostHasText slides events) as [[Hall Hmono] Hdone].
  pose proof (slidesPassed_le slides _ (runScope_phaseInv settings hostHasText slides events))
    as Hle.
  split; [|by split].
  eapply Forall_impl; [exact Hall|]. cbn. intros r [? ?]. split; [done | lia].
Qed.

(** X21. [translateScope] extracts the slides of the scope in order, each
    at most once and none skipped: the slides whose extraction was started
    are the first ones. While the slide at position [i] is being translated
    the slides up to [i] and no other have been extracted. When
    [translateScope] returns with the report labelled completed, every slide
    of the scope was extracted. *)
Theorem translateScope_extracts_in_order (settings : Settings)
    (hostHasText : ShapeTextTarget -> bool) (slides : list SlideTargets)
    (events : list Event) :
  let s := runScope settings hostHasText slides events in
  (exists n, n <= length slides /\ extracted s = seq 0 n) /\
  (forall i targets d run, phase s = Translating i targets d run ->
     slides !! i = Some targets /\ extracted s = seq 0 (S i)) /\
  (forall translated pv, phase s = Completed translated pv ->
     last (progress s) = Some (length slides, length slides, LabelCompleted) ->
     extracted s = seq 0 (length slides)).
Proof.
  cbv zeta.
  pose proof (runScope_extractionInv settings hostHasText slides events) as He.
  pose proof (runScope_phaseInv settings hostHasText slides events) as Hp.
  unfold extractionInv, phaseInv in *.
  destruct (phase (runScope settings hostHasText slides events))
    as [|i|i targets d run|i targets translated|translated pv|e run].
  - split; [exists 0; split; [lia | done]|]. by split.
  - split; [|by split]. destruct Hp as [t Ht%lookup_lt_Some]. exists (S i). split; [lia | done].
  - destruct Hp as [Hi _]. split.
    + exists (S i). apply lookup_lt_Some in Hi. split; [lia | done].
    + split; [|done]. by intros ? ? ? ? [= <- <- _ _].
  - split; [|by split]. apply lookup_lt_Some in Hp. exists (S i). split; [lia | done].
  - destruct He as [Hn Hall]. split; [done|]. split; [done|]. by intros _ _ _.
  - split; [done|]. by split.
Qed.

Lemma translateScope_extracts_in_order_witness :
  extracted
    (runScope (sampleSettings true ModeApply) (fun _ => true) [smallSlide; smallSlide]
       [EvHost; EvHost; EvProvider 0 (okReply [(js "s1_shape3_p0", js "Bonjour")]);
        EvHost; EvHost; EvHost])
  = [0; 1].
Proof.
  apply (proj2 (proj2 (translateScope_extracts_in_order
                         (sampleSettings true ModeApply) (fun _ => true)
                         [smallSlide; smallSlide]
                         [EvHost; EvHost;
                          EvProvider 0 (okReply [(js "s1_shape3_p0", js "Bonjour")]);
                          EvHost; EvHost; EvHost]))
           2 []);
    vm_compute; reflexivity.
Defined.

(** X22. In preview mode [translateScope] never writes to the
    presentation. In apply mode it returns no preview, and the writes it
    queued are, slide by slide and in order, those [applySlideTranslations]
    makes for the mapping recorded for that slide. *)
Theorem translateScope_preview_never_writes (settings : Settings)
    (hostHasText : ShapeTextTarget -> bool) (slides : list SlideTargets)
    (events : list Event) :
  let s := runScope settings hostHasText slides events in
  (mode settings = ModePreview -> written s = []) /\
  (mode settings = ModeApply ->
   (forall translated pv, phase s = Completed translated pv -> pv = []) /\
   Forall2 (writesOf settings hostHasText slides) (mappings s) (written s)).
Proof.
  cbv zeta.
  pose proof (runScope_modeInv settings hostHasText slides events) as Hm.
  destruct (runScope_countInv settings hostHasText slides events) as (_ & _ & Hdone).
  unfold modeInv in Hm. split; intros Hmode; rewrite Hmode in Hm.
  - by destruct Hm.
  - destruct Hm as [Hpv Hw]. split; [|done].
    intros translated pv Hph. destruct (Hdone _ _ Hph) as [_ ->]. done.
Qed.

(** X23. The count [translateScope] returns is the number of paragraph ids
    that got an entry in the mapping of their slide, added up over the
    slides. Every mapping belongs to a slide of the scope and has entries
    for paragraph ids of the items built for that slide only, so it never
    has more entries than the slide has items. *)
Theorem translateScope_count (settings : Settings)
    (hostHasText : ShapeTextTarget -> bool) (slides : list SlideTargets)
    (events : list Event) (translated : nat) (pv : jsstring) :
  let s := runScope settings hostHasText slides events in
  phase s = Completed translated pv ->
  translated = mappedCount s /\ Forall (mappingOfSlide slides) (mappings s).
Proof.
  cbv zeta. intros Hph.
  destruct (runScope_countInv settings hostHasText slides events) as (Hcount & Hmaps & Hdone).
  split; [|done]. destruct (Hdone _ _ Hph) as [-> _].
  rewrite Hph in Hcount. lia.
Qed.

Lemma translateScope_count_witness :
  let slides := [smallSlide; smallSlide] in
  let s := runScope (sampleSettings true ModeApply) (fun _ => true) slides
             [EvHost; EvHost; EvProvider 0 (okReply [(js "s1_shape3_p0", js "Bonjour")]);
              EvHost; EvHost; EvHost] in
  2 = mappedCount s /\ Forall (mappingOfSlide slides) (mappings s).
Proof.
  cbv zeta.
  apply (translateScope_count (sampleSettings true ModeApply) (fun _ => true)
           [smallSlide; smallSlide]
           [EvHost; EvHost; EvProvider 0 (okReply [(js "s1_shape3_p0", js "Bonjour")]);
            EvHost; EvHost; EvHost]
           2 []).
  vm_compute; reflexivity.
Defined.

(** X24. A translation put in the cache of a [translateScope] invocation
    stays as it is until the invocation ends: the later slides neither
    remove nor replace it, whatever the provider returns for them. *)
Theorem translation_cache_persists (settings : Settings)
    (hostHasText : ShapeTextTarget -> bool) (slides : list SlideTargets)
    (events more : list Event) (k : jsstring) (v : list IndexedText) :
  cache (runScope settings hostHasText slides events) !! k = Some v ->
  cache (runScope settings hostHasText slides (events ++ more)) !! k = Some v.
Proof.
  intros Hk. unfold runScope. rewrite foldl_app.
  apply run_cache; [apply runScope_phaseInv | done].
Qed.

Lemma translation_cache_persists_witness :
  cache (runScope (sampleSettings true ModeApply) (fun _ => true) [smallSlide; smallSlide]
           ([EvHost; EvHost; EvProvider 0 (okReply [(js "s1_shape3_p0", js "Bonjour")])]
            ++ [EvHost; EvHost; EvHost]))
    !! JSON_stringify [js "Hello"]
  = Some [{| index := 0; itext := js "Bonjour" |}].
Proof.
  apply (translation_cache_persists (sampleSettings true ModeApply) (fun _ => true)
           [smallSlide; smallSlide]
           [EvHost; EvHost; EvProvider 0 (okReply [(js "s1_shape3_p0", js "Bonjour")])]
           [EvHost; EvHost; EvHost]).
  vm_compute; reflexivity.
Defined.

(** X25. Without an API key [translateScope] never sends a request to the
    provider, whatever the slides hold and whatever happens. *)
Theorem no_api_key_sends_nothing (settings : Settings)
    (hostHasText : ShapeTextTarget -> bool) (slides : list SlideTargets)
    (events : list Event) :
  isEmpty (apiKey settings) = true ->
  requestsSent (runScope settings hostHasText slides events) = [].
Proof.
  intros Hkey.
  destruct (runScope_nothingSent settings hostHasText slides events Hkey) as [Hsent Hreq].
  unfold requestsSent, requestedChunks. rewrite Hsent.
  destruct (phase _); try done; by rewrite Hreq.
Qed.

Lemma no_api_key_sends_nothing_witness :
  requestsSent (runScope noKeySettings (fun _ => true) [smallSlide]
                  [EvHost; EvHost; EvProvider 0 (okReply [(js "s1_shape3_p0", js "Bonjour")])])
  = [].
Proof.
  apply (no_api_key_sends_nothing noKeySettings (fun _ => true) [smallSlide]). reflexivity.
Defined.

(* ===================================================================== *)
(** * Part IV. The invocation as a whole                                  *)
(* ===================================================================== *)

(** ** What is recorded for the results of the provider *)


Section HeldResults.
Variable settings : Settings.
Variable hostHasText : ShapeTextTarget -> bool.
Variable slides : list SlideTargets.

Local Abbreviation step := (scopeStep settings hostHasText slides).








End HeldResults.



(** ** Identical items across the slides of an invocation *)

Section AcrossSlides.
Variable settings : Settings.
Variable hostHasText : ShapeTextTarget -> bool.
Variable slides : list SlideTargets.

Local Abbreviation step := (scopeStep settings hostHasText slides).
Local Abbreviation run := (runScope settings hostHasText slides).

(** A turn of the code leaves the mappings and the cache alone, or builds
    the mapping of the slide being translated and updates the cache with
    it. *)
Lemma scopeStep_effect s ev :
  phaseInv slides s ->
  (mappings (step s ev) = mappings s /\ cache (step s ev) = cache s) \/
  (exists i targets translated,
      slides !! i = Some targets /\
      let out := fanOut (dedupe (cache s) (buildTranslateItems targets)) (cache s)
                        translated in
      mappings (step s ev) = mappings s ++ [(slideIndex targets, resultMap out.2)] /\
      cache (step s ev) = out.1).
Proof.
  unfold phaseInv. intros Hp.
  scope_cases s ev Hph;
    repeat match goal with H : _ /\ _ |- _ => destruct H end; subst;
    first [ by left
          | right;
            match goal with
            | Hf : fanOut _ _ ?t = _, Hs : slides !! ?i = Some ?tg |- _ =>
                exists i, tg, t; cbv zeta; rewrite Hf; by split
            end ].
Qed.

Lemma step_historyInv s ev history :
  phaseInv slides s -> historyInv slides s history ->
  exists history', historyInv slides (step s ev) history'.
Proof.
  intros Hp (Hmaps & Hbuilt & Hcache & Hpair).
  destruct (scopeStep_effect s ev Hp)
    as [[Hm Hc] | (i & targets & translated & Hi & Hm & Hc)].
  { exists history. unfold historyInv. rewrite Hm, Hc. done. }
  cbv zeta in Hm, Hc.
  set (items := buildTranslateItems targets) in *.
  set (d := dedupe (cache s) items) in *.
  set (m := resultMap (fanOut d (cache s) translated).2) in *.
  assert (Hitem : forall x, itemIdsDistinct targets -> x ∈ items ->
            translatedRuns <$> m !! item_paragraphId x
            = match cache s !! translateKey x with
              | Some c => Some c
              | None => translatedRuns <$> last (answersFor d (translateKey x) translated)
              end).
  { intros x Hnd Hx. by apply (resultMap_item (cache s) items Hnd d (dedupe_inv _ _)). }
  assert (Hnew : forall x rx, itemIdsDistinct targets -> x ∈ items ->
            m !! item_paragraphId x = Some rx ->
            (fanOut d (cache s) translated).1 !! translateKey x = Some (translatedRuns rx)).
  { intros x rx Hnd Hx Hrx. pose proof (Hitem x Hnd Hx) as Hmx. rewrite Hrx in Hmx.
    cbn [fmap option_fmap option_map] in Hmx.
    destruct (cache s !! translateKey x) as [c|] eqn:Hcx.
    - injection Hmx as ->. by apply fanOut_keeps.
    - rewrite (fanOut_cache (cache s) items d (dedupe_inv _ _)).
      destruct (last _) as [r'|]; [|done].
      cbn [fmap option_fmap option_map] in Hmx. by injection Hmx as ->. }
  exists (history ++ [(targets, m)]). split; [|split; [|split]].
  - rewrite Hm, Hmaps. unfold recordsOf. by rewrite fmap_app.
  - apply Forall_app. split; [done|]. apply Forall_singleton. split.
    + by eapply list_elem_of_lookup_2.
    + by exists (cache s), translated.
  - intros n t m0 a ra Hn Hnd Ha Hra. rewrite Hc.
    apply lookup_snoc_cases in Hn as [[_ Hn] | [_ [= -> ->]]].
    + apply fanOut_keeps. by eapply Hcache.
    + by apply Hnew.
  - intros n1 n2 t1 m1 t2 m2 a b ra Hle H1 H2 Hnd1 Hnd2 Ha Hb Hkey Hra.
    apply lookup_snoc_cases in H2 as [[Hlt H2] | [Hn2 [= -> ->]]].
    + rewrite lookup_app_l in H1 by lia. by eapply (Hpair n1 n2).
    + rewrite (Hitem b Hnd2 Hb), <- Hkey.
      apply lookup_snoc_cases in H1 as [[_ H1] | [_ [= -> ->]]].
      * by rewrite (Hcache n1 t1 m1 a ra H1 Hnd1 Ha Hra).
      * rewrite <- (Hitem a Hnd1 Ha), Hra. done.
Qed.

Lemma runScope_historyInv events : exists history, historyInv slides (run events) history.
Proof.
  induction events as [|ev events [history IH]] using rev_ind.
  - exists []. split; [done|]. split; [constructor|]. split; by intros.
  - rewrite runScope_snoc. apply (step_historyInv _ _ history); [|done].
    apply runScope_phaseInv.
Qed.

Lemma startChunks_chunks a chunks0 concurrency :
  chunks (startChunks settings a chunks0 concurrency) = chunks0.
Proof.
  unfold startChunks. generalize (seq 0 (Nat.min concurrency (length chunks0))).
  assert (Hgen : forall ws r, chunks r = chunks0 ->
             chunks (foldl (fun r w => workerLoop settings a w r) r ws) = chunks0).
  { induction ws as [|w ws IH]; intros r Hr; cbn [foldl]; [done|].
    apply IH. by rewrite workerLoop_chunks. }
  intros ws. by apply Hgen.
Qed.

Lemma requestedChunks_elem r : Forall (fun c => c ∈ chunks r) (requestedChunks r).
Proof.
  unfold requestedChunks. apply Forall_forall. intros c Hc.
  apply list_elem_of_omap in Hc as (i & _ & Hi). by eapply list_elem_of_lookup_2.
Qed.

Lemma workerResume_requests_ext a w reply r :
  exists new, requests (workerResume settings a w reply r) = requests r ++ new.
Proof.
  unfold workerResume.
  destruct (workers r !! w) as [[k| |e]|]; try (exists []; by rewrite app_nil_r).
  destruct (translateBatchResult reply); [exists []; by rewrite app_nil_r|].
  unfold workerLoop. destruct a; [exists []; by rewrite app_nil_r|].
  destruct (claimFrom _ _ _) as [[next sentNow] state]. by eexists.
Qed.

Lemma requestedChunks_resume a w reply r :
  exists extra,
    requestedChunks (workerResume settings a w reply r) = requestedChunks r ++ extra /\
    Forall (fun c => c ∈ chunks r) extra.
Proof.
  destruct (workerResume_requests_ext a w reply r) as [new Hnew].
  pose proof (requestedChunks_elem (workerResume settings a w reply r)) as Hall.
  unfold requestedChunks in *. rewrite workerResume_chunks in *. rewrite Hnew in *.
  rewrite omap_app in *. apply Forall_app in Hall as [_ Hall]. by eexists.
Qed.

Lemma pending_uncached (cache : Cache) items chunk x :
  chunk ∈ chunkByChars (pending (dedupe cache items)) defaultMaxChars defaultMaxItems ->
  x ∈ chunk -> cache !! translateKey x = None.
Proof.
  intros Hchunk Hx.
  destruct (chunkByChars_default_good (pending (dedupe cache items))) as [Hconcat _].
  destruct (dedupe_inv cache items) as (_ & _ & HS & _).
  apply HS. rewrite <- Hconcat. apply elem_of_concat. by exists chunk.
Qed.

Lemma scopeStep_chunksUncached s ev :
  phaseInv slides s -> chunksUncached s -> chunksUncached (step s ev).
Proof.
  unfold phaseInv, chunksUncached. intros Hp Hs.
  scope_cases s ev Hph; rewrite ?startChunks_chunks, ?workerResume_chunks; try done.
  all: intros x (chunk & Hx & Hchunk)%elem_of_concat; by eapply pending_uncached.
Qed.

Lemma runScope_chunksUncached events : chunksUncached (run events).
Proof.
  induction events as [|ev events IH] using rev_ind; [done|].
  rewrite runScope_snoc. apply scopeStep_chunksUncached; [apply runScope_phaseInv | done].
Qed.

Lemma scopeStep_runInv s ev : runInv settings s -> runInv settings (step s ev).
Proof.
  unfold runInv. intros Hs.
  scope_cases s ev Hph; try done; by constructor.
Qed.

Lemma runScope_runInv events : runInv settings (run events).
Proof.
  induction events as [|ev events IH] using rev_ind; [done|].
  rewrite runScope_snoc. by apply scopeStep_runInv.
Qed.

(** A turn of the code sends only chunks whose items have no cached
    fingerprint. *)
Lemma scopeStep_requests s ev :
  chunksUncached s ->
  exists extra,
    requestsSent (step s ev) = requestsSent s ++ extra /\
    Forall (Forall (fun x => cache s !! translateKey x = None)) extra.
Proof.
  unfold chunksUncached, requestsSent. intros Hs.
  scope_cases s ev Hph; rewrite ?app_nil_r.
  all: try (exists []; split; [by rewrite app_nil_r | constructor]).
  all: try match goal with
           | |- context [requestedChunks (workerResume ?st ?a ?w ?r ?rn)] =>
               destruct (requestedChunks_resume a w r rn) as (extra & -> & Hextra);
               exists extra; split; [by rewrite app_assoc|];
               eapply Forall_impl; [exact Hextra|]; cbv beta; intros chunk Hchunk;
               apply Forall_forall; intros x Hx; apply Hs, elem_of_concat; by exists chunk
           | |- context [requestedChunks (startChunks ?st ?a ?cs ?n)] =>
               exists (requestedChunks (startChunks st a cs n)); split; [done|];
               pose proof (requestedChunks_elem (startChunks st a cs n)) as Hextra;
               rewrite startChunks_chunks in Hextra;
               eapply Forall_impl; [exact Hextra|]; cbv beta; intros chunk Hchunk;
               apply Forall_forall; intros x Hx; by eapply pending_uncached
           end.
Qed.

(** Once a fingerprint is in the cache, no item with it is sent. *)
Lemma run_noResend more : forall s key c,
  phaseInv slides s -> chunksUncached s -> cache s !! key = Some c ->
  exists extra,
    requestsSent (foldl step s more) = requestsSent s ++ extra /\
    Forall (Forall (fun x => translateKey x <> key)) extra.
Proof.
  induction more as [|ev more IH]; intros s key c Hp Hu Hkey; cbn [foldl].
  - exists []. split; [by rewrite app_nil_r | constructor].
  - destruct (scopeStep_requests s ev Hu) as (extra1 & Hreq1 & Hall1).
    destruct (IH (step s ev) key c) as (extra2 & Hreq2 & Hall2).
    + by apply scopeStep_phaseInv.
    + by apply scopeStep_chunksUncached.
    + by apply scopeStep_cache.
    + exists (extra1 ++ extra2). split; [by rewrite Hreq2, Hreq1, app_assoc|].
      apply Forall_app. split; [|done].
      eapply Forall_impl; [exact Hall1|]. cbv beta. intros chunk Hchunk.
      eapply Forall_impl; [exact Hchunk|]. cbv beta. intros x Hx Heq.
      rewrite Heq in Hx. congruence.
Qed.
End AcrossSlides.

(** C4, as the code has it. Two items with the same ordered run texts have
    the same fingerprint. On one slide, whose paragraph ids are distinct,
    exactly one item with that fingerprint is in the chunks sent if the
    fingerprint is not cached and none if it is; [translateChunks] never
    sends a chunk twice, and when it resolves, with an API key and without
    cancellation, it has sent every chunk once; whatever the provider
    returns, the two paragraph ids get the same [translatedRuns] in the
    mapping of the slide, and the result returned for the queued item
    reaches both ids and the cache. In every state an invocation reaches,
    the slide being translated is handled that way: its locals were built
    from its items and the cache, its workers were started on the chunks of
    its pending items. Across the slides of the invocation: the mappings
    built so far were each built for a slide of the scope; once an item has
    an entry in the mapping of its slide, its runs are in the cache under
    the fingerprint, and every item with the same run texts on that slide or
    on a later one gets the same [translatedRuns]; and once a fingerprint is
    in the cache, no item with it is sent to the provider for the rest of
    the invocation. (When the provider returns no result for the queued
    item, nothing is cached, and a later slide sends the same text again.) *)
Theorem identical_items_translated_once (settings : Settings)
    (hostHasText : ShapeTextTarget -> bool) (slides : list SlideTargets)
    (events : list Event) :
  let s := runScope settings hostHasText slides events in
  (forall (cache : Cache) (items : list TranslateBatchItem) (a b : TranslateBatchItem)
          (translated : list TranslationResult),
     NoDup (item_paragraphId <$> items) -> a ∈ items -> b ∈ items ->
     itext <$> item_runs a = itext <$> item_runs b ->
     let d := dedupe cache items in
     let chunks := chunkByChars (pending d) defaultMaxChars defaultMaxItems in
     let key := translateKey a in
     let out := fanOut d cache translated in
     let map := resultMap out.2 in
     translateKey b = key /\
     length (filter (fun x => translateKey x = key) (concat chunks))
     = match cache !! key with Some _ => 0 | None => 1 end /\
     (forall run, reachableRun settings chunks run -> NoDup (requests run)) /\
     (forall run res, isEmpty (apiKey settings) = false -> steadyRun settings chunks run ->
                      settle run = ResolvedWith res -> requests run = seq 0 (length chunks)) /\
     translatedRuns <$> map !! item_paragraphId a
     = translatedRuns <$> map !! item_paragraphId b /\
     (forall c, cache !! key = Some c ->
                translatedRuns <$> map !! item_paragraphId a = Some c) /\
     (forall p r, p ∈ pending d -> translateKey p = key ->
                  r ∈ translated -> paragraphId r = item_paragraphId p ->
        exists r', r' ∈ translated /\
          translatedRuns <$> map !! item_paragraphId a = Some (translatedRuns r') /\
          translatedRuns <$> map !! item_paragraphId b = Some (translatedRuns r') /\
          out.1 !! key = Some (translatedRuns r'))) /\
  (forall i targets d run, phase s = Translating i targets d run ->
     slides !! i = Some targets /\
     d = dedupe (cache s) (buildTranslateItems targets) /\
     reachableRun settings (chunkByChars (pending d) defaultMaxChars defaultMaxItems) run) /\
  (exists history,
     mappings s = recordsOf history /\
     Forall (builtFor slides) history /\
     forall n1 n2 t1 m1 t2 m2 a b ra,
       n1 <= n2 -> history !! n1 = Some (t1, m1) -> history !! n2 = Some (t2, m2) ->
       itemIdsDistinct t1 -> itemIdsDistinct t2 ->
       a ∈ buildTranslateItems t1 -> b ∈ buildTranslateItems t2 ->
       itext <$> item_runs a = itext <$> item_runs b ->
       m1 !! item_paragraphId a = Some ra ->
       translatedRuns <$> m2 !! item_paragraphId b = Some (translatedRuns ra) /\
       cache s !! translateKey a = Some (translatedRuns ra)) /\
  (forall more key c,
     cache s !! key = Some c ->
     exists extra,
       requestsSent (runScope settings hostHasText slides (events ++ more))
       = requestsSent s ++ extra /\
       Forall (Forall (fun x => translateKey x <> key)) extra).
Proof.
  cbv zeta. split; [|split; [|split]].
  - intros cache items a b translated Hnodup Ha Hb Htexts.
    exact (same_slide_items_once settings cache items a b translated Hnodup Ha Hb Htexts).
  - intros i targets d run Hph.
    pose proof (runScope_phaseInv settings hostHasText slides events) as Hp.
    pose proof (runScope_runInv settings hostHasText slides events) as Hr.
    unfold phaseInv in Hp. unfold runInv in Hr. rewrite Hph in Hp, Hr.
    destruct Hp as [Hi Hd]. done.
  - destruct (runScope_historyInv settings hostHasText slides events)
      as (history & Hmaps & Hbuilt & Hcache & Hpair).
    exists history. split; [done|]. split; [done|].
    intros n1 n2 t1 m1 t2 m2 a b ra Hle H1 H2 Hnd1 Hnd2 Ha Hb Htexts Hra.
    assert (Hkey : translateKey a = translateKey b).
    { unfold translateKey. by rewrite Htexts. }
    split.
    + exact (Hpair n1 n2 t1 m1 t2 m2 a b ra Hle H1 H2 Hnd1 Hnd2 Ha Hb Hkey Hra).
    + exact (Hcache n1 t1 m1 a ra H1 Hnd1 Ha Hra).
  - intros more key c Hkey. unfold runScope. rewrite foldl_app.
    apply (run_noResend settings hostHasText slides more _ key c); [| |done].
    + apply runScope_phaseInv.
    + apply runScope_chunksUncached.
Qed.

Lemma identical_items_translated_once_witness :
  let settings := sampleSettings true ModeApply in
  let translated :=
    [{| paragraphId := js "s0_shape2_p0";
        translatedRuns := [{| index := 0; itext := js "Bonjour" |}] |}] in
  let d := dedupe ∅ sampleItems in
  let key := JSON_stringify [js "Hello"] in
  let out := fanOut d ∅ translated in
  let map := resultMap out.2 in
  let events := [EvHost; EvHost; EvProvider 0 (okReply [(js "s0_shape2_p0", js "Bonjour")]);
                 EvHost; EvHost; EvHost] in
  let s := runScope settings (fun _ => true) [helloSlide; smallSlide] events in
  length sampleItems = 3 /\
  length (filter (fun x => translateKey x = key)
                 (concat (chunkByChars (pending d) defaultMaxChars defaultMaxItems))) = 1 /\
  requests (workerResume settings false 0
              (okReply [(js "s0_shape2_p0", js "Bonjour")])
              (startChunks settings false
                 (chunkByChars (pending d) defaultMaxChars defaultMaxItems)
                 defaultConcurrency)) = [0] /\
  translatedRuns <$> map !! js "s0_shape2_p0" = translatedRuns <$> map !! js "s0_shape2_p1" /\
  translatedRuns <$> map !! js "s0_shape2_p1" = Some [{| index := 0; itext := js "Bonjour" |}] /\
  out.1 !! key = Some [{| index := 0; itext := js "Bonjour" |}] /\
  sentIds s = [[js "s0_shape2_p0"]] /\
  recordedText s 0 (js "s0_shape2_p0") = Some (js "Bonjour") /\
  recordedText s 1 (js "s1_shape3_p0") = Some (js "Bonjour") /\
  (exists extra,
      requestsSent (runScope settings (fun _ => true) [helloSlide; smallSlide]
                      (events ++ [EvAbort; EvHost]))
      = requestsSent s ++ extra /\
      Forall (Forall (fun x => translateKey x <> key)) extra).
Proof.
  cbv zeta.
  set (settings := sampleSettings true ModeApply).
  set (translated := [{| paragraphId := js "s0_shape2_p0" |}]).
  set (events := [EvHost; EvHost; EvProvider 0 _; EvHost; EvHost; EvHost]).
  destruct (identical_items_translated_once settings (fun _ => true)
              [helloSlide; smallSlide] events) as (Hslide & _ & _ & Hnoresend).
  assert (Hnodup : NoDup (item_paragraphId <$> sampleItems)).
  { apply (bool_decide_unpack _). vm_compute. reflexivity. }
  destruct (sampleItems !! 0) as [a|] eqn:Ha; [|discriminate Ha].
  destruct (sampleItems !! 1) as [b|] eqn:Hb; [|discriminate Hb].
  assert (Htexts : itext <$> item_runs a = itext <$> item_runs b).
  { injection Ha as <-. injection Hb as <-. reflexivity. }
  destruct (Hslide ∅ sampleItems a b translated Hnodup (list_elem_of_lookup_2 _ _ _ Ha)
              (list_elem_of_lookup_2 _ _ _ Hb) Htexts)
    as (_ & Hone & _ & Honce & Hsame & _ & Hanswer).
  injection Ha as <-. injection Hb as <-.
  split; [reflexivity|]. split; [exact Hone|]. split.
  { apply (Honce _ translated); [reflexivity | | vm_compute; reflexivity].
    apply steady_resume, steady_start. unfold defaultConcurrency. lia. }
  split; [exact Hsame|].
  split; [vm_compute; reflexivity|]. split; [vm_compute; reflexivity|].
  split; [vm_compute; reflexivity|]. split; [vm_compute; reflexivity|].
  split; [vm_compute; reflexivity|].
  apply (Hnoresend [EvAbort; EvHost] _ [{| index := 0; itext := js "Bonjour" |}]).
  vm_compute; reflexivity.
Defined.

(** C4, as stated, fails across slides. Two slides hold the paragraph
    [Hello]. The reply for the first slide is well-formed but has no result
    for the queued paragraph, so nothing is cached: the same text is sent
    again for the second slide, and of the two paragraphs with the same run
    texts one gets no translation and the other gets one. *)
Lemma identical_items_sent_twice :
  let s := runScope (sampleSettings true ModeApply) (fun _ => true) [helloSlide; smallSlide]
             [EvHost; EvHost; EvProvider 0 (okReply []);
              EvHost; EvHost; EvProvider 0 (okReply [(js "s1_shape3_p0", js "Bonjour")]);
              EvHost] in
  (fun x => itext <$> item_runs x) <$> buildTranslateItems helloSlide = [[js "Hello"]] /\
  (fun x => itext <$> item_runs x) <$> buildTranslateItems smallSlide = [[js "Hello"]] /\
  translateKey <$> buildTranslateItems helloSlide
  = translateKey <$> buildTranslateItems smallSlide /\
  sentIds s = [[js "s0_shape2_p0"]; [js "s1_shape3_p0"]] /\
  recordedText s 0 (js "s0_shape2_p0") = None /\
  recordedText s 1 (js "s1_shape3_p0") = Some (js "Bonjour") /\
  awaited s = false /\ failedWith s = None.
Proof. vm_compute. repeat split. Qed.
